(** * neon data loader: the staged minibatch pipeline of [loader.hpp]

    A shallow embedding of [DecodeThreadPool], [ReadThread] and [Loader]
    (src/loader/src/loader.hpp) together with the properties the
    specification states about them.

    C++ [int] values are modelled as [Z]; [/] on [int] is [Z.quot]
    (truncation towards zero).  Signed overflow and division by zero are
    undefined behaviour in C++: the facade ([Loader]) checks each [int]
    operation and faults on them; the statements about the pipeline are
    about configurations whose sizes are in range. *)

From Stdlib Require Import ZArith Lia List Bool Strings.Byte.
From stdpp Require Import base tactics numbers list.

Local Open Scope Z_scope.

(** ** Integer helpers *)

(** The mathematical ceiling of [a / b] for [b > 0]. *)
Definition ceil_div (a b : Z) : Z := (a + b - 1) `div` b.

(** The values of a 32-bit [int]. *)
Definition in_int (x : Z) : Prop := - 2 ^ 31 <= x < 2 ^ 31.

#[export] Instance in_int_dec x : Decision (in_int x).
Proof. unfold in_int. apply _. Defined.

(** ** Buffers and collaborators *)

(** [memcpy (dst + off, src, n)] and [memset (dst + off, c, n)] on a buffer
    held as the list of its bytes.  The C functions are undefined outside
    the buffer; here such writes are dropped, and the theorems below keep
    every write inside. *)
Definition memcpy (dst : list byte) (off : Z) (src : list byte) (n : Z)
  : list byte :=
  list_inserts (Z.to_nat off) (take (Z.to_nat n) src) dst.

Definition memset (dst : list byte) (off : Z) (c : byte) (n : Z)
  : list byte :=
  list_inserts (Z.to_nat off) (replicate (Z.to_nat n) c) dst.

(** The bytes [[off, off + n)] of a buffer. *)
Definition slice {A} (buf : list A) (off n : Z) : list A :=
  take (Z.to_nat n) (drop (Z.to_nat off) buf).

(** Modelled from the spec: [Buffer<char>] of the read stage (buffer.hpp is
    not part of the sources at hand), "k variable-length items
    concatenated end-to-end; getItem(i) returns pointer+length for item
    i".  The buffer is held as the list of its items; [None] is the null
    pointer returned for an index out of range, the length is the length
    of the item. *)
Definition CharItems := list (list byte).

Definition getItem (buf : CharItems) (i : Z) : option (list byte) :=
  if decide (0 <= i) then buf !! Z.to_nat i else None.

Definition item_len (item : option (list byte)) : Z :=
  match item with
  | Some x => Z.of_nat (length x)
  | None => 0
  end.

(** An encoded minibatch as the reader leaves it in a read-pool slot:
    [(data, targets, _)]. *)
Record EncTuple := {
  enc_data : CharItems;
  enc_targets : CharItems;
}.

(** A decode-pool slot: [(data, targets, meta)], fixed-stride buffers. *)
Record BufferTuple := {
  data : list byte;
  targets : list byte;
  meta : list Z;
}.

(** The media transformer, an external collaborator (media.hpp).  Its two
    entry points are taken as functions of the worker's transformer
    [_media[id]], the encoded input and the capacities: the datum-only one
    yields the decoded region and the scalar it stores through [meta], the
    joint one yields the decoded datum and target regions. *)
Class Media := {
  media_transform :
    Z -> list byte -> Z -> Z -> list byte * Z;
  media_transform_joint :
    Z -> list byte -> Z -> list byte -> Z -> Z -> Z -> list byte * list byte;
}.

(** The reader, an external collaborator (archive.hpp): [reader_read k] is
    what the [k]-th call of [read] since the last [reset] stores in the
    tuple it is given, [None] when the call returns -1. *)
Class Reader := {
  reader_read : nat -> option EncTuple;
}.

(** Modelled from the spec: [Matrix::transpose] (matrix.hpp is not part of
    the sources at hand), "given a buffer of B records of stride S bytes
    containing S/e elements of size e, produce a buffer of the same total
    size but with element (i, j) stored at offset (j·B + i)·e". *)
Definition transpose (x : list byte) (B D e : Z) : list byte :=
  concat (map (fun j =>
            concat (map (fun i => slice x ((i * D + j) * e) e) (seqZ 0 B)))
          (seqZ 0 D)).

(** ** BufferPool *)

(** Modelled from the spec: [BufferPool] (buffer.hpp is not part of the
    sources at hand), "a bounded circular queue of S BufferTuples, with
    separate read and write cursors", with the operations of the table of
    section 4.1.  The mutex and the two condition variables belong to the
    pipeline below. *)
Module BufferPool.
Section pool.
Context {A : Type}.

Record t := mk {
  bufs : list A;
  count : Z;
  used : Z;
  readPos : Z;
  writePos : Z;
}.

Definition create (n : Z) (b : A) : t :=
  mk (replicate (Z.to_nat n) b) n 0 0 0.

Definition getForWrite (q : t) : option A := bufs q !! Z.to_nat (writePos q).

(** A write through the reference to slot [i]. *)
Definition store (i : Z) (x : A) (q : t) : t :=
  mk (<[Z.to_nat i := x]> (bufs q)) (count q) (used q) (readPos q)
     (writePos q).

Definition advanceWritePos (q : t) : t :=
  mk (bufs q) (count q) (used q + 1) (readPos q)
     ((writePos q + 1) `mod` count q).

Definition advanceReadPos (q : t) : t :=
  mk (bufs q) (count q) (used q - 1) ((readPos q + 1) `mod` count q)
     (writePos q).

Definition empty (q : t) : bool := bool_decide (used q = 0).
Definition full (q : t) : bool := bool_decide (used q = count q).

End pool.
Arguments t : clear implicits.
End BufferPool.

(** ** Device *)

(** The device, an external collaborator (device.hpp), by its copy-in and
    copy-out contract: two slots, each holding the data, the labels and the
    meta of one minibatch. *)
Module Device.

Abbreviation t := (list BufferTuple).

Definition create : t :=
  replicate 2 {| data := []; targets := []; meta := [] |}.

Definition copyData (slot : Z) (buf : list byte) (d : t) : t :=
  alter (fun s => {| data := buf; targets := targets s; meta := meta s |})
        (Z.to_nat slot) d.

Definition copyLabels (slot : Z) (buf : list byte) (d : t) : t :=
  alter (fun s => {| data := data s; targets := buf; meta := meta s |})
        (Z.to_nat slot) d.

Definition copyMeta (slot : Z) (buf : list Z) (d : t) : t :=
  alter (fun s => {| data := data s; targets := targets s; meta := buf |})
        (Z.to_nat slot) d.

Definition copyDataBack (slot : Z) (d : t) : list byte :=
  default [] (data <$> d !! Z.to_nat slot).

Definition copyLabelsBack (slot : Z) (d : t) : list byte :=
  default [] (targets <$> d !! Z.to_nat slot).

End Device.

(** ** DecodeThreadPool: partition of a minibatch among the workers *)

Module DecodeThreadPool.

(** Constructor, line 43: [_itemsPerThread((batchSize - 1) / count + 1)]. *)
Definition itemsPerThread (batchSize count : Z) : Z :=
  (batchSize - 1) `quot` count + 1.

(** Constructor, lines 53-54: the two assertions on the partition. *)
Definition ctor_asserts (batchSize count : Z) : Prop :=
  itemsPerThread batchSize count * count >= batchSize /\
  itemsPerThread batchSize count * (count - 1) < batchSize.

(** [run(id)], lines 108-117: the bounds and offsets a worker computes
    before entering its loop. *)
Definition startInd (batchSize count id : Z) : Z :=
  id * itemsPerThread batchSize count.

Definition itemCount (batchSize count id : Z) : Z :=
  if decide (id = count - 1)
  then batchSize - id * itemsPerThread batchSize count
  else itemsPerThread batchSize count.

Definition endInd (batchSize count id : Z) : Z :=
  startInd batchSize count id + itemCount batchSize count id.

Definition dataOffset (batchSize count datumLen id : Z) : Z :=
  startInd batchSize count id * datumLen.

Definition targetOffset (batchSize count targetLen id : Z) : Z :=
  startInd batchSize count id * targetLen.

Definition metaOffset (batchSize count id : Z) : Z :=
  startInd batchSize count id.

(** [work(id)], line 180: [for (int i = start; i < end; i++)]. *)
Definition work_items (batchSize count id : Z) : list Z :=
  seqZ (startInd batchSize count id)
       (endInd batchSize count id - startInd batchSize count id).

(** The range the specification assigns to a worker:
    [[id * ipt, min ((id + 1) * ipt, B))]. *)
Definition spec_range (batchSize count id : Z) : Z * Z :=
  (id * itemsPerThread batchSize count,
   Z.min ((id + 1) * itemsPerThread batchSize count) batchSize).

(** The fields of the pool fixed by the constructor, lines 42-52.
    [READ_CONTENTS] is a constant of a header that is not at hand and is
    taken as a parameter. *)
Record Params := {
  count : Z;
  batchSize : Z;
  datumSize : Z;
  datumTypeSize : Z;
  targetSize : Z;
  targetTypeSize : Z;
  targetConversion : Z;
  READ_CONTENTS : Z;
}.

Definition datumLen (p : Params) : Z := datumSize p * datumTypeSize p.
Definition targetLen (p : Params) : Z := targetSize p * targetTypeSize p.

Section transform.
Context {M : Media}.
Variable p : Params.

(** [transform(id, ..., int* meta)], lines 125-144.  The pointers
    [datumBuf], [targetBuf] and [meta] are offsets into the three buffers
    of the destination tuple. *)
Definition transform_meta (id : Z)
    (encDatum : list byte) (encDatumLen : Z)
    (encTarget : list byte) (encTargetLen : Z)
    (datumBuf targetBuf metaPtr : Z) (dst : BufferTuple) : BufferTuple :=
  (* Handle the data. *)
  let '(dec, scalar) := media_transform id encDatum encDatumLen (datumLen p) in
  let data1 := memcpy (data dst) datumBuf dec (datumLen p) in
  let meta1 := <[Z.to_nat metaPtr := scalar]> (meta dst) in
  (* Handle the targets. *)
  let encTargetLen :=
    if decide (encTargetLen > targetLen p) then targetLen p
    else encTargetLen in
  let targets1 := memcpy (targets dst) targetBuf encTarget encTargetLen in
  let targets2 :=
    if decide (targetLen p > encTargetLen)
    then memset targets1 (targetBuf + encTargetLen) x00
                (targetLen p - encTargetLen)
    else targets1 in
  (* Store target length inside metadata. *)
  let meta2 := <[Z.to_nat (metaPtr + batchSize p) := encTargetLen]> meta1 in
  {| data := data1; targets := targets2; meta := meta2 |}.

(** [transform(id, ..., bool)], lines 146-152. *)
Definition transform_joint (id : Z)
    (encDatum : list byte) (encDatumLen : Z)
    (encTarget : list byte) (encTargetLen : Z)
    (datumBuf targetBuf : Z) (dst : BufferTuple) : BufferTuple :=
  let '(dec, tgt) :=
    media_transform_joint id encDatum encDatumLen encTarget encTargetLen
                          (datumLen p) (targetLen p) in
  {| data := memcpy (data dst) datumBuf dec (datumLen p);
     targets := memcpy (targets dst) targetBuf tgt (targetLen p);
     meta := meta dst |}.

End transform.

(** The target slot the specification describes for the raw-copy path:
    the encoded target cut to [targetLen] bytes and padded with zeros. *)
Definition fixed_target (p : Params) (encTarget : list byte) : list byte :=
  take (Z.to_nat (targetLen p)) encTarget
  ++ replicate (Z.to_nat (targetLen p) - length encTarget) x00.

(** What the specification says the raw-copy path records in
    [meta[batchSize + i]]: the length of the encoded target before it is
    truncated. *)
Definition records_original_length {M : Media} (p : Params) (id : Z)
    (encDatum encTarget : list byte) (i : Z) (dst : BufferTuple) : Prop :=
  meta (transform_meta p id encDatum (Z.of_nat (length encDatum))
          encTarget (Z.of_nat (length encTarget))
          (i * datumLen p) (i * targetLen p) i dst)
    !! Z.to_nat (batchSize p + i)
  = Some (Z.of_nat (length encTarget)).

(** The local variables of [work(id)], lines 168-178: the loop index and
    bound, the three running pointers (offsets into the buffers of the
    destination tuple), and the two tuples the worker captured: the write
    slot of [_out] and the slot [_inputBuf] points to. *)
Record WorkerLocals := {
  w_i : Z;
  w_end : Z;
  w_datumBuf : Z;
  w_targetBuf : Z;
  w_metaBuf : Z;
  w_dst : Z;
  w_src : Z;
}.

Section work.
Context {M : Media}.
Variable p : Params.

(** [work(id)], lines 168-178. *)
Definition work_setup (id : Z) (writeSlot inputBuf : Z) : WorkerLocals :=
  {| w_i := startInd (batchSize p) (count p) id;
     w_end := endInd (batchSize p) (count p) id;
     w_datumBuf := dataOffset (batchSize p) (count p) (datumLen p) id;
     w_targetBuf := targetOffset (batchSize p) (count p) (targetLen p) id;
     w_metaBuf := metaOffset (batchSize p) (count p) id;
     w_dst := writeSlot;
     w_src := inputBuf |}.

(** [work(id)], lines 181-195: one iteration of the loop.  [None] when the
    assertion [encDatum != 0] fails. *)
Definition work_item (id : Z) (loc : WorkerLocals) (src : EncTuple)
    (dst : BufferTuple) : option (BufferTuple * WorkerLocals) :=
  let encDatum := getItem (enc_data src) (w_i loc) in
  let encTarget := getItem (enc_targets src) (w_i loc) in
  match encDatum with
  | None => None
  | Some datum =>
      let dst' :=
        if decide (targetConversion p = READ_CONTENTS p)
        then transform_joint p id datum (item_len encDatum)
               (default [] encTarget) (item_len encTarget)
               (w_datumBuf loc) (w_targetBuf loc) dst
        else transform_meta p id datum (item_len encDatum)
               (default [] encTarget) (item_len encTarget)
               (w_datumBuf loc) (w_targetBuf loc) (w_metaBuf loc) dst in
      Some (dst',
            {| w_i := w_i loc + 1;
               w_end := w_end loc;
               w_datumBuf := w_datumBuf loc + datumLen p;
               w_targetBuf := w_targetBuf loc + targetLen p;
               w_metaBuf := w_metaBuf loc + 1;
               w_dst := w_dst loc;
               w_src := w_src loc |})
  end.

(** The decoded datum and target of item [j] of an encoded minibatch, as a
    single transformer (the one of worker 0) produces them. *)
Definition decode_item (src : EncTuple) (j : Z) : list byte * list byte :=
  let encDatum := getItem (enc_data src) j in
  let encTarget := getItem (enc_targets src) j in
  if decide (targetConversion p = READ_CONTENTS p)
  then media_transform_joint 0 (default [] encDatum) (item_len encDatum)
         (default [] encTarget) (item_len encTarget)
         (datumLen p) (targetLen p)
  else ((media_transform 0 (default [] encDatum) (item_len encDatum)
           (datumLen p)).1,
        fixed_target p (default [] encTarget)).

(** The single-threaded decode of a minibatch: its items decoded one after
    the other, in order, concatenated. *)
Definition single_decode (src : EncTuple) : list byte * list byte :=
  (concat (map (fun j => (decode_item src j).1) (seqZ 0 (batchSize p))),
   concat (map (fun j => (decode_item src j).2) (seqZ 0 (batchSize p)))).

(** What the device receives for a minibatch: the decoded data and
    targets, each transposed from item-major to element-major. *)
Definition device_image (src : EncTuple) : list byte * list byte :=
  (transpose (single_decode src).1 (batchSize p) (datumSize p)
             (datumTypeSize p),
   transpose (single_decode src).2 (batchSize p) (targetSize p)
             (targetTypeSize p)).

(** A minibatch read back from the device, put back item after item. *)
Definition item_major (img : list byte * list byte)
  : list byte * list byte :=
  (transpose img.1 (datumSize p) (batchSize p) (datumTypeSize p),
   transpose img.2 (targetSize p) (batchSize p) (targetTypeSize p)).

End work.

(** The fields of the pool that change while it runs (lines 280-286).
    [_inputBuf] is the index of the slot of [_in] it points to, [None] for
    the null pointer. *)
Record Shared := {
  _startSignaled : list Z;
  _endSignaled : Z;
  _stopManager : bool;
  _managerStopped : bool;
  _inputBuf : option Z;
  _bufferIndex : Z;
}.

Definition set_startSignaled (v : list Z) (sh : Shared) : Shared :=
  {| _startSignaled := v; _endSignaled := _endSignaled sh;
     _stopManager := _stopManager sh; _managerStopped := _managerStopped sh;
     _inputBuf := _inputBuf sh; _bufferIndex := _bufferIndex sh |}.

Definition set_endSignaled (v : Z) (sh : Shared) : Shared :=
  {| _startSignaled := _startSignaled sh; _endSignaled := v;
     _stopManager := _stopManager sh; _managerStopped := _managerStopped sh;
     _inputBuf := _inputBuf sh; _bufferIndex := _bufferIndex sh |}.

(** [produce], lines 214-218: every start signal is set to 1. *)
Definition signal_start (sh : Shared) : Shared :=
  set_startSignaled ((fun _ => 1) <$> _startSignaled sh) sh.

(** [produce], line 222: the condition of the wait on [_ended]. *)
Definition barrier_open (p : Params) (sh : Shared) : bool :=
  negb (bool_decide (_endSignaled sh < count p)).

(** [produce], line 225. *)
Definition reset_end (sh : Shared) : Shared := set_endSignaled 0 sh.

(** [produce], line 238. *)
Definition flip_bufferIndex (sh : Shared) : Shared :=
  {| _startSignaled := _startSignaled sh; _endSignaled := _endSignaled sh;
     _stopManager := _stopManager sh; _managerStopped := _managerStopped sh;
     _inputBuf := _inputBuf sh;
     _bufferIndex := if decide (_bufferIndex sh = 0) then 1 else 0 |}.

(** [consume], line 254. *)
Definition set_inputBuf (slot : Z) (sh : Shared) : Shared :=
  {| _startSignaled := _startSignaled sh; _endSignaled := _endSignaled sh;
     _stopManager := _stopManager sh; _managerStopped := _managerStopped sh;
     _inputBuf := Some slot; _bufferIndex := _bufferIndex sh |}.

(** [manage], lines 264-270, when [_device->init()] fails. *)
Definition manager_abort (sh : Shared) : Shared :=
  {| _startSignaled := _startSignaled sh; _endSignaled := _endSignaled sh;
     _stopManager := true; _managerStopped := true;
     _inputBuf := _inputBuf sh; _bufferIndex := _bufferIndex sh |}.

(** [work], line 164: [_startSignaled[id]--]. *)
Definition consume_start (id : nat) (sh : Shared) : Shared :=
  set_startSignaled (alter (fun v => v - 1) id (_startSignaled sh)) sh.

(** [work], line 200: [_endSignaled++]. *)
Definition signal_end (sh : Shared) : Shared :=
  set_endSignaled (_endSignaled sh + 1) sh.

(** The pool as the constructor leaves it, lines 44-64. *)
Definition create (p : Params) : Shared :=
  {| _startSignaled := replicate (Z.to_nat (count p)) 0;
     _endSignaled := 0; _stopManager := false; _managerStopped := false;
     _inputBuf := None; _bufferIndex := 0 |}.

(** A transformer that decodes every datum to zeros, for concrete runs. *)
Definition zero_media : Media := {|
  media_transform _ _ _ cap := (replicate (Z.to_nat cap) x00, 0);
  media_transform_joint _ _ _ _ _ dcap tcap :=
    (replicate (Z.to_nat dcap) x00, replicate (Z.to_nat tcap) x00);
|}.

(** A small configuration for concrete runs: one worker, one item per
    batch, a 1-byte datum and a 2-byte target slot. *)
Definition tiny_params : Params := {|
  count := 1; batchSize := 1;
  datumSize := 1; datumTypeSize := 1;
  targetSize := 2; targetTypeSize := 1;
  targetConversion := 0; READ_CONTENTS := 3;
|}.

Definition tiny_tuple : BufferTuple :=
  {| data := [x00]; targets := [x00; x00]; meta := [0; 0] |}.

(** Partition coverage as the specification states it, over the ranges
    the workers compute: every item of [[0, B)] is owned by some worker and
    nothing else is, no item is owned twice, and the last worker's range
    ends at [B]. *)
Definition partition_covers (batchSize count : Z) : Prop :=
  (forall i, (exists id, 0 <= id < count /\ i ∈ work_items batchSize count id)
             <-> 0 <= i < batchSize) /\
  (forall id1 id2 i, 0 <= id1 < count -> 0 <= id2 < count ->
     i ∈ work_items batchSize count id1 ->
     i ∈ work_items batchSize count id2 -> id1 = id2) /\
  endInd batchSize count (count - 1) = batchSize.

End DecodeThreadPool.

(** ** Loader::start: the number of decode workers *)

Module LoaderThreads.

(** [Loader::start], lines 393-396, with [numCores] the value returned by
    [thread::hardware_concurrency()]: the worker count where the two
    divisions are defined.  [Z.quot] is total; what the code does on a
    zero divisor, and on an overflow, is in [Loader.worker_count]. *)
Definition threadCount (batchSize numCores : Z) : Z :=
  let itemsPerThread := (batchSize - 1) `quot` numCores + 1 in
  let threadCount := (batchSize - 1) `quot` itemsPerThread + 1 in
  Z.min threadCount batchSize.

(** The formula the specification gives: [min (B, ceil (B / cores))]. *)
Definition spec_threadCount (batchSize numCores : Z) : Z :=
  Z.min batchSize (ceil_div batchSize numCores).

End LoaderThreads.

(** ** Loader: the facade's life cycle *)

Module Loader.

(** The arguments a [BufferPool] is constructed with. *)
Record PoolShape := {
  dataSize : Z;
  targetSize : Z;
  metaSize : Z;
  pinned : bool;
}.

(** The facade.  A handle is [None] for the null pointer; otherwise the
    pools hold the sizes they were constructed with, [_decodeThreads] the
    worker count of the decode stage, and [_readThread] whether the thread
    of the read stage has been spawned.  [heap] lists the outcomes of the
    coming [new] expressions ([false]: [std::bad_alloc] is thrown; past
    the end of the list every allocation succeeds), [threads] counts the
    running threads spawned through the facade, and [reader_pos] is the
    position of the reader. *)
Record t := {
  _first : bool;
  _batchSize : Z;
  _datumSize : Z;
  _datumTypeSize : Z;
  _targetSize : Z;
  _targetTypeSize : Z;
  _targetConversion : Z;
  _readBufs : option PoolShape;
  _decodeBufs : option PoolShape;
  _readThread : option bool;
  _decodeThreads : option Z;
  device_is_cpu : bool;
  heap : list bool;
  threads : Z;
  reader_pos : nat;
}.

Definition with_first (b : bool) (l : t) : t :=
  {| _first := b; _batchSize := _batchSize l; _datumSize := _datumSize l;
     _datumTypeSize := _datumTypeSize l; _targetSize := _targetSize l;
     _targetTypeSize := _targetTypeSize l;
     _targetConversion := _targetConversion l;
     _readBufs := _readBufs l; _decodeBufs := _decodeBufs l;
     _readThread := _readThread l; _decodeThreads := _decodeThreads l;
     device_is_cpu := device_is_cpu l; heap := heap l;
     threads := threads l; reader_pos := reader_pos l |}.

Definition with_handles (rb db : option PoolShape) (rt : option bool)
    (dt : option Z) (l : t) : t :=
  {| _first := _first l; _batchSize := _batchSize l;
     _datumSize := _datumSize l;
     _datumTypeSize := _datumTypeSize l; _targetSize := _targetSize l;
     _targetTypeSize := _targetTypeSize l;
     _targetConversion := _targetConversion l;
     _readBufs := rb; _decodeBufs := db;
     _readThread := rt; _decodeThreads := dt;
     device_is_cpu := device_is_cpu l; heap := heap l;
     threads := threads l; reader_pos := reader_pos l |}.

Definition with_heap (h : list bool) (l : t) : t :=
  {| _first := _first l; _batchSize := _batchSize l;
     _datumSize := _datumSize l;
     _datumTypeSize := _datumTypeSize l; _targetSize := _targetSize l;
     _targetTypeSize := _targetTypeSize l;
     _targetConversion := _targetConversion l;
     _readBufs := _readBufs l; _decodeBufs := _decodeBufs l;
     _readThread := _readThread l; _decodeThreads := _decodeThreads l;
     device_is_cpu := device_is_cpu l; heap := h;
     threads := threads l; reader_pos := reader_pos l |}.

Definition with_threads (n : Z) (l : t) : t :=
  {| _first := _first l; _batchSize := _batchSize l;
     _datumSize := _datumSize l;
     _datumTypeSize := _datumTypeSize l; _targetSize := _targetSize l;
     _targetTypeSize := _targetTypeSize l;
     _targetConversion := _targetConversion l;
     _readBufs := _readBufs l; _decodeBufs := _decodeBufs l;
     _readThread := _readThread l; _decodeThreads := _decodeThreads l;
     device_is_cpu := device_is_cpu l; heap := heap l;
     threads := n; reader_pos := reader_pos l |}.

Definition with_reader_pos (n : nat) (l : t) : t :=
  {| _first := _first l; _batchSize := _batchSize l;
     _datumSize := _datumSize l;
     _datumTypeSize := _datumTypeSize l; _targetSize := _targetSize l;
     _targetTypeSize := _targetTypeSize l;
     _targetConversion := _targetConversion l;
     _readBufs := _readBufs l; _decodeBufs := _decodeBufs l;
     _readThread := _readThread l; _decodeThreads := _decodeThreads l;
     device_is_cpu := device_is_cpu l; heap := heap l;
     threads := threads l; reader_pos := n |}.

(** Computations of the facade thread the facade and end in one of four
    ways: the call returns; an exception leaves it; it faults, that is, it
    runs into undefined behaviour (a division by zero, a signed overflow,
    a null handle dereferenced) or into a failed assertion; or it never
    comes back. *)
Inductive exn := bad_alloc.

Inductive outcome (A : Type) :=
| Ret (a : A)
| Throw (e : exn)
| Fault
| Spins.
Arguments Ret {A} a.
Arguments Throw {A} e.
Arguments Fault {A}.
Arguments Spins {A}.

Definition Cpp (A : Type) : Type := t -> outcome A * t.

Definition ret {A} (a : A) : Cpp A := fun l => (Ret a, l).

Definition bind {A B} (k : A -> Cpp B) (m : Cpp A) : Cpp B :=
  fun l => match m l with
           | (Ret a, l') => k a l'
           | (Throw e, l') => (Throw e, l')
           | (Fault, l') => (Fault, l')
           | (Spins, l') => (Spins, l')
           end.

#[export] Instance Cpp_ret : MRet Cpp := @ret.
#[export] Instance Cpp_bind : MBind Cpp := @bind.

(** [try { body } catch (std::bad_alloc&) { handler }]: the effects of the
    body up to the throw are kept. *)
Definition try_catch {A} (body : Cpp A) (handler : Cpp A) : Cpp A :=
  fun l => match body l with
           | (Throw bad_alloc, l') => handler l'
           | r => r
           end.

Definition modify (f : t -> t) : Cpp unit := fun l => (Ret tt, f l).
Definition get {A} (f : t -> A) : Cpp A := fun l => (Ret (f l), l).
Definition fault {A} : Cpp A := fun l => (Fault, l).

(** The value of an [int] expression: a result outside the range of [int]
    is a signed overflow. *)
Definition int (x : Z) : Cpp Z :=
  fun l => if decide (in_int x) then (Ret x, l) else (Fault, l).

(** [a / b] on [int]. *)
Definition int_div (a b : Z) : Cpp Z :=
  if decide (b = 0) then fault else int (a `quot` b).

(** [assert (c)]. *)
Definition assert (c : bool) : Cpp unit := if c then ret tt else fault.

(** A [new] expression: it consumes one outcome of the heap.  The
    allocations the constructor of the object makes in turn are part of
    it. *)
Definition new {A} (obj : A) : Cpp A :=
  fun l => match heap l with
           | false :: h => (Throw bad_alloc, with_heap h l)
           | true :: h => (Ret obj, with_heap h l)
           | [] => (Ret obj, l)
           end.

(** [new thread (...)], lines 82 and 84: once constructed the thread
    runs. *)
Definition new_thread : Cpp unit :=
  new tt;; modify (fun l => with_threads (threads l + 1) l).

Fixpoint spawn (n : nat) : Cpp unit :=
  match n with
  | O => mret tt
  | S n => new_thread;; spawn n
  end.

(** [DecodeThreadPool::start], lines 80-85: [count] workers, then the
    manager. *)
Definition decodeThreads_start : Cpp unit :=
  fun l => match _decodeThreads l with
           | Some count => (spawn (Z.to_nat count);; new_thread) l
           | None => (Fault, l)
           end.

(** Modelled from the spec: [ThreadPool::start] (the base class is not part
    of the sources at hand) spawns the threads of the pool as
    [DecodeThreadPool::start] spawns its workers; the read stage has one. *)
Definition readThread_start : Cpp unit :=
  fun l => match _readThread l with
           | Some _ =>
               (new_thread;;
                modify (fun l => with_handles (_readBufs l) (_decodeBufs l)
                                   (Some true) (_decodeThreads l) l)) l
           | None => (Fault, l)
           end.

(** The constructor of [DecodeThreadPool] as far as it can fault: the
    division of line 43, the products of lines 50-51 and the assertions of
    lines 53-54. *)
Definition decodeThreads_ctor (count : Z) : Cpp unit :=
  B ← get _batchSize;
  b1 ← int (B - 1);
  q ← int_div b1 count;
  itemsPerThread ← int (q + 1);
  D ← get _datumSize;
  d ← get _datumTypeSize;
  int (D * d);;
  T ← get _targetSize;
  tt ← get _targetTypeSize;
  int (T * tt);;
  covered ← int (itemsPerThread * count);
  assert (bool_decide (covered >= B));;
  c1 ← int (count - 1);
  before_last ← int (itemsPerThread * c1);
  assert (bool_decide (before_last < B)).

(** [Loader::start], lines 384-386: the sizes of the buffers of a pool. *)
Definition pool_sizes : Cpp (Z * Z * Z) :=
  B ← get _batchSize;
  D ← get _datumSize;
  d ← get _datumTypeSize;
  bd ← int (B * D);
  dataLen ← int (bd * d);
  T ← get _targetSize;
  tt ← get _targetTypeSize;
  bt ← int (B * T);
  targetLen ← int (bt * tt);
  metaLen ← int (2 * B);
  mret (dataLen, targetLen, metaLen).

(** [Loader::start], lines 393-396, with [numCores] the value
    [thread::hardware_concurrency()] has as an [int]: the divisions fault
    on a zero divisor; where they are defined the result is
    [LoaderThreads.threadCount]. *)
Definition worker_count (numCores : Z) : Cpp Z :=
  B ← get _batchSize;
  b1 ← int (B - 1);
  q ← int_div b1 numCores;
  itemsPerThread ← int (q + 1);
  q ← int_div b1 itemsPerThread;
  threadCount ← int (q + 1);
  mret (Z.min threadCount B).

(** The body of the [try] block of [Loader::start], lines 384-400. *)
Definition start_allocate (numCores : Z) : Cpp unit :=
  sizes ← pool_sizes;
  let '(dataLen, targetLen, metaLen) := sizes in
  rb ← new {| dataSize := dataLen `quot` 8; targetSize := targetLen;
              metaSize := metaLen; pinned := false |};
  modify (fun l => with_handles (Some rb) (_decodeBufs l)
                     (_readThread l) (_decodeThreads l) l);;
  rt ← new false;
  modify (fun l => with_handles (_readBufs l) (_decodeBufs l)
                     (Some rt) (_decodeThreads l) l);;
  pinned ← get (fun l => negb (device_is_cpu l));
  db ← new {| dataSize := dataLen; targetSize := targetLen;
              metaSize := metaLen; pinned := pinned |};
  modify (fun l => with_handles (_readBufs l) (Some db)
                     (_readThread l) (_decodeThreads l) l);;
  threadCount ← worker_count numCores;
  dt ← new threadCount;
  decodeThreads_ctor dt;;
  modify (fun l => with_handles (_readBufs l) (_decodeBufs l)
                     (_readThread l) (Some dt) l).

(** [Loader::start], lines 381-407: [Some r] stands for the [return r] of
    the handler, which leaves the function.  The two calls of [start]
    after the [try] block are outside it: what they throw leaves
    [Loader::start]. *)
Definition start (numCores : Z) : Cpp Z :=
  modify (with_first true);;
  caught ← try_catch (start_allocate numCores;; mret None)
                     (mret (Some (-1)));
  match caught with
  | Some r => mret r
  | None => decodeThreads_start;; readThread_start;; mret 0
  end.

(** [Loader::stop], lines 409-429, as the facade sees it.

    Modelled from the spec: [ThreadPool::stop] and [ThreadPool::stopped]
    (the base class is not part of the sources at hand), "stop sets flags
    and must unblock any waiter; the stop procedure loops signalling and
    yielding until all stopped-flags go true": a thread sets its flag when
    it leaves its loop (line 122), so the flag of a thread that was never
    spawned stays unset.

    Line 410 dereferences [_readThread].  With the read thread never
    spawned the loop of lines 411-414 never ends, and its call of [drain]
    dereferences [_decodeBufs].  With the read thread spawned, whether the
    loops of lines 411-418 and of [DecodeThreadPool::stop] (lines 89-102)
    end is decided by the threads of the pipeline (module [Shutdown]
    below has their steps); the facade takes it from [joins].  Once they
    have ended the worker, manager and reader threads are gone, and the
    four objects are deleted and their handles cleared. *)
Definition stop (joins : bool) : Cpp unit :=
  fun l =>
    match _readThread l with
    | None => (Fault, l)
    | Some false =>
        match _decodeBufs l with
        | None => (Fault, l)
        | Some _ => (Spins, l)
        end
    | Some true =>
        match _decodeBufs l, _readBufs l, _decodeThreads l with
        | Some _, Some _, Some count =>
            if joins
            then (Ret tt,
                  with_threads (threads l - (count + 1) - 1)
                    (with_handles None None None None l))
            else (Spins, l)
        | _, _, _ => (Fault, l)
        end
    end.

(** [Loader::reset], lines 431-436. *)
Definition reset (numCores : Z) (joins : bool) : Cpp Z :=
  stop joins;;
  modify (with_reader_pos 0);;
  start numCores;;
  mret 0.

(** A handle is in a partial state after a failed [start] when it holds an
    object although the pipeline was not started. *)
Definition no_partial_state (l : t) : Prop :=
  _readBufs l = None /\ _readThread l = None /\
  _decodeBufs l = None /\ _decodeThreads l = None.

(** Sizes for which the arithmetic of [start] and of the constructor of
    the decode stage stays within [int]: a batch of at least one item and
    every product of lines 384-386 and 50-51 in range. *)
Record sizes_ok (B D d T tt : Z) : Prop := {
  sf_batch : 1 <= B;
  sf_bd : in_int (B * D);
  sf_data : in_int (B * D * d);
  sf_bt : in_int (B * T);
  sf_target : in_int (B * T * tt);
  sf_meta : in_int (2 * B);
  sf_datumLen : in_int (D * d);
  sf_targetLen : in_int (T * tt);
}.

Definition sizes_fit (l : t) : Prop :=
  sizes_ok (_batchSize l) (_datumSize l) (_datumTypeSize l)
           (_targetSize l) (_targetTypeSize l).

(** The shapes of the read pool and of the decode pool [start] asks for,
    lines 389 and 392, when the sizes fit. *)
Definition read_pool (l : t) : PoolShape :=
  {| dataSize := (_batchSize l * _datumSize l * _datumTypeSize l) `quot` 8;
     targetSize := _batchSize l * _targetSize l * _targetTypeSize l;
     metaSize := 2 * _batchSize l; pinned := false |}.

Definition decode_pool (l : t) : PoolShape :=
  {| dataSize := _batchSize l * _datumSize l * _datumTypeSize l;
     targetSize := _batchSize l * _targetSize l * _targetTypeSize l;
     metaSize := 2 * _batchSize l; pinned := negb (device_is_cpu l) |}.

(** The index of the first allocation that fails, if any, and the heaps
    on which the next [n] allocations succeed. *)
Fixpoint first_failure (h : list bool) : option nat :=
  match h with
  | [] => None
  | false :: _ => Some 0%nat
  | true :: h => S <$> first_failure h
  end.

Definition allocs_ok (n : nat) (h : list bool) : Prop :=
  match first_failure h with
  | Some k => (n <= k)%nat
  | None => True
  end.

(** A facade as its constructor leaves it, for concrete runs. *)
Definition fresh (B D d T tt conv : Z) (cpu : bool) (h : list bool) : t :=
  {| _first := true; _batchSize := B; _datumSize := D; _datumTypeSize := d;
     _targetSize := T; _targetTypeSize := tt; _targetConversion := conv;
     _readBufs := None; _decodeBufs := None; _readThread := None;
     _decodeThreads := None; device_is_cpu := cpu; heap := h;
     threads := 0; reader_pos := 0 |}.

End Loader.

(** ** ReadThread *)

Module ReadThread.

(** [_done] of the thread pool and the position of the reader. *)
Record t := {
  _done : bool;
  reader_pos : nat;
}.

Inductive result := Returned | Thrown.

Definition thrown (r : result) : bool :=
  match r with Thrown => true | Returned => false end.

(** [ReadThread::produce], lines 325-331, once the pool is not full. *)
Definition produce {R : Reader} (rt : t) (out : BufferPool.t EncTuple)
  : t * BufferPool.t EncTuple * result :=
  match reader_read (reader_pos rt) with
  | None =>
      ({| _done := true; reader_pos := S (reader_pos rt) |}, out, Thrown)
  | Some bufs =>
      ({| _done := _done rt; reader_pos := S (reader_pos rt) |},
       BufferPool.advanceWritePos
         (BufferPool.store (BufferPool.writePos out) bufs out),
       Returned)
  end.

End ReadThread.

(** ** The pipeline: threads, steps and runs *)

Module Pipeline.

(** Where the manager thread stands in [manage], [consume] and [produce]. *)
Inductive mgr_pc :=
| MInit        (* manage: before [_device->init()] *)
| MIdle        (* consume: waiting for [_in] to be non-empty *)
| MHasInput    (* produce: holds the mutex of [_in], waits for [_out] *)
| MBarrier     (* produce: start signalled, waiting on [_ended] *)
| MDecoded     (* produce: past the barrier, before the device copy *)
| MCopied      (* produce: device written, before [advanceWritePos] *)
| MPublished   (* consume: [produce] returned, before [advanceReadPos] *)
| MStopped.    (* manage: [_managerStopped] set *)

(** Where a worker stands in [work]. *)
Inductive wrk_pc :=
| WWait                                     (* waiting on [_started] *)
| WStarted                                  (* start signal consumed *)
| WLoop (loc : DecodeThreadPool.WorkerLocals)         (* in the loop *)
| WDecoded.                             (* loop left, before [_ended] *)

(** Where the trainer stands: about to call [next], blocked in [next], or
    back from [next] and about to read the device. *)
Inductive trn_pc := TReady | TWaiting | TReturned.

#[export] Instance mgr_pc_eq_dec : EqDecision mgr_pc.
Proof. solve_decision. Defined.

Definition in_mutex_free (m : mgr_pc) : bool :=
  match m with
  | MInit | MIdle | MStopped => true
  | _ => false
  end.

Definition out_mutex_free (m : mgr_pc) : bool :=
  match m with
  | MBarrier | MDecoded | MCopied => false
  | _ => true
  end.

(** The state of a run.  [calls] and [observed] belong to the trainer (the
    loop of [multi] in thread_test.cpp): the number of calls of [next] that
    returned and what it read from the device after each.  [published] is
    a history variable: the number of minibatches published so far. *)
Record state := {
  readThread : ReadThread.t;
  readThrown : bool;
  readBufs : BufferPool.t EncTuple;
  decodeBufs : BufferPool.t BufferTuple;
  pool : DecodeThreadPool.Shared;
  manager : mgr_pc;
  workers : list wrk_pc;
  device : Device.t;
  first : bool;
  trainer : trn_pc;
  calls : nat;
  observed : list (list byte * list byte);
  published : nat;
}.

Definition set_readThread x s :=
  {| readThread := x; readThrown := readThrown s; readBufs := readBufs s;
     decodeBufs := decodeBufs s; pool := pool s; manager := manager s;
     workers := workers s; device := device s; first := first s;
     trainer := trainer s; calls := calls s; observed := observed s;
     published := published s |}.
Definition set_readThrown x s :=
  {| readThread := readThread s; readThrown := x; readBufs := readBufs s;
     decodeBufs := decodeBufs s; pool := pool s; manager := manager s;
     workers := workers s; device := device s; first := first s;
     trainer := trainer s; calls := calls s; observed := observed s;
     published := published s |}.
Definition set_readBufs x s :=
  {| readThread := readThread s; readThrown := readThrown s; readBufs := x;
     decodeBufs := decodeBufs s; pool := pool s; manager := manager s;
     workers := workers s; device := device s; first := first s;
     trainer := trainer s; calls := calls s; observed := observed s;
     published := published s |}.
Definition set_decodeBufs x s :=
  {| readThread := readThread s; readThrown := readThrown s;
     readBufs := readBufs s; decodeBufs := x; pool := pool s;
     manager := manager s; workers := workers s; device := device s;
     first := first s; trainer := trainer s; calls := calls s;
     observed := observed s; published := published s |}.
Definition set_pool x s :=
  {| readThread := readThread s; readThrown := readThrown s;
     readBufs := readBufs s; decodeBufs := decodeBufs s; pool := x;
     manager := manager s; workers := workers s; device := device s;
     first := first s; trainer := trainer s; calls := calls s;
     observed := observed s; published := published s |}.
Definition set_manager x s :=
  {| readThread := readThread s; readThrown := readThrown s;
     readBufs := readBufs s; decodeBufs := decodeBufs s; pool := pool s;
     manager := x; workers := workers s; device := device s;
     first := first s; trainer := trainer s; calls := calls s;
     observed := observed s; published := published s |}.
Definition set_workers x s :=
  {| readThread := readThread s; readThrown := readThrown s;
     readBufs := readBufs s; decodeBufs := decodeBufs s; pool := pool s;
     manager := manager s; workers := x; device := device s;
     first := first s; trainer := trainer s; calls := calls s;
     observed := observed s; published := published s |}.
Definition set_device x s :=
  {| readThread := readThread s; readThrown := readThrown s;
     readBufs := readBufs s; decodeBufs := decodeBufs s; pool := pool s;
     manager := manager s; workers := workers s; device := x;
     first := first s; trainer := trainer s; calls := calls s;
     observed := observed s; published := published s |}.
Definition set_first x s :=
  {| readThread := readThread s; readThrown := readThrown s;
     readBufs := readBufs s; decodeBufs := decodeBufs s; pool := pool s;
     manager := manager s; workers := workers s; device := device s;
     first := x; trainer := trainer s; calls := calls s;
     observed := observed s; published := published s |}.
Definition set_trainer x s :=
  {| readThread := readThread s; readThrown := readThrown s;
     readBufs := readBufs s; decodeBufs := decodeBufs s; pool := pool s;
     manager := manager s; workers := workers s; device := device s;
     first := first s; trainer := x; calls := calls s;
     observed := observed s; published := published s |}.
Definition set_calls x s :=
  {| readThread := readThread s; readThrown := readThrown s;
     readBufs := readBufs s; decodeBufs := decodeBufs s; pool := pool s;
     manager := manager s; workers := workers s; device := device s;
     first := first s; trainer := trainer s; calls := x;
     observed := observed s; published := published s |}.
Definition set_observed x s :=
  {| readThread := readThread s; readThrown := readThrown s;
     readBufs := readBufs s; decodeBufs := decodeBufs s; pool := pool s;
     manager := manager s; workers := workers s; device := device s;
     first := first s; trainer := trainer s; calls := calls s;
     observed := x; published := published s |}.
Definition set_published x s :=
  {| readThread := readThread s; readThrown := readThrown s;
     readBufs := readBufs s; decodeBufs := decodeBufs s; pool := pool s;
     manager := manager s; workers := workers s; device := device s;
     first := first s; trainer := trainer s; calls := calls s;
     observed := observed s; published := x |}.

(** [Loader::next()], lines 457-464: the part before the wait.  It
    yields the new [_first], the pool, and whether [nonFull] was
    signalled. *)
Definition next_enter (first : bool) (q : BufferPool.t BufferTuple)
  : bool * BufferPool.t BufferTuple * bool :=
  if first then (false, q, false)
  else (first, BufferPool.advanceReadPos q, true).

Inductive event :=
| EvRead (res : ReadThread.result)
| EvInit
| EvTake
| EvSignal
| EvReset
| EvCopy (slot : Z)
| EvPublish
| EvRelease
| EvStart (id : nat)
| EvSetup (id : nat)
| EvItem (id : nat) (i : Z)
| EvLoopExit (id : nat)
| EvEnd (id : nat)
| EvNext (signalled returned : bool)
| EvNextWake
| EvObserve (slot : Z).

Section steps.
Context {M : Media} {R : Reader}.
Variable p : DecodeThreadPool.Params.
Variable device_init : Z.

Import DecodeThreadPool.

(** One atomic step of one thread.  A wait on a condition variable is the
    guard of the step that follows it; a critical section is one step.
    These are the steps of the threads between [Loader::start] and the
    call of [Loader::stop]: until that call [_done] is unset in both
    stages, so that the return of line 160 is not taken, and [manage]
    alone sets [_stopManager].  The steps of a shutdown are added in
    module [Shutdown] below. *)
Inductive step : state -> event -> state -> Prop :=
(* ReadThread: the loop of [run] and [produce], lines 318-334 *)
| step_read s rt' out' res :
    ReadThread._done (readThread s) = false ->
    readThrown s = false ->
    in_mutex_free (manager s) = true ->
    BufferPool.full (readBufs s) = false ->
    ReadThread.produce (readThread s) (readBufs s) = (rt', out', res) ->
    step s (EvRead res)
      (set_readThrown (ReadThread.thrown res)
         (set_readBufs out' (set_readThread rt' s)))
(* manage, lines 263-266 *)
| step_init_ok s :
    manager s = MInit -> device_init = 0 ->
    step s EvInit (set_manager MIdle s)
| step_init_fail s :
    manager s = MInit -> device_init <> 0 ->
    step s EvInit (set_manager MStopped (set_pool (manager_abort (pool s)) s))
(* consume, lines 247-254 *)
| step_take s :
    manager s = MIdle -> _stopManager (pool s) = false ->
    BufferPool.empty (readBufs s) = false ->
    step s EvTake
      (set_manager MHasInput
         (set_pool (set_inputBuf (BufferPool.readPos (readBufs s)) (pool s))
            s))
(* produce, lines 209-219 *)
| step_signal s :
    manager s = MHasInput ->
    BufferPool.full (decodeBufs s) = false ->
    step s EvSignal
      (set_manager MBarrier (set_pool (signal_start (pool s)) s))
(* produce, lines 221-226 *)
| step_reset s :
    manager s = MBarrier ->
    barrier_open p (pool s) = true ->
    step s EvReset (set_manager MDecoded (set_pool (reset_end (pool s)) s))
(* produce, lines 228-237 *)
| step_copy s tup :
    manager s = MDecoded ->
    BufferPool.getForWrite (decodeBufs s) = Some tup ->
    let data' :=
      transpose (data tup) (batchSize p) (datumSize p) (datumTypeSize p) in
    let targets' :=
      transpose (targets tup) (batchSize p) (targetSize p)
                (targetTypeSize p) in
    let slot := _bufferIndex (pool s) in
    step s (EvCopy slot)
      (set_manager MCopied
         (set_device
            (Device.copyMeta slot (meta tup)
               (Device.copyLabels slot targets'
                  (Device.copyData slot data' (device s))))
            (set_decodeBufs
               (BufferPool.store (BufferPool.writePos (decodeBufs s))
                  {| data := data'; targets := targets'; meta := meta tup |}
                  (decodeBufs s))
               s)))
(* produce, lines 238-241 *)
| step_publish s :
    manager s = MCopied ->
    step s EvPublish
      (set_manager MPublished
         (set_published (S (published s))
            (set_decodeBufs (BufferPool.advanceWritePos (decodeBufs s))
               (set_pool (flip_bufferIndex (pool s)) s))))
(* consume, lines 256-258 *)
| step_release s :
    manager s = MPublished ->
    step s EvRelease
      (set_manager MIdle
         (set_readBufs (BufferPool.advanceReadPos (readBufs s)) s))
(* work, lines 157-166 *)
| step_start s id v :
    workers s !! id = Some WWait ->
    _startSignaled (pool s) !! id = Some v -> v <> 0 ->
    step s (EvStart id)
      (set_workers (<[id := WStarted]> (workers s))
         (set_pool (consume_start id (pool s)) s))
(* work, lines 168-178 *)
| step_setup s id src :
    workers s !! id = Some WStarted ->
    _inputBuf (pool s) = Some src ->
    step s (EvSetup id)
      (set_workers
         (<[id := WLoop (work_setup p (Z.of_nat id)
                           (BufferPool.writePos (decodeBufs s)) src)]>
            (workers s))
         s)
(* work, lines 180-196: one iteration *)
| step_item s id loc src dst dst' loc' :
    workers s !! id = Some (WLoop loc) ->
    w_i loc < w_end loc ->
    BufferPool.bufs (readBufs s) !! Z.to_nat (w_src loc) = Some src ->
    BufferPool.bufs (decodeBufs s) !! Z.to_nat (w_dst loc) = Some dst ->
    work_item p (Z.of_nat id) loc src dst = Some (dst', loc') ->
    step s (EvItem id (w_i loc))
      (set_workers (<[id := WLoop loc']> (workers s))
         (set_decodeBufs (BufferPool.store (w_dst loc) dst' (decodeBufs s))
            s))
(* work, line 180: the loop condition fails *)
| step_loop_exit s id loc :
    workers s !! id = Some (WLoop loc) ->
    ~ w_i loc < w_end loc ->
    step s (EvLoopExit id) (set_workers (<[id := WDecoded]> (workers s)) s)
(* work, lines 198-203 *)
| step_end s id :
    workers s !! id = Some WDecoded ->
    step s (EvEnd id)
      (set_workers (<[id := WWait]> (workers s))
         (set_pool (signal_end (pool s)) s))
(* Loader::next, lines 457-468, up to its return or its first wait *)
| step_next s first' out' signalled :
    trainer s = TReady ->
    out_mutex_free (manager s) = true ->
    next_enter (first s) (decodeBufs s) = (first', out', signalled) ->
    step s (EvNext signalled (negb (BufferPool.empty out')))
      (if BufferPool.empty out'
       then set_trainer TWaiting (set_decodeBufs out' (set_first first' s))
       else set_trainer TReturned
              (set_calls (S (calls s))
                 (set_decodeBufs out' (set_first first' s))))
(* Loader::next, lines 465-467: woken with the pool non-empty *)
| step_next_wake s :
    trainer s = TWaiting ->
    out_mutex_free (manager s) = true ->
    BufferPool.empty (decodeBufs s) = false ->
    step s EvNextWake (set_trainer TReturned (set_calls (S (calls s)) s))
(* multi, thread_test.cpp lines 82-84: the trainer reads the device *)
| step_observe s :
    trainer s = TReturned ->
    let bufIdx := Z.of_nat (calls s - 1) `rem` 2 in
    step s (EvObserve bufIdx)
      (set_trainer TReady
         (set_observed
            (observed s ++ [(Device.copyDataBack bufIdx (device s),
                             Device.copyLabelsBack bufIdx (device s))])
            s)).

(** The same steps as a function: the state an event leads to, when the
    event is enabled.  It serves to run the pipeline on concrete inputs. *)
Definition fire (ev : event) (s : state) : option state :=
  match ev with
  | EvRead res =>
      if negb (ReadThread._done (readThread s)) && negb (readThrown s)
         && in_mutex_free (manager s) && negb (BufferPool.full (readBufs s))
      then
        let '(rt', out', res') :=
          ReadThread.produce (readThread s) (readBufs s) in
        if Bool.eqb (ReadThread.thrown res) (ReadThread.thrown res')
        then Some (set_readThrown (ReadThread.thrown res')
                     (set_readBufs out' (set_readThread rt' s)))
        else None
      else None
  | EvInit =>
      match manager s with
      | MInit =>
          if decide (device_init = 0) then Some (set_manager MIdle s)
          else Some (set_manager MStopped
                       (set_pool (manager_abort (pool s)) s))
      | _ => None
      end
  | EvTake =>
      match manager s with
      | MIdle =>
          if negb (_stopManager (pool s))
             && negb (BufferPool.empty (readBufs s))
          then Some (set_manager MHasInput
                       (set_pool (set_inputBuf
                                    (BufferPool.readPos (readBufs s))
                                    (pool s)) s))
          else None
      | _ => None
      end
  | EvSignal =>
      match manager s with
      | MHasInput =>
          if negb (BufferPool.full (decodeBufs s))
          then Some (set_manager MBarrier
                       (set_pool (signal_start (pool s)) s))
          else None
      | _ => None
      end
  | EvReset =>
      match manager s with
      | MBarrier =>
          if barrier_open p (pool s)
          then Some (set_manager MDecoded (set_pool (reset_end (pool s)) s))
          else None
      | _ => None
      end
  | EvCopy slot =>
      match manager s, BufferPool.getForWrite (decodeBufs s) with
      | MDecoded, Some tup =>
          if decide (slot = _bufferIndex (pool s)) then
            let data' :=
              transpose (data tup) (batchSize p) (datumSize p)
                        (datumTypeSize p) in
            let targets' :=
              transpose (targets tup) (batchSize p) (targetSize p)
                        (targetTypeSize p) in
            Some (set_manager MCopied
                    (set_device
                       (Device.copyMeta slot (meta tup)
                          (Device.copyLabels slot targets'
                             (Device.copyData slot data' (device s))))
                       (set_decodeBufs
                          (BufferPool.store
                             (BufferPool.writePos (decodeBufs s))
                             {| data := data'; targets := targets';
                                meta := meta tup |}
                             (decodeBufs s))
                          s)))
          else None
      | _, _ => None
      end
  | EvPublish =>
      match manager s with
      | MCopied =>
          Some (set_manager MPublished
                  (set_published (S (published s))
                     (set_decodeBufs
                        (BufferPool.advanceWritePos (decodeBufs s))
                        (set_pool (flip_bufferIndex (pool s)) s))))
      | _ => None
      end
  | EvRelease =>
      match manager s with
      | MPublished =>
          Some (set_manager MIdle
                  (set_readBufs (BufferPool.advanceReadPos (readBufs s)) s))
      | _ => None
      end
  | EvStart id =>
      match workers s !! id, _startSignaled (pool s) !! id with
      | Some WWait, Some v =>
          if decide (v = 0) then None
          else Some (set_workers (<[id := WStarted]> (workers s))
                       (set_pool (consume_start id (pool s)) s))
      | _, _ => None
      end
  | EvSetup id =>
      match workers s !! id, _inputBuf (pool s) with
      | Some WStarted, Some src =>
          Some (set_workers
                  (<[id := WLoop (work_setup p (Z.of_nat id)
                                    (BufferPool.writePos (decodeBufs s))
                                    src)]>
                     (workers s))
                  s)
      | _, _ => None
      end
  | EvItem id i =>
      match workers s !! id with
      | Some (WLoop loc) =>
          if decide (w_i loc < w_end loc /\ i = w_i loc) then
            match BufferPool.bufs (readBufs s) !! Z.to_nat (w_src loc),
                  BufferPool.bufs (decodeBufs s) !! Z.to_nat (w_dst loc) with
            | Some src, Some dst =>
                match work_item p (Z.of_nat id) loc src dst with
                | Some (dst', loc') =>
                    Some (set_workers (<[id := WLoop loc']> (workers s))
                            (set_decodeBufs
                               (BufferPool.store (w_dst loc) dst'
                                  (decodeBufs s))
                               s))
                | None => None
                end
            | _, _ => None
            end
          else None
      | _ => None
      end
  | EvLoopExit id =>
      match workers s !! id with
      | Some (WLoop loc) =>
          if decide (w_i loc < w_end loc) then None
          else Some (set_workers (<[id := WDecoded]> (workers s)) s)
      | _ => None
      end
  | EvEnd id =>
      match workers s !! id with
      | Some WDecoded =>
          Some (set_workers (<[id := WWait]> (workers s))
                  (set_pool (signal_end (pool s)) s))
      | _ => None
      end
  | EvNext signalled returned =>
      match trainer s with
      | TReady =>
          if out_mutex_free (manager s) then
            let '(first', out', signalled') :=
              next_enter (first s) (decodeBufs s) in
            if Bool.eqb signalled signalled'
               && Bool.eqb returned (negb (BufferPool.empty out'))
            then Some (if BufferPool.empty out'
                       then set_trainer TWaiting
                              (set_decodeBufs out' (set_first first' s))
                       else set_trainer TReturned
                              (set_calls (S (calls s))
                                 (set_decodeBufs out' (set_first first' s))))
            else None
          else None
      | _ => None
      end
  | EvNextWake =>
      match trainer s with
      | TWaiting =>
          if out_mutex_free (manager s)
             && negb (BufferPool.empty (decodeBufs s))
          then Some (set_trainer TReturned (set_calls (S (calls s)) s))
          else None
      | _ => None
      end
  | EvObserve slot =>
      match trainer s with
      | TReturned =>
          let bufIdx := Z.of_nat (calls s - 1) `rem` 2 in
          if decide (slot = bufIdx) then
            Some (set_trainer TReady
                    (set_observed
                       (observed s
                        ++ [(Device.copyDataBack bufIdx (device s),
                             Device.copyLabelsBack bufIdx (device s))])
                       s))
          else None
      | _ => None
      end
  end.

Fixpoint run (tr : list event) (s : state) : option state :=
  match tr with
  | [] => Some s
  | ev :: tr =>
      match fire ev s with
      | Some s' => run tr s'
      | None => None
      end
  end.

(** Runs: finite sequences of steps, with the events they perform. *)
Inductive exec : state -> list event -> state -> Prop :=
| exec_nil s : exec s [] s
| exec_snoc s tr s' ev s'' :
    exec s tr s' -> step s' ev s'' -> exec s (tr ++ [ev]) s''.

(** The pipeline as [Loader::start] leaves it: a read pool of [nread]
    slots, a decode pool of [ndecode] slots whose buffers have the sizes
    computed at lines 384-386, the decode pool object, and no thread past
    its first instruction. *)
Definition init (nread ndecode : Z) : state :=
  {| readThread := {| ReadThread._done := false; ReadThread.reader_pos := 0 |};
     readThrown := false;
     readBufs :=
       BufferPool.create nread {| enc_data := []; enc_targets := [] |};
     decodeBufs :=
       BufferPool.create ndecode
         {| data := replicate (Z.to_nat (batchSize p * datumSize p
                                         * datumTypeSize p)) x00;
            targets := replicate (Z.to_nat (batchSize p * targetSize p
                                            * targetTypeSize p)) x00;
            meta := replicate (Z.to_nat (2 * batchSize p)) 0 |};
     pool := DecodeThreadPool.create p;
     manager := MInit;
     workers := replicate (Z.to_nat (count p)) WWait;
     device := Device.create;
     first := true;
     trainer := TReady;
     calls := 0;
     observed := [];
     published := 0 |}.

End steps.

(** A configuration, a reader and a transformer for concrete runs: two
    workers, minibatches of two items of one byte each; the [k]-th
    minibatch holds the bytes [2k] and [2k + 1]; the transformer copies
    the encoded datum into the region it is given. *)
Definition demo_params : DecodeThreadPool.Params := {|
  DecodeThreadPool.count := 2; DecodeThreadPool.batchSize := 2;
  DecodeThreadPool.datumSize := 1; DecodeThreadPool.datumTypeSize := 1;
  DecodeThreadPool.targetSize := 1; DecodeThreadPool.targetTypeSize := 1;
  DecodeThreadPool.targetConversion := 0;
  DecodeThreadPool.READ_CONTENTS := 3;
|}.

Definition byte_of (n : nat) : byte := default x00 (Byte.of_nat n).

Definition demo_reader : Reader := {|
  reader_read k :=
    Some {| enc_data := [[byte_of (2 * k)]; [byte_of (2 * k + 1)]];
            enc_targets := [[byte_of (2 * k)]; [byte_of (2 * k + 1)]] |}
|}.

Definition pad (cap : Z) (x : list byte) : list byte :=
  take (Z.to_nat cap) x ++ replicate (Z.to_nat cap - length x) x00.

Definition echo_media : Media := {|
  media_transform _ enc len cap := (pad cap enc, len);
  media_transform_joint _ enc _ tgt _ dcap tcap := (pad dcap enc, pad tcap tgt);
|}.

(** One pass of the pipeline over a minibatch, the two workers
    interleaved, and a run of two passes. *)
Definition demo_pass (released : bool) (slot : Z) : list event :=
  [EvNext released false; EvRead ReadThread.Returned; EvTake; EvSignal;
   EvStart 1; EvStart 0; EvSetup 0; EvSetup 1;
   EvItem 1 1; EvItem 0 0; EvLoopExit 0; EvEnd 0; EvLoopExit 1; EvEnd 1;
   EvReset; EvCopy slot; EvPublish; EvRelease; EvNextWake; EvObserve slot].

Definition demo_run : list event :=
  EvInit :: demo_pass false 0 ++ demo_pass true 1.

(** The first pass up to the return of the first call of [next], before
    the trainer reads the device. *)
Definition demo_first_return : list event :=
  [EvInit; EvNext false false; EvRead ReadThread.Returned; EvTake; EvSignal;
   EvStart 1; EvStart 0; EvSetup 0; EvSetup 1;
   EvItem 1 1; EvItem 0 0; EvLoopExit 0; EvEnd 0; EvLoopExit 1; EvEnd 1;
   EvReset; EvCopy 0; EvPublish; EvRelease; EvNextWake].

(** A reader whose every call fails, and one that always delivers the
    same minibatch of one item, for concrete runs. *)
Definition failing_reader : Reader := {| reader_read _ := None |}.

Definition constant_reader : Reader :=
  {| reader_read _ :=
       Some {| enc_data := [[x07]]; enc_targets := [[x05]] |} |}.

End Pipeline.

(** ** Assumptions on the configuration and on the transformer *)

(** The configuration the pipeline is started with: a batch of at least
    one item, at least one worker, the assertions of the constructor of
    the decode pool, sizes that are not negative, a read pool of at least
    one slot and a decode pool of one or two slots. *)
Record config_ok (p : DecodeThreadPool.Params) (nread ndecode : Z) : Prop := {
  cfg_batch : 1 <= DecodeThreadPool.batchSize p;
  cfg_count : 1 <= DecodeThreadPool.count p;
  cfg_asserts :
    DecodeThreadPool.ctor_asserts (DecodeThreadPool.batchSize p)
                                  (DecodeThreadPool.count p);
  cfg_datumSize : 0 <= DecodeThreadPool.datumSize p;
  cfg_datumTypeSize : 0 <= DecodeThreadPool.datumTypeSize p;
  cfg_targetSize : 0 <= DecodeThreadPool.targetSize p;
  cfg_targetTypeSize : 0 <= DecodeThreadPool.targetTypeSize p;
  cfg_nread : 1 <= nread;
  cfg_ndecode : 1 <= ndecode <= 2;
}.

(** The sizes of the configuration fit in an [int]: the products of lines
    50-51 and 384-386, from which the buffers are sized and the workers
    compute their offsets (lines 115-116), are in range. *)
Definition config_fits (p : DecodeThreadPool.Params) : Prop :=
  Loader.sizes_ok (DecodeThreadPool.batchSize p)
    (DecodeThreadPool.datumSize p) (DecodeThreadPool.datumTypeSize p)
    (DecodeThreadPool.targetSize p) (DecodeThreadPool.targetTypeSize p).

(** The transformer fills the whole region it is given, and the
    transformers of the workers are interchangeable: each decodes as the
    one of worker 0 does. *)
Record media_ok {M : Media} (p : DecodeThreadPool.Params) : Prop := {
  media_fills : forall id enc len,
    length (media_transform id enc len (DecodeThreadPool.datumLen p)).1
    = Z.to_nat (DecodeThreadPool.datumLen p);
  media_joint_fills : forall id enc len tgt tlen,
    let r := media_transform_joint id enc len tgt tlen
               (DecodeThreadPool.datumLen p) (DecodeThreadPool.targetLen p) in
    length r.1 = Z.to_nat (DecodeThreadPool.datumLen p) /\
    length r.2 = Z.to_nat (DecodeThreadPool.targetLen p);
  media_uniform : forall id enc len cap,
    (media_transform id enc len cap).1 = (media_transform 0 enc len cap).1;
  media_joint_uniform : forall id enc len tgt tlen dcap tcap,
    media_transform_joint id enc len tgt tlen dcap tcap
    = media_transform_joint 0 enc len tgt tlen dcap tcap;
}.

(** ** Invariants of the pipeline *)

Module Invariant.
Section invariant.
Context {M : Media} {R : Reader}.
Variable p : DecodeThreadPool.Params.
Variables nread ndecode : Z.

Import DecodeThreadPool Pipeline.

(** The minibatch of the [j]-th call of [read]. *)
Definition batch_of (j : nat) : EncTuple :=
  default {| enc_data := []; enc_targets := [] |} (reader_read j).

(** Counters read off a state: the reads that succeeded, the minibatches
    the manager has taken out of the read pool, and those the trainer has
    given back to the decode pool. *)
Definition reads_ok (s : state) : nat :=
  (ReadThread.reader_pos (readThread s)
   - (if readThrown s then 1 else 0))%nat.

Definition consumed (s : state) : nat :=
  (published s - match manager s with MPublished => 1 | _ => 0 end)%nat.

Definition released (s : state) : nat :=
  match trainer s with
  | TWaiting => calls s
  | _ => (calls s - 1)%nat
  end.

(** A worker has finished its round when it waits with its start signal
    consumed. *)
Definition fin (w : wrk_pc) (v : Z) : Z :=
  match w with
  | WWait => if decide (v = 0) then 1 else 0
  | _ => 0
  end.

Fixpoint finished (ws : list wrk_pc) (ss : list Z) : Z :=
  match ws, ss with
  | w :: ws, v :: ss => fin w v + finished ws ss
  | _, _ => 0
  end.

Record barrier_inv (s : state) : Prop := {
  bi_workers : length (workers s) = Z.to_nat (count p);
  bi_signals : length (_startSignaled (pool s)) = Z.to_nat (count p);
  bi_round : forall id w v,
    workers s !! id = Some w -> _startSignaled (pool s) !! id = Some v ->
    if decide (manager s = MBarrier)
    then (w = WWait /\ (v = 0 \/ v = 1)) \/ (w <> WWait /\ v = 0)
    else w = WWait /\ v = 0;
  bi_end :
    _endSignaled (pool s) =
    if decide (manager s = MBarrier)
    then finished (workers s) (_startSignaled (pool s)) else 0;
}.

(** Item [j] of the destination tuple holds the decoded item [j] of the
    encoded minibatch. *)
Definition item_ok (src : EncTuple) (dst : BufferTuple) (j : Z) : Prop :=
  slice (data dst) (j * datumLen p) (datumLen p) = (decode_item p src j).1 /\
  slice (targets dst) (j * targetLen p) (targetLen p)
    = (decode_item p src j).2.

(** The bound below which the items of a worker are decoded. *)
Definition items_done (id : Z) (w : wrk_pc) (v : Z) : Z :=
  match w with
  | WWait => if decide (v = 0) then endInd (batchSize p) (count p) id
             else startInd (batchSize p) (count p) id
  | WStarted => startInd (batchSize p) (count p) id
  | WLoop loc => w_i loc
  | WDecoded => endInd (batchSize p) (count p) id
  end.

Definition locals_ok (s : state) (id : Z) (w : wrk_pc) : Prop :=
  match w with
  | WLoop loc =>
      w_dst loc = BufferPool.writePos (decodeBufs s) /\
      w_src loc = BufferPool.readPos (readBufs s) /\
      w_end loc = endInd (batchSize p) (count p) id /\
      startInd (batchSize p) (count p) id <= w_i loc /\
      w_datumBuf loc = w_i loc * datumLen p /\
      w_targetBuf loc = w_i loc * targetLen p /\
      w_metaBuf loc = w_i loc
  | _ => True
  end.

Definition slot_holds (d : Device.t) (slot : Z) (src : EncTuple) : Prop :=
  exists tup, d !! Z.to_nat slot = Some tup /\
    (data tup, targets tup) = device_image p src.

Definition sized (tup : BufferTuple) : Prop :=
  Z.of_nat (length (data tup)) = batchSize p * datumLen p /\
  Z.of_nat (length (targets tup)) = batchSize p * targetLen p.

(** Within a round: the locals of the workers in their loop are those
    [work] computes, and the items below each worker's bound are decoded in
    the write slot. *)
Definition round_ok (s : state) : Prop :=
  forall (id : nat) w v,
    workers s !! id = Some w -> _startSignaled (pool s) !! id = Some v ->
    locals_ok s (Z.of_nat id) w /\
    forall j,
      startInd (batchSize p) (count p) (Z.of_nat id) <= j
        < endInd (batchSize p) (count p) (Z.of_nat id) ->
      j < items_done (Z.of_nat id) w v ->
      exists dst, BufferPool.getForWrite (decodeBufs s) = Some dst /\
                  item_ok (batch_of (published s)) dst j.

Record pipeline_inv (s : state) : Prop := {
  (* read pool *)
  pi_in_count : BufferPool.count (readBufs s) = nread;
  pi_in_len : length (BufferPool.bufs (readBufs s)) = Z.to_nat nread;
  pi_in_used :
    BufferPool.used (readBufs s)
    = Z.of_nat (reads_ok s) - Z.of_nat (consumed s);
  pi_in_bound : 0 <= BufferPool.used (readBufs s) <= nread;
  pi_in_read :
    BufferPool.readPos (readBufs s) = Z.of_nat (consumed s) `mod` nread;
  pi_in_write :
    BufferPool.writePos (readBufs s) = Z.of_nat (reads_ok s) `mod` nread;
  pi_in_fifo : forall j : nat,
    (consumed s <= j < reads_ok s)%nat ->
    BufferPool.bufs (readBufs s) !! Z.to_nat (Z.of_nat j `mod` nread)
    = Some (batch_of j);
  pi_in_taken :
    in_mutex_free (manager s) = false ->
    (consumed s < reads_ok s)%nat /\
    (manager s <> MPublished ->
     _inputBuf (pool s) = Some (BufferPool.readPos (readBufs s)));
  pi_thrown : readThrown s = true -> ReadThread._done (readThread s) = true;
  (* decode pool *)
  pi_out_count : BufferPool.count (decodeBufs s) = ndecode;
  pi_out_len : length (BufferPool.bufs (decodeBufs s)) = Z.to_nat ndecode;
  pi_out_write : 0 <= BufferPool.writePos (decodeBufs s) < ndecode;
  pi_out_used :
    BufferPool.used (decodeBufs s)
    = Z.of_nat (published s) - Z.of_nat (released s);
  pi_out_bound : 0 <= BufferPool.used (decodeBufs s) <= ndecode;
  pi_out_room :
    out_mutex_free (manager s) = false ->
    BufferPool.used (decodeBufs s) < ndecode;
  pi_out_sized : forall tup, tup ∈ BufferPool.bufs (decodeBufs s) -> sized tup;
  pi_published : manager s = MPublished -> (1 <= published s)%nat;
  pi_index : _bufferIndex (pool s) = Z.of_nat (published s) `mod` 2;
  (* trainer *)
  pi_first : first s = true <-> calls s = 0%nat /\ trainer s = TReady;
  pi_returned : trainer s = TReturned -> (1 <= calls s)%nat;
  pi_held :
    trainer s <> TWaiting -> (1 <= calls s)%nat ->
    (released s < published s)%nat;
  (* device *)
  pi_dev_len : length (device s) = 2%nat;
  pi_dev_slots : forall j : nat,
    (released s <= j < published s)%nat ->
    slot_holds (device s) (Z.of_nat j `mod` 2) (batch_of j);
  pi_dev_copied :
    manager s = MCopied ->
    slot_holds (device s) (_bufferIndex (pool s)) (batch_of (published s));
  pi_observed :
    observed s =
    (fun j => device_image p (batch_of j))
      <$> seq 0 (calls s - match trainer s with
                           | TReturned => 1
                           | _ => 0
                           end);
  (* decode round *)
  pi_round : manager s = MBarrier -> round_ok s;
  pi_decoded :
    manager s = MDecoded ->
    exists dst, BufferPool.getForWrite (decodeBufs s) = Some dst /\
                (data dst, targets dst)
                = single_decode p (batch_of (published s));
}.

(** Two states that differ only by the moves of one worker. *)
Definition same_stage (s s' : state) : Prop :=
  manager s' = manager s /\ trainer s' = trainer s /\ calls s' = calls s /\
  published s' = published s /\ readThread s' = readThread s /\
  readThrown s' = readThrown s /\
  _stopManager (pool s') = _stopManager (pool s).

(** The manager has published one more minibatch and the trainer has not
    moved. *)
Definition publishes (s s' : state) : Prop :=
  manager s' = MPublished /\ published s' = S (published s) /\
  trainer s' = trainer s /\ calls s' = calls s.

Definition others_same (id : nat) (s s' : state) : Prop :=
  forall k, k <> id ->
    workers s' !! k = workers s !! k /\
    _startSignaled (pool s') !! k = _startSignaled (pool s) !! k.

(** The reader never fails and every minibatch it delivers has
    [batchSize] data items. *)
Definition reader_ok : Prop :=
  forall k, exists b,
    reader_read k = Some b /\
    batchSize p <= Z.of_nat (length (enc_data b)).

End invariant.
End Invariant.

(** ** Loader: draining the decode pool *)

Module LoaderOps.

(** [Loader::drain], lines 479-488: a decode pool that is not empty gives
    up its oldest slot. *)
Definition drain (q : BufferPool.t BufferTuple) : BufferPool.t BufferTuple :=
  if BufferPool.empty q then q else BufferPool.advanceReadPos q.

End LoaderOps.

(** ** Shutdown: [Loader::stop] and [DecodeThreadPool::stop] *)

(** The steps of [Pipeline] are those of the threads between
    [Loader::start] and the call of [Loader::stop]: until then [_done] is
    unset in both stages, so that the test of line 160 never succeeds, and
    [_stopManager] is set by [manage] alone.  This module adds the steps of
    a shutdown: those of the trainer's thread inside [Loader::stop] and
    [DecodeThreadPool::stop], and the exits of the other threads.  Every
    step is a step of the code; after the call of [stop] the steps listed
    here are some of the interleavings, enough to run a shutdown to its
    end, not all of them. *)
Module Shutdown.

Import DecodeThreadPool Pipeline.

(** Where the trainer's thread stands in [Loader::stop] and in the
    [DecodeThreadPool::stop] it calls. *)
Inductive stop_pc :=
| SNotCalled   (* [Loader::stop] has not been called *)
| SReadStop    (* Loader::stop: the loop of lines 411-414 *)
| SDrain       (* Loader::stop: the loop of lines 415-418 *)
| SWorkers     (* DecodeThreadPool::stop: the loop of lines 89-93 *)
| SManager     (* DecodeThreadPool::stop: the loop of lines 96-102 *)
| SReturned.   (* DecodeThreadPool::stop has returned *)

#[export] Instance stop_pc_eq_dec : EqDecision stop_pc.
Proof. solve_decision. Defined.

(** The state of a run with its shutdown: the pipeline, the trainer's
    place in [stop], the flag [_stopped[0]] of the read stage, and [_done]
    and [_stopped] of the decode stage. *)
Record state := {
  base : Pipeline.state;
  stopper : stop_pc;
  read_stopped : bool;
  _done : bool;
  _stopped : list bool;
}.

Definition set_base x s :=
  {| base := x; stopper := stopper s; read_stopped := read_stopped s;
     _done := _done s; _stopped := _stopped s |}.
Definition set_stopper x s :=
  {| base := base s; stopper := x; read_stopped := read_stopped s;
     _done := _done s; _stopped := _stopped s |}.
Definition set_read_stopped x s :=
  {| base := base s; stopper := stopper s; read_stopped := x;
     _done := _done s; _stopped := _stopped s |}.
Definition set_done x s :=
  {| base := base s; stopper := stopper s; read_stopped := read_stopped s;
     _done := x; _stopped := _stopped s |}.
Definition set_stopped x s :=
  {| base := base s; stopper := stopper s; read_stopped := read_stopped s;
     _done := _done s; _stopped := x |}.

(** Modelled from the spec: [ThreadPool::stop] (the base class is not part
    of the sources at hand), "setting done causes workers to exit": it
    sets [_done] of the pool it is called on. *)
Definition request_stop (rt : ReadThread.t) : ReadThread.t :=
  {| ReadThread._done := true;
     ReadThread.reader_pos := ReadThread.reader_pos rt |}.

(** Modelled from the spec: [ThreadPool::stopped] (not part of the sources
    at hand), "the stop procedure loops signalling and yielding until all
    stopped-flags go true": every thread of the pool has set its flag, as
    [run] does at line 122. *)
Definition stopped (flags : list bool) : bool := forallb id flags.

(** [DecodeThreadPool::stop], line 95, and [manage], line 270. *)
Definition set_stopManager (sh : Shared) : Shared :=
  {| _startSignaled := _startSignaled sh; _endSignaled := _endSignaled sh;
     _stopManager := true; _managerStopped := _managerStopped sh;
     _inputBuf := _inputBuf sh; _bufferIndex := _bufferIndex sh |}.

Definition set_managerStopped (sh : Shared) : Shared :=
  {| _startSignaled := _startSignaled sh; _endSignaled := _endSignaled sh;
     _stopManager := _stopManager sh; _managerStopped := true;
     _inputBuf := _inputBuf sh; _bufferIndex := _bufferIndex sh |}.

(** [DecodeThreadPool::stop], lines 91 and 98: [_in.advanceWritePos()],
    with no test of whether the read pool is full. *)
Definition kick_in (b : Pipeline.state) : Pipeline.state :=
  set_readBufs (BufferPool.advanceWritePos (readBufs b)) b.

(** [DecodeThreadPool::stop], lines 98-100: the body of the second loop
    also raises the completion counter, without taking [_mutex]. *)
Definition kick_end (b : Pipeline.state) : Pipeline.state :=
  set_pool (signal_end (pool b)) (kick_in b).

Inductive event :=
| Run (ev : Pipeline.event)
| EvStop
| EvReadExit
| EvDrain
| EvReadStopped
| EvStopDecode
| EvKickWorkers
| EvWorkerExit (id : nat)
| EvStopManager
| EvKickManager
| EvManagerExit
| EvStopReturn.

(** The steps of the pipeline that can still be taken.  The trainer's
    thread is inside [stop] once it has called it, so it makes no call of
    [next] and reads no slot.  A worker woken from its wait with [_done]
    set returns at line 161 instead of consuming its start signal. *)
Definition allowed (ev : Pipeline.event) (s : state) : bool :=
  match ev with
  | EvNext _ _ | EvNextWake | EvObserve _ =>
      bool_decide (stopper s = SNotCalled)
  | EvStart _ => negb (_done s)
  | _ => true
  end.

Section steps.
Context {M : Media} {R : Reader}.
Variable p : DecodeThreadPool.Params.
Variable device_init : Z.

Inductive step : state -> event -> state -> Prop :=
(* a step of the pipeline *)
| step_run s ev b' :
    Pipeline.step p device_init (base s) ev b' ->
    allowed ev s = true ->
    step s (Run ev) (set_base b' s)
(* Loader::stop, line 410: the trainer, outside [next], asks the read
   stage to stop *)
| step_stop s :
    stopper s = SNotCalled ->
    trainer (base s) <> TWaiting ->
    step s EvStop
      (set_stopper SReadStop
         (set_base
            (set_readThread (request_stop (readThread (base s))) (base s))
            s))
(* the read thread, asked to stop, finds [_done] set at the head of its
   loop and sets its flag *)
| step_read_exit s :
    stopper s <> SNotCalled ->
    ReadThread._done (readThread (base s)) = true ->
    readThrown (base s) = false ->
    read_stopped s = false ->
    step s EvReadExit (set_read_stopped true s)
(* Loader::stop, lines 411-418: one call of [drain] from either loop *)
| step_drain s :
    (stopper s = SReadStop /\ read_stopped s = false) \/
    (stopper s = SDrain /\
     (BufferPool.empty (decodeBufs (base s)) = false \/
      BufferPool.empty (readBufs (base s)) = false)) ->
    out_mutex_free (manager (base s)) = true ->
    step s EvDrain
      (set_base
         (set_decodeBufs (LoaderOps.drain (decodeBufs (base s))) (base s))
         s)
(* Loader::stop, line 411: the read stage has stopped *)
| step_read_stopped s :
    stopper s = SReadStop ->
    read_stopped s = true ->
    step s EvReadStopped (set_stopper SDrain s)
(* Loader::stop, lines 415-419, and DecodeThreadPool::stop, line 88: both
   pools are empty and the decode stage is asked to stop *)
| step_stop_decode s :
    stopper s = SDrain ->
    BufferPool.empty (decodeBufs (base s)) = true ->
    BufferPool.empty (readBufs (base s)) = true ->
    step s EvStopDecode (set_stopper SWorkers (set_done true s))
(* DecodeThreadPool::stop, lines 89-92 *)
| step_kick_workers s :
    stopper s = SWorkers ->
    stopped (_stopped s) = false ->
    step s EvKickWorkers (set_base (kick_in (base s)) s)
(* work, lines 158-162, and run, lines 118-122: a worker that waits finds
   [_done] set, leaves without touching its start signal and sets its
   flag *)
| step_worker_exit s id :
    workers (base s) !! id = Some WWait ->
    _done s = true ->
    _stopped s !! id = Some false ->
    step s (EvWorkerExit id) (set_stopped (<[id := true]> (_stopped s)) s)
(* DecodeThreadPool::stop, lines 89 and 95: every worker has stopped *)
| step_stop_manager s :
    stopper s = SWorkers ->
    stopped (_stopped s) = true ->
    step s EvStopManager
      (set_stopper SManager
         (set_base (set_pool (set_stopManager (pool (base s))) (base s)) s))
(* DecodeThreadPool::stop, lines 96-101 *)
| step_kick_manager s :
    stopper s = SManager ->
    _managerStopped (pool (base s)) = false ->
    step s EvKickManager (set_base (kick_end (base s)) s)
(* consume, lines 248-252, and manage, lines 267-270: the manager, between
   two minibatches, finds [_stopManager] set *)
| step_manager_exit s :
    manager (base s) = MIdle ->
    _stopManager (pool (base s)) = true ->
    step s EvManagerExit
      (set_base
         (set_manager MStopped
            (set_pool (set_managerStopped (pool (base s))) (base s)))
         s)
(* DecodeThreadPool::stop, line 96: the manager has stopped *)
| step_stop_return s :
    stopper s = SManager ->
    _managerStopped (pool (base s)) = true ->
    step s EvStopReturn (set_stopper SReturned s).

(** The same steps as a function, to run a shutdown on concrete inputs. *)
Definition fire (ev : event) (s : state) : option state :=
  let b := base s in
  match ev with
  | Run e =>
      if allowed e s
      then (fun b' => set_base b' s) <$> Pipeline.fire p device_init e b
      else None
  | EvStop =>
      match stopper s, trainer b with
      | SNotCalled, (TReady | TReturned) =>
          Some (set_stopper SReadStop
                  (set_base (set_readThread (request_stop (readThread b)) b)
                     s))
      | _, _ => None
      end
  | EvReadExit =>
      if negb (bool_decide (stopper s = SNotCalled))
         && ReadThread._done (readThread b) && negb (readThrown b)
         && negb (read_stopped s)
      then Some (set_read_stopped true s)
      else None
  | EvDrain =>
      if (bool_decide (stopper s = SReadStop) && negb (read_stopped s)
          || bool_decide (stopper s = SDrain)
             && (negb (BufferPool.empty (decodeBufs b))
                 || negb (BufferPool.empty (readBufs b))))
         && out_mutex_free (manager b)
      then Some (set_base (set_decodeBufs (LoaderOps.drain (decodeBufs b)) b)
                   s)
      else None
  | EvReadStopped =>
      if bool_decide (stopper s = SReadStop) && read_stopped s
      then Some (set_stopper SDrain s)
      else None
  | EvStopDecode =>
      if bool_decide (stopper s = SDrain)
         && BufferPool.empty (decodeBufs b) && BufferPool.empty (readBufs b)
      then Some (set_stopper SWorkers (set_done true s))
      else None
  | EvKickWorkers =>
      if bool_decide (stopper s = SWorkers) && negb (stopped (_stopped s))
      then Some (set_base (kick_in b) s)
      else None
  | EvWorkerExit id =>
      match workers b !! id, _stopped s !! id with
      | Some WWait, Some false =>
          if _done s
          then Some (set_stopped (<[id := true]> (_stopped s)) s)
          else None
      | _, _ => None
      end
  | EvStopManager =>
      if bool_decide (stopper s = SWorkers) && stopped (_stopped s)
      then Some (set_stopper SManager
                   (set_base (set_pool (set_stopManager (pool b)) b) s))
      else None
  | EvKickManager =>
      if bool_decide (stopper s = SManager)
         && negb (_managerStopped (pool b))
      then Some (set_base (kick_end b) s)
      else None
  | EvManagerExit =>
      match manager b with
      | MIdle =>
          if _stopManager (pool b)
          then Some (set_base
                       (set_manager MStopped
                          (set_pool (set_managerStopped (pool b)) b))
                       s)
          else None
      | _ => None
      end
  | EvStopReturn =>
      if bool_decide (stopper s = SManager) && _managerStopped (pool b)
      then Some (set_stopper SReturned s)
      else None
  end.

Fixpoint run (tr : list event) (s : state) : option state :=
  match tr with
  | [] => Some s
  | ev :: tr =>
      match fire ev s with
      | Some s' => run tr s'
      | None => None
      end
  end.

Inductive exec : state -> list event -> state -> Prop :=
| exec_nil s : exec s [] s
| exec_snoc s tr s' ev s'' :
    exec s tr s' -> step s' ev s'' -> exec s (tr ++ [ev]) s''.

(** The pipeline as [Loader::start] leaves it, [stop] not called. *)
Definition init (nread ndecode : Z) : state :=
  {| base := Pipeline.init p nread ndecode;
     stopper := SNotCalled;
     read_stopped := false;
     _done := false;
     _stopped := replicate (Z.to_nat (count p)) false |}.

End steps.

(** A shutdown right after [start], on the configuration of
    [Pipeline.demo_params]: the manager initialises the device and waits
    for input, the two workers wait for a start signal; the trainer calls
    [stop], the read thread leaves without having read, both pools are
    empty, and [DecodeThreadPool::stop] forces a round to wake the workers
    and then raises the completion counter itself.  The run ends with the
    manager about to get past the barrier of that round. *)
Definition demo_shutdown : list event :=
  [Run EvInit; EvStop; EvReadExit; EvReadStopped; EvStopDecode;
   EvKickWorkers; Run EvTake; Run EvSignal;
   EvWorkerExit 0; EvWorkerExit 1; EvStopManager;
   EvKickManager; EvKickManager].

(** The rest of that shutdown: the manager gets past the barrier,
    transposes and copies the slot no worker wrote, publishes it, finds
    [_stopManager] set and leaves; [stop] returns. *)
Definition demo_shutdown_end : list event :=
  [Run EvReset; Run (EvCopy 0); Run EvPublish; Run EvRelease; EvManagerExit;
   EvStopReturn].

End Shutdown.

(** ** The unit test of the pipeline (thread_test.cpp) *)

Module ThreadTest.

(** An [unsigned int], taken to be 32 bits wide. *)
Definition uint (x : Z) : Z := x `mod` 2 ^ 32.

(** The value a [char] has as an operand of [+=]; whether [char] is signed
    is up to the platform. *)
Definition char_value (char_signed : bool) (c : byte) : Z :=
  let v := Z.of_N (Byte.to_N c) in
  if char_signed && bool_decide (128 <= v) then v - 256 else v.

(** [sum], lines 20-26.  A [len] beyond the buffer reads outside it in
    C++; here the buffer ends the loop. *)
Definition sum (char_signed : bool) (data : list byte) (len : Z) : Z :=
  fold_left (fun result c => uint (result + char_value char_signed c))
            (take (Z.to_nat len) data) 0.

Section loops.
Context {M : Media} {R : Reader}.
Variable char_signed : bool.
Variables batchSize datumSize targetSize : Z.

(** [single], lines 47-57: the body of the loop over the items of a
    minibatch, on the running sum and the buffer [dataBuf].  The
    transformer of [single] is taken to decode as the one of worker 0;
    [None] when the assertion [item != 0] fails. *)
Definition single_item (bufs : EncTuple) (st : option (Z * list byte))
    (j : Z) : option (Z * list byte) :=
  match st with
  | None => None
  | Some (sm, dataBuf) =>
      let item := getItem (enc_data bufs) j in
      match item with
      | None => None
      | Some enc =>
          let dataBuf :=
            memcpy dataBuf 0
              (media_transform 0 enc (item_len item) datumSize).1
              datumSize in
          let sm := uint (sm + sum char_signed dataBuf datumSize) in
          let targets := getItem (enc_targets bufs) j in
          let sm :=
            uint (sm + sum char_signed (default [] targets) targetSize) in
          Some (sm, dataBuf)
      end
  end.

(** [single], lines 42-58: the loop over the minibatches of an epoch.  The
    result of [read] is not looked at; a failed [read] leaves the buffers
    as [reset] left them, empty. *)
Definition single_minibatch (st : option (Z * list byte)) (i : nat)
  : option (Z * list byte) :=
  let bufs :=
    default {| enc_data := []; enc_targets := [] |} (reader_read i) in
  fold_left (single_item bufs) (seqZ 0 batchSize) st.

Definition single_epoch (minibatchCount : nat) (sm : Z)
    (dataBuf : list byte) : option (Z * list byte) :=
  fold_left single_minibatch (seq 0 minibatchCount) (Some (sm, dataBuf)).

(** [multi], lines 80-87: what one iteration adds to the sum, given what
    [copyDataBack] and [copyLabelsBack] deliver after the call of
    [next]. *)
Definition multi_minibatch (sm : Z) (img : list byte * list byte) : Z :=
  let sm := uint (sm + sum char_signed img.1 (batchSize * datumSize)) in
  uint (sm + sum char_signed img.2 (batchSize * targetSize)).

Definition multi_epoch (sm : Z) (read_back : list (list byte * list byte))
  : Z :=
  fold_left multi_minibatch read_back sm.

End loops.

End ThreadTest.

(** ** The meta buffer on the raw-copy path *)

Module MetaInvariant.
Section meta.
Context {M : Media} {R : Reader}.
Variable p : DecodeThreadPool.Params.

Import DecodeThreadPool Pipeline Invariant.





End meta.
End MetaInvariant.

(** * Properties *)

(** ** Integer helpers *)

Lemma ceil_div_spec a b :
  0 < b -> (ceil_div a b - 1) * b < a <= ceil_div a b * b.
Proof.
  intros Hb. unfold ceil_div.
  pose proof (Z.div_mod (a + b - 1) b ltac:(lia)) as Hdm.
  pose proof (Z.mod_pos_bound (a + b - 1) b Hb) as Hm.
  nia.
Qed.

Lemma ceil_div_unique a b c :
  0 < b -> (c - 1) * b < a <= c * b -> ceil_div a b = c.
Proof.
  intros Hb Hc. pose proof (ceil_div_spec a b Hb) as Hs.
  assert (ceil_div a b < c + 1) by nia.
  assert (c < ceil_div a b + 1) by nia.
  lia.
Qed.

(** The idiom [(a - 1) / b + 1] used by the loader is the ceiling when
    [a >= 1] and [b >= 1]. *)
Lemma quot_idiom_ceil a b :
  1 <= a -> 1 <= b -> (a - 1) `quot` b + 1 = ceil_div a b.
Proof.
  intros Ha Hb. symmetry. apply ceil_div_unique; [lia|].
  rewrite Z.quot_div_nonneg by lia.
  pose proof (Z.div_mod (a - 1) b ltac:(lia)) as Hdm.
  pose proof (Z.mod_pos_bound (a - 1) b ltac:(lia)) as Hm.
  nia.
Qed.


(** ** Loader::start: worker count *)

Section thread_count.
Import LoaderThreads.

Lemma threadCount_unfold B hc :
  1 <= B -> 1 <= hc ->
  threadCount B hc = Z.min (ceil_div B (ceil_div B hc)) B.
Proof.
  intros HB Hhc. unfold threadCount. cbv zeta.
  rewrite (quot_idiom_ceil B hc) by lia.
  pose proof (ceil_div_spec B hc ltac:(lia)).
  rewrite quot_idiom_ceil by nia. reflexivity.
Qed.

End thread_count.

(** C4 (as stated) fails: with a batch of 128 and 8 cores the loader
    starts 8 workers, the formula of the specification gives 16. *)
Lemma threadCount_spec_formula_fails :
  LoaderThreads.threadCount 128 8 = 8 /\
  LoaderThreads.spec_threadCount 128 8 = 16 /\
  LoaderThreads.threadCount 128 8 <> LoaderThreads.spec_threadCount 128 8.
Proof. vm_compute. split; [reflexivity|]. split; [reflexivity|]. discriminate. Qed.

(** C4 (amended): for [B >= 1] and [hardware_concurrency() >= 1],
    [Loader::start] chooses [N = min (ceil (B / ceil (B / cores)), B)],
    which is [ceil (B / ceil (B / cores))]: the least number of workers
    that covers the batch when each takes [ceil (B / cores)] items.  It
    lies between 1 and [min (B, cores)]. *)
Theorem threadCount_correct B hc :
  1 <= B -> 1 <= hc ->
  let ipt := ceil_div B hc in
  let N := LoaderThreads.threadCount B hc in
  N = Z.min (ceil_div B ipt) B /\
  N = ceil_div B ipt /\
  1 <= N <= Z.min B hc /\
  B <= N * ipt /\
  (forall n, B <= n * ipt -> N <= n).
Proof.
  intros HB Hhc ipt N.
  pose proof (ceil_div_spec B hc ltac:(lia)) as Hipt. fold ipt in Hipt.
  assert (1 <= ipt) as Hipt1 by nia.
  pose proof (ceil_div_spec B ipt ltac:(lia)) as HN.
  assert (N = Z.min (ceil_div B ipt) B) as HNeq
    by (apply threadCount_unfold; lia).
  assert (ceil_div B ipt <= B) as Hle by nia.
  assert (ceil_div B ipt <= hc) as Hhc' by nia.
  assert (1 <= ceil_div B ipt) by nia.
  assert (N = ceil_div B ipt) as HNeq' by lia.
  split; [exact HNeq|]. split; [exact HNeq'|].
  split; [lia|]. split; [rewrite HNeq'; lia|].
  intros n Hn. rewrite HNeq'. nia.
Qed.

Lemma threadCount_correct_witness :
  LoaderThreads.threadCount 128 8 = ceil_div 128 (ceil_div 128 8).
Proof.
  pose proof (threadCount_correct 128 8 ltac:(lia) ltac:(lia)) as H.
  cbv zeta in H. apply H.
Defined.

(** ** DecodeThreadPool: partition coverage *)

Section partition.
Import DecodeThreadPool.

Lemma itemsPerThread_ceil B N :
  1 <= B -> 1 <= N -> itemsPerThread B N = ceil_div B N.
Proof. intros. unfold itemsPerThread. by apply quot_idiom_ceil. Qed.

Lemma itemsPerThread_pos B N : 1 <= B -> 1 <= N -> 1 <= itemsPerThread B N.
Proof.
  intros HB HN. rewrite itemsPerThread_ceil by lia.
  pose proof (ceil_div_spec B N ltac:(lia)). nia.
Qed.

Lemma elem_of_work_items B N id i :
  i ∈ work_items B N id <-> startInd B N id <= i < endInd B N id.
Proof. unfold work_items. rewrite elem_of_seqZ. lia. Qed.

Lemma endInd_last B N : endInd B N (N - 1) = B.
Proof.
  unfold endInd, itemCount, startInd.
  destruct (decide (N - 1 = N - 1)); [lia | congruence].
Qed.

Lemma endInd_inner B N id :
  id <> N - 1 -> endInd B N id = (id + 1) * itemsPerThread B N.
Proof.
  intros Hid. unfold endInd, itemCount, startInd.
  destruct (decide (id = N - 1)); [congruence | lia].
Qed.

(** Under the constructor's assertions the computed bounds are those of
    the specification. *)
Lemma range_matches_spec B N id :
  1 <= B -> 1 <= N -> ctor_asserts B N -> 0 <= id < N ->
  (startInd B N id, endInd B N id) = spec_range B N id.
Proof.
  intros HB HN [Ha1 Ha2] Hid. unfold spec_range. f_equal.
  pose proof (itemsPerThread_pos B N HB HN) as Hp.
  destruct (decide (id = N - 1)) as [->|Hne].
  - rewrite endInd_last. replace (N - 1 + 1) with N by lia. lia.
  - rewrite endInd_inner by done.
    assert ((id + 1) * itemsPerThread B N <= (N - 1) * itemsPerThread B N)
      by nia.
    lia.
Qed.

Lemma partition_covers_guarded B N :
  1 <= B -> 1 <= N -> ctor_asserts B N -> partition_covers B N.
Proof.
  intros HB HN [Ha1 Ha2].
  pose proof (itemsPerThread_pos B N HB HN) as Hp.
  set (ipt := itemsPerThread B N) in *.
  split; [|split; [|apply endInd_last]].
  - intros i. split.
    + intros (id & Hid & Hin). apply elem_of_work_items in Hin.
      destruct (decide (id = N - 1)) as [->|Hne].
      * rewrite endInd_last in Hin. unfold startInd in Hin. fold ipt in Hin.
        nia.
      * rewrite endInd_inner in Hin by done. unfold startInd in Hin.
        fold ipt in Hin.
        assert ((id + 1) * ipt <= (N - 1) * ipt) by nia. nia.
    + intros Hi. destruct (decide (i < (N - 1) * ipt)) as [Hlt|Hge].
      * exists (i `div` ipt).
        pose proof (Z.div_mod i ipt ltac:(lia)) as Hdm.
        pose proof (Z.mod_pos_bound i ipt ltac:(lia)) as Hm.
        assert (0 <= i `div` ipt) by (apply Z.div_pos; lia).
        assert (i `div` ipt < N - 1) by nia.
        split; [lia|]. apply elem_of_work_items.
        rewrite endInd_inner by lia. unfold startInd. fold ipt. nia.
      * exists (N - 1). split; [lia|]. apply elem_of_work_items.
        rewrite endInd_last. unfold startInd. fold ipt. lia.
  - intros id1 id2 i H1 H2 Hin1 Hin2.
    apply elem_of_work_items in Hin1, Hin2.
    unfold startInd in *. fold ipt in Hin1, Hin2.
    destruct (Z.lt_trichotomy id1 id2) as [Hlt|[->|Hgt]]; [|done|].
    + rewrite (endInd_inner B N id1) in Hin1 by lia. fold ipt in Hin1. nia.
    + rewrite (endInd_inner B N id2) in Hin2 by lia. fold ipt in Hin2. nia.
Qed.

End partition.

(** C2 (as stated) fails: with [B = 5] and [N = 4], [itemsPerThread] is 2
    and worker 2 computes the range [[4, 6)], so it owns item 5, which is
    outside [[0, 5)]; the specification's formula would give [[4, 5)].
    The constructor's second assertion rejects this pair. *)
Lemma partition_coverage_fails :
  5 ∈ DecodeThreadPool.work_items 5 4 2 /\
  DecodeThreadPool.endInd 5 4 2 = 6 /\
  DecodeThreadPool.spec_range 5 4 2 = (4, 5) /\
  ~ DecodeThreadPool.ctor_asserts 5 4 /\
  ~ DecodeThreadPool.partition_covers 5 4.
Proof.
  assert (5 ∈ DecodeThreadPool.work_items 5 4 2) as Hin.
  { apply elem_of_work_items. vm_compute. split; [discriminate | reflexivity]. }
  split; [exact Hin|]. split; [reflexivity|]. split; [reflexivity|]. split.
  - intros [_ H]. vm_compute in H. discriminate.
  - intros (Hcov & _ & _).
    assert (0 <= 5 < 5) as Habs; [|lia].
    apply Hcov. exists 2. split; [lia | exact Hin].
Qed.

(** C2 (amended): for [B >= 1] and [N >= 1] that satisfy the assertions of
    the constructor ([ceil (B / N) * (N - 1) < B]), the ranges the workers
    compute are those of the specification, they are pairwise disjoint,
    their union is [[0, B)], and worker [N - 1]'s range ends at [B]. *)
Theorem partition_coverage B N :
  1 <= B -> 1 <= N -> DecodeThreadPool.ctor_asserts B N ->
  DecodeThreadPool.partition_covers B N /\
  (forall id, 0 <= id < N ->
     (DecodeThreadPool.startInd B N id, DecodeThreadPool.endInd B N id)
     = DecodeThreadPool.spec_range B N id).
Proof.
  intros HB HN Hg. split.
  - by apply partition_covers_guarded.
  - intros id Hid. by apply range_matches_spec.
Qed.

Lemma partition_coverage_witness :
  DecodeThreadPool.partition_covers 7 3 /\
  (DecodeThreadPool.work_items 7 3 0 = [0; 1; 2] /\
   DecodeThreadPool.work_items 7 3 1 = [3; 4; 5] /\
   DecodeThreadPool.work_items 7 3 2 = [6]).
Proof.
  split; [|by vm_compute].
  apply (partition_coverage 7 3); [lia | lia |].
  split; vm_compute; congruence.
Defined.

(** ** Buffers *)

Section buffers.
Context {A : Type}.
Implicit Types l k : list A.

Lemma lookup_inserts_inside l i k j :
  (i <= j < i + length k)%nat -> (j < length l)%nat ->
  list_inserts i k l !! j = k !! (j - i)%nat.
Proof. intros. by apply list_lookup_inserts. Qed.

Lemma lookup_inserts_outside l i k j :
  (j < i \/ i + length k <= j)%nat -> list_inserts i k l !! j = l !! j.
Proof.
  intros [?|?]; [by apply list_lookup_inserts_lt|by apply list_lookup_inserts_ge].
Qed.

Lemma lookup_slice (l : list A) off n (j : nat) :
  0 <= off -> 0 <= n ->
  slice l off n !! j =
  if decide (Z.of_nat j < n) then l !! (Z.to_nat off + j)%nat else None.
Proof.
  intros Hoff Hn. unfold slice. destruct (decide (Z.of_nat j < n)).
  - rewrite lookup_take_lt by lia. by rewrite lookup_drop.
  - by rewrite lookup_take_ge by lia.
Qed.

Lemma slice_length (l : list A) off n :
  0 <= off -> 0 <= n -> off + n <= Z.of_nat (length l) ->
  length (slice l off n) = Z.to_nat n.
Proof.
  intros. unfold slice. rewrite length_take, length_drop. lia.
Qed.

End buffers.

Lemma memcpy_length dst off src n :
  length (memcpy dst off src n) = length dst.
Proof. unfold memcpy. apply length_inserts. Qed.

Lemma memset_length dst off c n :
  length (memset dst off c n) = length dst.
Proof. unfold memset. apply length_inserts. Qed.

Lemma memcpy_lookup_inside dst off src n (j : nat) :
  0 <= off -> 0 <= n -> n <= Z.of_nat (length src) ->
  off <= Z.of_nat j < off + n -> (j < length dst)%nat ->
  memcpy dst off src n !! j = src !! (j - Z.to_nat off)%nat.
Proof.
  intros Hoff Hn Hsrc Hj Hlt. unfold memcpy.
  rewrite lookup_inserts_inside; [|rewrite length_take; lia|done].
  apply lookup_take_lt. lia.
Qed.

Lemma memcpy_lookup_outside dst off src n (j : nat) :
  0 <= off -> 0 <= n ->
  Z.of_nat j < off \/ off + n <= Z.of_nat j ->
  memcpy dst off src n !! j = dst !! j.
Proof.
  intros Hoff Hn Hj. unfold memcpy. apply lookup_inserts_outside.
  rewrite length_take. lia.
Qed.

Lemma memset_lookup_inside dst off c n (j : nat) :
  0 <= off -> 0 <= n ->
  off <= Z.of_nat j < off + n -> (j < length dst)%nat ->
  memset dst off c n !! j = Some c.
Proof.
  intros Hoff Hn Hj Hlt. unfold memset.
  rewrite lookup_inserts_inside; [|rewrite length_replicate; lia|done].
  apply lookup_replicate_2. lia.
Qed.

Lemma memset_lookup_outside dst off c n (j : nat) :
  0 <= off -> 0 <= n ->
  Z.of_nat j < off \/ off + n <= Z.of_nat j ->
  memset dst off c n !! j = dst !! j.
Proof.
  intros Hoff Hn Hj. unfold memset. apply lookup_inserts_outside.
  rewrite length_replicate. lia.
Qed.

(** ** DecodeThreadPool::transform, raw-copy path *)

Section transform_facts.
Context {M : Media}.
Import DecodeThreadPool.
Variable p : Params.

Lemma fixed_target_length encTarget :
  length (fixed_target p encTarget) = Z.to_nat (targetLen p).
Proof.
  unfold fixed_target. rewrite length_app, length_take, length_replicate. lia.
Qed.

Lemma transform_meta_targets id encDatum encDatumLen encTarget
      datumBuf targetBuf metaPtr dst (j : nat) :
  0 <= targetBuf -> 0 <= targetLen p ->
  targetBuf + targetLen p <= Z.of_nat (length (targets dst)) ->
  targets (transform_meta p id encDatum encDatumLen encTarget
             (Z.of_nat (length encTarget)) datumBuf targetBuf metaPtr dst)
    !! j
  = if decide (targetBuf <= Z.of_nat j < targetBuf + targetLen p)
    then fixed_target p encTarget !! (j - Z.to_nat targetBuf)%nat
    else targets dst !! j.
Proof.
  intros Hoff Hlen Hfit. unfold transform_meta.
  destruct (media_transform _ _ _ _) as [dec scalar]. cbn [targets].
  set (len := Z.of_nat (length encTarget)).
  destruct (decide (len > targetLen p)) as [Hgt|Hle].
  - (* truncated: nothing to pad *)
    destruct (decide (targetLen p > targetLen p)); [lia|].
    destruct (decide (_ <= _ < _)) as [Hin|Hout].
    + rewrite memcpy_lookup_inside by (unfold len in *; lia).
      unfold fixed_target. rewrite lookup_app_l by (rewrite length_take; lia).
      symmetry. apply lookup_take_lt. lia.
    + apply memcpy_lookup_outside; lia.
  - destruct (decide (targetLen p > len)) as [Hpad|Hexact].
    + destruct (decide (_ <= _ < _)) as [Hin|Hout].
      * destruct (decide (Z.of_nat j < targetBuf + len)) as [Hcp|Hz].
        -- rewrite memset_lookup_outside by lia.
           rewrite memcpy_lookup_inside by (unfold len in *; lia).
           unfold fixed_target.
           rewrite lookup_app_l by (rewrite length_take; lia).
           by rewrite take_ge by lia.
        -- rewrite memset_lookup_inside
             by (rewrite ?memcpy_length; unfold len in *; lia).
           unfold fixed_target.
           rewrite lookup_app_r by (rewrite length_take; lia).
           symmetry. apply lookup_replicate_2. rewrite length_take. lia.
      * rewrite memset_lookup_outside by lia.
        apply memcpy_lookup_outside; lia.
    + assert (len = targetLen p) as Heq by lia.
      destruct (decide (_ <= _ < _)) as [Hin|Hout].
      * rewrite memcpy_lookup_inside by (unfold len in *; lia).
        unfold fixed_target.
        rewrite lookup_app_l by (rewrite length_take; lia).
        symmetry. apply lookup_take_lt. lia.
      * apply memcpy_lookup_outside; lia.
Qed.

Lemma transform_meta_targets_length id encDatum encDatumLen encTarget
      encTargetLen datumBuf targetBuf metaPtr dst :
  length (targets (transform_meta p id encDatum encDatumLen encTarget
                     encTargetLen datumBuf targetBuf metaPtr dst))
  = length (targets dst).
Proof.
  unfold transform_meta. destruct (media_transform _ _ _ _) as [dec scalar].
  cbn [targets]. destruct (decide (targetLen p > _));
    by rewrite ?memset_length, memcpy_length.
Qed.

Lemma transform_meta_length_slot id encDatum encDatumLen encTarget
      encTargetLen datumBuf targetBuf metaPtr dst :
  0 <= metaPtr + batchSize p ->
  metaPtr + batchSize p < Z.of_nat (length (meta dst)) ->
  meta (transform_meta p id encDatum encDatumLen encTarget
          encTargetLen datumBuf targetBuf metaPtr dst)
    !! Z.to_nat (metaPtr + batchSize p)
  = Some (Z.min encTargetLen (targetLen p)).
Proof.
  intros H0 Hlt. unfold transform_meta.
  destruct (media_transform _ _ _ _) as [dec scalar]. cbn [meta].
  rewrite list_lookup_insert_eq by (rewrite length_insert; lia).
  f_equal. destruct (decide (encTargetLen > targetLen p)); lia.
Qed.

End transform_facts.

(** C3 (as stated) fails: with a 2-byte target slot and a 3-byte encoded
    target, [meta[batchSize + 0]] receives 2, the truncated length, and
    not the original length 3. *)
Lemma transform_records_truncated_length :
  meta (@DecodeThreadPool.transform_meta DecodeThreadPool.zero_media
          DecodeThreadPool.tiny_params 0 [x07] 1 [x01; x02; x03] 3 0 0 0
          DecodeThreadPool.tiny_tuple) = [0; 2] /\
  ~ @DecodeThreadPool.records_original_length DecodeThreadPool.zero_media
      DecodeThreadPool.tiny_params 0 [x07] [x01; x02; x03] 0
      DecodeThreadPool.tiny_tuple.
Proof.
  split; [reflexivity|].
  unfold DecodeThreadPool.records_original_length. vm_compute. discriminate.
Qed.

(** C3 (amended): in the raw-copy path, for item [i] the transform leaves
    in the target slot [[i * targetLen, (i + 1) * targetLen)] the encoded
    target truncated to [targetLen = targetSize * targetTypeSize] bytes and
    zero-padded when shorter, touches no other byte of the target buffer,
    and records in [meta[batchSize + i]] the number of bytes copied,
    [min (encTargetLen, targetLen)]. *)
Theorem transform_raw_copy {M : Media} (p : DecodeThreadPool.Params)
    (id : Z) (encDatum encTarget : list byte) (i : Z) (dst : BufferTuple) :
  0 <= i -> 0 <= DecodeThreadPool.targetLen p ->
  0 <= DecodeThreadPool.batchSize p ->
  (i + 1) * DecodeThreadPool.targetLen p <= Z.of_nat (length (targets dst)) ->
  DecodeThreadPool.batchSize p + i < Z.of_nat (length (meta dst)) ->
  let dst' :=
    DecodeThreadPool.transform_meta p id
      encDatum (Z.of_nat (length encDatum))
      encTarget (Z.of_nat (length encTarget))
      (i * DecodeThreadPool.datumLen p) (i * DecodeThreadPool.targetLen p) i
      dst in
  slice (targets dst') (i * DecodeThreadPool.targetLen p)
        (DecodeThreadPool.targetLen p)
    = DecodeThreadPool.fixed_target p encTarget /\
  (forall j : nat,
     ~ (i * DecodeThreadPool.targetLen p <= Z.of_nat j
        < (i + 1) * DecodeThreadPool.targetLen p) ->
     targets dst' !! j = targets dst !! j) /\
  length (targets dst') = length (targets dst) /\
  meta dst' !! Z.to_nat (DecodeThreadPool.batchSize p + i)
    = Some (Z.min (Z.of_nat (length encTarget))
                  (DecodeThreadPool.targetLen p)).
Proof.
  intros Hi HT HB Hfit Hmeta dst'.
  set (T := DecodeThreadPool.targetLen p) in *.
  assert (0 <= i * T) as Hoff by nia.
  assert (i * T + T <= Z.of_nat (length (targets dst))) as Hfit' by lia.
  split; [|split; [|split]].
  - apply list_eq. intros j. rewrite lookup_slice by lia.
    destruct (decide (Z.of_nat j < T)) as [Hj|Hj].
    + unfold dst'. rewrite transform_meta_targets by (fold T; lia). fold T.
      rewrite decide_True by lia. f_equal. lia.
    + symmetry. apply lookup_ge_None_2.
      rewrite fixed_target_length. fold T. lia.
  - intros j Hj. unfold dst'.
    rewrite transform_meta_targets by (fold T; lia). fold T.
    by rewrite decide_False by lia.
  - apply transform_meta_targets_length.
  - unfold dst'. replace (DecodeThreadPool.batchSize p + i)
      with (i + DecodeThreadPool.batchSize p) by lia.
    apply transform_meta_length_slot; lia.
Qed.

Lemma transform_raw_copy_witness :
  let dst' := @DecodeThreadPool.transform_meta DecodeThreadPool.zero_media
                DecodeThreadPool.tiny_params 0 [x07] 1 [x05] 1 0 0 0
                DecodeThreadPool.tiny_tuple in
  targets dst' = [x05; x00] /\ meta dst' !! 1%nat = Some 1.
Proof.
  pose proof (@transform_raw_copy DecodeThreadPool.zero_media
                DecodeThreadPool.tiny_params 0 [x07] [x05] 0
                DecodeThreadPool.tiny_tuple
                ltac:(lia) ltac:(vm_compute; discriminate)
                ltac:(vm_compute; discriminate)
                ltac:(vm_compute; discriminate)
                ltac:(vm_compute; reflexivity)) as H.
  cbv zeta in H. destruct H as (H1 & _ & _ & H4).
  split; [exact H1 | exact H4].
Defined.

(** ** Loader: start, stop and reset *)

Section loader_facts.
Import Loader.

Lemma bind_ret {A B} (m : Cpp A) (k : A -> Cpp B) l a l' :
  m l = (Ret a, l') -> (m ≫= k) l = k a l'.
Proof. intros H. unfold mbind, Cpp_bind, bind. by rewrite H. Qed.

Lemma bind_throw {A B} (m : Cpp A) (k : A -> Cpp B) l e l' :
  m l = (Throw e, l') -> (m ≫= k) l = (Throw e, l').
Proof. intros H. unfold mbind, Cpp_bind, bind. by rewrite H. Qed.

Lemma int_ret x l : in_int x -> int x l = (Ret x, l).
Proof. intros H. unfold int. by rewrite decide_True. Qed.

Lemma int_div_ret a b l :
  b <> 0 -> in_int (a `quot` b) -> int_div a b l = (Ret (a `quot` b), l).
Proof.
  intros Hb H. unfold int_div. rewrite decide_False by done. by apply int_ret.
Qed.

Lemma bind_get {A B} (f : t -> A) (k : A -> Cpp B) l :
  (get f ≫= k) l = k (f l) l.
Proof. reflexivity. Qed.

Lemma bind_modify {B} (f : t -> t) (k : unit -> Cpp B) l :
  (modify f ≫= k) l = k tt (f l).
Proof. reflexivity. Qed.

Lemma bind_mret {A B} (a : A) (k : A -> Cpp B) l : (mret a ≫= k) l = k a l.
Proof. reflexivity. Qed.

Lemma bind_int {B} x (k : Z -> Cpp B) l :
  in_int x -> (int x ≫= k) l = k x l.
Proof. intros H. by apply bind_ret, int_ret. Qed.

Lemma bind_int_div {B} a b (k : Z -> Cpp B) l :
  b <> 0 -> in_int (a `quot` b) -> (int_div a b ≫= k) l = k (a `quot` b) l.
Proof. intros Hb H. by apply bind_ret, int_div_ret. Qed.

Lemma bind_new_true {A B} (obj : A) (k : A -> Cpp B) l h :
  heap l = true :: h -> (new obj ≫= k) l = k obj (with_heap h l).
Proof. intros H. apply bind_ret. unfold new. by rewrite H. Qed.

Lemma bind_new_false {A B} (obj : A) (k : A -> Cpp B) l h :
  heap l = false :: h ->
  (new obj ≫= k) l = (Throw bad_alloc, with_heap h l).
Proof. intros H. apply bind_throw. unfold new. by rewrite H. Qed.

Lemma assert_ret (P : Prop) `{!Decision P} l :
  P -> assert (bool_decide P) l = (Ret tt, l).
Proof. intros H. by rewrite bool_decide_eq_true_2. Qed.

Lemma bind_assert {B} (P : Prop) `{!Decision P} (k : unit -> Cpp B) l :
  P -> (assert (bool_decide P) ≫= k) l = k tt l.
Proof. intros H. by apply bind_ret, assert_ret. Qed.

(** Symbolic execution of a facade computation: one step at a time, the
    arithmetic discharged by [tac], the calls by [call]. *)
Ltac run_step tac call :=
  lazymatch goal with
  | |- (get _ ≫= _) _ = _ => rewrite bind_get
  | |- (modify _ ≫= _) _ = _ => rewrite bind_modify
  | |- (mret _ ≫= _) _ = _ => rewrite bind_mret
  | |- (int _ ≫= _) _ = _ => rewrite bind_int by tac
  | |- (int_div _ _ ≫= _) _ = _ => rewrite bind_int_div by tac
  | |- (assert _ ≫= _) _ = _ => rewrite bind_assert by tac
  | |- (new _ ≫= _) _ = _ =>
      first [ erewrite bind_new_true by reflexivity
            | erewrite bind_new_false by reflexivity ]
  | |- (_ ≫= _) _ = _ => erewrite bind_ret by call
  end.

(** The fields of a facade built by the setters. *)
Ltac norm_facade :=
  cbn [with_first with_handles with_heap with_threads with_reader_pos
       _first _batchSize _datumSize _datumTypeSize _targetSize
       _targetTypeSize _targetConversion _readBufs _decodeBufs _readThread
       _decodeThreads device_is_cpu heap threads reader_pos].

(** The same for a facade given by its fields. *)
Ltac norm_record :=
  cbv beta iota delta
      [with_first with_handles with_heap with_threads with_reader_pos
       _first _batchSize _datumSize _datumTypeSize _targetSize
       _targetTypeSize _targetConversion _readBufs _decodeBufs _readThread
       _decodeThreads device_is_cpu heap threads reader_pos].

Ltac run_with tac call :=
  repeat first [run_step tac call; norm_facade | progress cbv beta iota].

Lemma quot_bounds a b :
  0 <= a -> 1 <= b -> 0 <= a `quot` b <= a.
Proof.
  intros Ha Hb. rewrite Z.quot_div_nonneg by lia.
  split; [apply Z.div_pos; lia|].
  apply Z.div_le_upper_bound; [lia | nia].
Qed.

Lemma pool_sizes_ret l :
  sizes_fit l ->
  pool_sizes l
  = (Ret (_batchSize l * _datumSize l * _datumTypeSize l,
          _batchSize l * _targetSize l * _targetTypeSize l,
          2 * _batchSize l), l).
Proof.
  intros [HB Hbd Hdata Hbt Htarget Hmeta _ _]. unfold pool_sizes.
  run_with assumption fail. reflexivity.
Qed.

Lemma worker_count_ret numCores l :
  sizes_fit l -> 1 <= numCores ->
  worker_count numCores l
  = (Ret (LoaderThreads.threadCount (_batchSize l) numCores), l).
Proof.
  intros [HB _ _ _ _ Hmeta _ _] Hc. unfold worker_count, in_int in *.
  pose proof (quot_bounds (_batchSize l - 1) numCores ltac:(lia) Hc) as Hq.
  pose proof (quot_bounds (_batchSize l - 1)
                ((_batchSize l - 1) `quot` numCores + 1)
                ltac:(lia) ltac:(lia)) as Hq2.
  run_with ltac:(unfold in_int; lia) fail. reflexivity.
Qed.

(** The worker count of [start] passes the checks of the constructor. *)
Lemma threadCount_fits B numCores :
  1 <= B -> 1 <= numCores ->
  let N := LoaderThreads.threadCount B numCores in
  1 <= N <= B /\ DecodeThreadPool.ctor_asserts B N /\
  1 <= DecodeThreadPool.itemsPerThread B N <= B.
Proof.
  intros HB Hhc N.
  pose proof (ceil_div_spec B numCores ltac:(lia)) as Hipt.
  set (ipt := ceil_div B numCores) in *.
  assert (1 <= ipt) as Hipt1 by nia.
  pose proof (ceil_div_spec B ipt ltac:(lia)) as Hc.
  assert (N = Z.min (ceil_div B ipt) B) as HN
    by (by apply threadCount_unfold).
  assert (1 <= ceil_div B ipt <= B) as Hcb by nia.
  assert (N = ceil_div B ipt) as HN' by lia.
  assert (1 <= N <= B) as HNb by lia.
  pose proof (itemsPerThread_ceil B N HB ltac:(lia)) as Hq.
  pose proof (ceil_div_spec B N ltac:(lia)) as Hqs.
  split; [done|]. split.
  - unfold DecodeThreadPool.ctor_asserts. rewrite Hq.
    assert (ceil_div B N <= ipt) by nia. nia.
  - rewrite Hq. nia.
Qed.

Lemma decodeThreads_ctor_ret numCores count l :
  sizes_fit l -> 1 <= numCores ->
  count = LoaderThreads.threadCount (_batchSize l) numCores ->
  decodeThreads_ctor count l = (Ret tt, l).
Proof.
  intros [HB _ _ _ _ Hmeta HdL HtL] Hc ->.
  destruct (threadCount_fits (_batchSize l) numCores HB Hc)
    as (HN & [Ha1 Ha2] & Hipt).
  set (N := LoaderThreads.threadCount (_batchSize l) numCores) in *.
  unfold DecodeThreadPool.itemsPerThread in *.
  pose proof (quot_bounds (_batchSize l - 1) N ltac:(lia) ltac:(lia)) as Hq.
  unfold decodeThreads_ctor, in_int in *.
  run_with ltac:(unfold in_int; first [assumption | nia]) fail.
  by apply assert_ret.
Qed.

(** *** The heap *)

Lemma first_failure_Some h k :
  first_failure h = Some k <-> exists h', h = replicate k true ++ false :: h'.
Proof.
  revert k. induction h as [|[] h IH]; intros k; cbn.
  - split; [done|]. intros [h' Hh]. by destruct k.
  - destruct (first_failure h) as [j|] eqn:Hj; cbn.
    + split.
      * intros [= <-]. destruct (proj1 (IH j) eq_refl) as [h' ->].
        by exists h'.
      * intros [h' Hh]. destruct k as [|k]; [done|].
        injection Hh as Hh. f_equal. f_equal.
        assert (Some j = Some k) as [= ->]; [|done].
        apply IH. by exists h'.
    + split; [done|]. intros [h' Hh]. destruct k as [|k]; [done|].
      injection Hh as Hh. assert (None = Some k); [|done].
      apply IH. by exists h'.
  - split.
    + intros [= <-]. by exists h.
    + intros [h' Hh]. by destruct k.
Qed.

Lemma first_failure_drop h n :
  first_failure (drop n h)
  = match first_failure h with
    | Some k => if decide (n <= k)%nat then Some (k - n)%nat
                else first_failure (drop n h)
    | None => None
    end.
Proof.
  revert n. induction h as [|[] h IH]; intros n.
  - by rewrite drop_nil.
  - destruct n as [|n]; cbn.
    + destruct (first_failure h); cbn; [|done].
      by rewrite decide_True by lia.
    + rewrite IH. destruct (first_failure h) as [k|]; cbn; [|done].
      destruct (decide (n <= k)%nat).
      * by rewrite decide_True by lia.
      * by rewrite decide_False by lia.
  - destruct n as [|n]; cbn; [done|]. done.
Qed.

Lemma allocs_ok_drop n m h : allocs_ok (n + m) h -> allocs_ok m (drop n h).
Proof.
  unfold allocs_ok. rewrite first_failure_drop.
  destruct (first_failure h) as [k|]; [|done].
  intros Hk. rewrite decide_True by lia. lia.
Qed.

Lemma allocs_ok_le n m h : (m <= n)%nat -> allocs_ok n h -> allocs_ok m h.
Proof. unfold allocs_ok. destruct (first_failure h); [lia | done]. Qed.

Lemma new_ok {A} (obj : A) l :
  allocs_ok 1 (heap l) -> new obj l = (Ret obj, with_heap (drop 1 (heap l)) l).
Proof.
  unfold allocs_ok, new. destruct l as [? ? ? ? ? ? ? ? ? ? ? ? [|[] h] ? ?];
    cbn; try done. lia.
Qed.

Lemma new_fail {A} (obj : A) l :
  first_failure (heap l) = Some 0%nat ->
  new obj l = (Throw bad_alloc, with_heap (drop 1 (heap l)) l).
Proof.
  unfold new. destruct l as [? ? ? ? ? ? ? ? ? ? ? ? [|[] h] ? ?];
    cbn; try done. by destruct (first_failure h).
Qed.

Lemma bind_new_ok {A B} (obj : A) (k : A -> Cpp B) l :
  allocs_ok 1 (heap l) ->
  (new obj ≫= k) l = k obj (with_heap (drop 1 (heap l)) l).
Proof. intros H. by apply bind_ret, new_ok. Qed.

Lemma new_thread_ok l :
  allocs_ok 1 (heap l) ->
  new_thread l
  = (Ret tt, with_threads (threads l + 1) (with_heap (drop 1 (heap l)) l)).
Proof.
  intros Hok. unfold new_thread.
  erewrite bind_ret by (by apply new_ok). reflexivity.
Qed.

Lemma new_thread_fail l :
  first_failure (heap l) = Some 0%nat ->
  new_thread l = (Throw bad_alloc, with_heap (drop 1 (heap l)) l).
Proof.
  intros Hf. unfold new_thread. by erewrite bind_throw by (by apply new_fail).
Qed.

Lemma spawn_ok n : forall l,
  allocs_ok n (heap l) ->
  spawn n l
  = (Ret tt, with_threads (threads l + Z.of_nat n)
               (with_heap (drop n (heap l)) l)).
Proof.
  induction n as [|n IH]; intros l Hok.
  - cbn. rewrite Z.add_0_r. by destruct l.
  - cbn [spawn].
    erewrite bind_ret
      by (apply new_thread_ok; by apply (allocs_ok_le (S n)); [lia|]).
    rewrite IH by (cbn; by apply (allocs_ok_drop 1 n)).
    destruct l; unfold with_heap, with_threads; cbn.
      rewrite drop_drop. f_equal; f_equal; first [lia | reflexivity].
Qed.

Lemma spawn_fail n : forall l k,
  first_failure (heap l) = Some k -> (k < n)%nat ->
  spawn n l
  = (Throw bad_alloc, with_threads (threads l + Z.of_nat k)
                        (with_heap (drop (S k) (heap l)) l)).
Proof.
  induction n as [|n IH]; intros l k Hf Hk; [lia|].
  cbn [spawn]. destruct k as [|k].
  - erewrite bind_throw by (by apply new_thread_fail).
    rewrite Z.add_0_r. by destruct l.
  - erewrite bind_ret
      by (apply new_thread_ok; unfold allocs_ok; rewrite Hf; lia).
    rewrite (IH _ k); [|cbn|lia].
    + destruct l; unfold with_heap, with_threads; cbn.
      rewrite drop_drop. f_equal; f_equal; first [lia | reflexivity].
    + rewrite first_failure_drop, Hf. rewrite decide_True by lia.
      f_equal. lia.
Qed.

Lemma bind_assoc {A B C} (m : Cpp A) (f : A -> Cpp B) (g : B -> Cpp C) l :
  ((m ≫= f) ≫= g) l = (m ≫= (fun x => f x ≫= g)) l.
Proof.
  unfold mbind, Cpp_bind, bind. by destruct (m l) as [[] ?].
Qed.

Lemma bind_ret_r {A} (m : Cpp A) l : (m ≫= mret) l = m l.
Proof.
  unfold mbind, Cpp_bind, bind. by destruct (m l) as [[] ?].
Qed.

(** [DecodeThreadPool::start] spawns one thread more than there are
    workers. *)
Lemma spawn_snoc n : forall l, (spawn n;; new_thread) l = spawn (S n) l.
Proof.
  induction n as [|n IH]; intros l.
  - cbn [spawn]. rewrite bind_mret.
    change (new_thread l = (new_thread ≫= (fun _ => mret tt)) l).
    unfold mbind, Cpp_bind, bind.
    by destruct (new_thread l) as [[[]| | |] ?].
  - change (spawn (S n)) with (new_thread;; spawn n) at 1.
    rewrite bind_assoc. change (spawn (S (S n))) with (new_thread;; spawn (S n)).
    unfold mbind at 1 3, Cpp_bind, bind.
    destruct (new_thread l) as [[[]| | |] l1]; first [done | apply IH].
Qed.

(** *** The allocations of the [try] block *)

Ltac run_start Hs Hc :=
  run_with fail
    ltac:(first [ apply pool_sizes_ret; exact Hs
                | apply worker_count_ret; [exact Hs | exact Hc]
                | eapply decodeThreads_ctor_ret; [exact Hs | exact Hc | reflexivity] ]).

Lemma try_catch_throw {A} (body handler : Cpp A) l l' :
  body l = (Throw bad_alloc, l') -> try_catch body handler l = handler l'.
Proof. intros H. unfold try_catch. by rewrite H. Qed.

Lemma try_catch_ret {A} (body handler : Cpp A) l a l' :
  body l = (Ret a, l') -> try_catch body handler l = (Ret a, l').
Proof. intros H. unfold try_catch. by rewrite H. Qed.

Lemma start_allocate_fails (k : nat) h numCores l :
  sizes_fit l -> 1 <= numCores ->
  (k < 4)%nat -> heap l = replicate k true ++ false :: h ->
  start_allocate numCores l
  = (Throw bad_alloc,
     with_heap h
       (with_handles
          (if decide (0 < k)%nat then Some (read_pool l) else _readBufs l)
          (if decide (2 < k)%nat then Some (decode_pool l) else _decodeBufs l)
          (if decide (1 < k)%nat then Some false else _readThread l)
          (_decodeThreads l) l)).
Proof.
  intros Hs Hc Hk Hheap. destruct l. cbn in Hheap. subst.
  unfold start_allocate.
  destruct k as [|[|[|[|k]]]]; [| | | |lia]; cbn [replicate app].
  all: run_start Hs Hc; reflexivity.
Qed.

Lemma start_allocate_ok numCores l :
  sizes_fit l -> 1 <= numCores -> allocs_ok 4 (heap l) ->
  start_allocate numCores l
  = (Ret tt,
     with_heap (drop 4 (heap l))
       (with_handles (Some (read_pool l)) (Some (decode_pool l)) (Some false)
          (Some (LoaderThreads.threadCount (_batchSize l) numCores)) l)).
Proof.
  intros Hs Hc Hok. destruct l. cbn in Hok. unfold start_allocate.
  assert (forall j, (j < 4)%nat -> allocs_ok 1 (drop j heap0)) as Hnew.
  { intros j Hj. apply (allocs_ok_drop j 1).
    by apply (allocs_ok_le 4); [lia|]. }
  pose proof (Hnew 0%nat ltac:(lia)) as H0.
  pose proof (Hnew 1%nat ltac:(lia)) as H1.
  pose proof (Hnew 2%nat ltac:(lia)) as H2.
  pose proof (Hnew 3%nat ltac:(lia)) as H3.
  rewrite drop_0 in H0.
  change 2%nat with (1 + 1)%nat in H2. rewrite <-drop_drop in H2.
  change 3%nat with (1 + (1 + 1))%nat in H3. rewrite <-!drop_drop in H3.
  repeat first
    [ lazymatch goal with
      | |- (new _ ≫= _) _ = _ =>
          rewrite bind_new_ok
            by (first [exact H0 | exact H1 | exact H2 | exact H3]);
          norm_facade
      end
    | run_step fail
        ltac:(first [ apply pool_sizes_ret; exact Hs
                    | apply worker_count_ret; [exact Hs | exact Hc]
                    | eapply decodeThreads_ctor_ret;
                      [exact Hs | exact Hc | reflexivity] ]);
      norm_facade
    | progress cbv beta iota ].
  unfold modify, read_pool, decode_pool. norm_facade.
  rewrite !drop_drop. reflexivity.
Qed.

(** *** [start] *)

Lemma start_fails_at (k : nat) h numCores l :
  sizes_fit l -> 1 <= numCores ->
  (k < 4)%nat -> heap l = replicate k true ++ false :: h ->
  start numCores l
  = (Ret (-1),
     with_first true
       (with_heap h
          (with_handles
             (if decide (0 < k)%nat then Some (read_pool l) else _readBufs l)
             (if decide (2 < k)%nat then Some (decode_pool l)
              else _decodeBufs l)
             (if decide (1 < k)%nat then Some false else _readThread l)
             (_decodeThreads l) l))).
Proof.
  intros Hs Hc Hk Hheap. unfold start. rewrite bind_modify.
  erewrite bind_ret.
  2:{ eapply try_catch_throw.
      erewrite bind_throw; [reflexivity|].
      by apply (start_allocate_fails k h). }
  by destruct l.
Qed.

Lemma decodeThreads_start_spawn l count :
  _decodeThreads l = Some count ->
  decodeThreads_start l = spawn (S (Z.to_nat count)) l.
Proof.
  intros H. unfold decodeThreads_start. rewrite H. apply spawn_snoc.
Qed.

Lemma start_ok numCores l :
  sizes_fit l -> 1 <= numCores ->
  let N := LoaderThreads.threadCount (_batchSize l) numCores in
  allocs_ok (4 + (Z.to_nat N + 2)) (heap l) ->
  start numCores l
  = (Ret 0,
     with_handles (Some (read_pool l)) (Some (decode_pool l)) (Some true)
       (Some N)
       (with_threads (threads l + N + 2)
          (with_heap (drop (4 + (Z.to_nat N + 2)) (heap l))
             (with_first true l)))).
Proof.
  intros Hs Hc N Hok.
  destruct (threadCount_fits (_batchSize l) numCores) as (HN & _);
    [by destruct Hs | done |]. fold N in HN.
  unfold start. rewrite bind_modify.
  erewrite bind_ret.
  2:{ eapply try_catch_ret. erewrite bind_ret; [reflexivity|].
      apply start_allocate_ok; [exact Hs | exact Hc |].
      by apply (allocs_ok_le (4 + (Z.to_nat N + 2))); [lia|]. }
  cbv beta iota.
  erewrite bind_ret.
  2:{ erewrite decodeThreads_start_spawn by reflexivity.
      apply spawn_ok. norm_facade. apply (allocs_ok_drop 4).
      by apply (allocs_ok_le (4 + (Z.to_nat N + 2))); [subst N; lia|]. }
  erewrite bind_ret.
  2:{ unfold readThread_start. norm_facade.
      erewrite bind_ret; [reflexivity|].
      apply new_thread_ok. norm_facade. rewrite drop_drop.
      apply (allocs_ok_drop (4 + S (Z.to_nat N))).
      by apply (allocs_ok_le (4 + (Z.to_nat N + 2))); [subst N; lia|]. }
  subst N. destruct l. cbn [_batchSize] in HN.
  unfold mret, Cpp_ret, ret, read_pool, decode_pool. norm_record.
  rewrite !drop_drop. f_equal.
  f_equal; first [lia | f_equal; lia].
Qed.

Lemma start_thread_fails numCores l (k : nat) :
  sizes_fit l -> 1 <= numCores ->
  let N := LoaderThreads.threadCount (_batchSize l) numCores in
  first_failure (heap l) = Some k -> (4 <= k < 4 + (Z.to_nat N + 2))%nat ->
  start numCores l
  = (Throw bad_alloc,
     with_handles (Some (read_pool l)) (Some (decode_pool l)) (Some false)
       (Some N)
       (with_threads (threads l + (Z.of_nat k - 4))
          (with_heap (drop (S k) (heap l)) (with_first true l)))).
Proof.
  intros Hs Hc N Hf Hk.
  destruct (threadCount_fits (_batchSize l) numCores) as (HN & _);
    [by destruct Hs | done |]. fold N in HN.
  assert (allocs_ok 4 (heap l)) as H4 by (unfold allocs_ok; rewrite Hf; lia).
  assert (first_failure (drop 4 (heap l)) = Some (k - 4)%nat) as Hf4.
  { rewrite first_failure_drop, Hf. by rewrite decide_True by lia. }
  unfold start. rewrite bind_modify.
  erewrite bind_ret.
  2:{ eapply try_catch_ret. erewrite bind_ret; [reflexivity|].
      by apply start_allocate_ok. }
  cbv beta iota.
  destruct (decide (k - 4 < S (Z.to_nat N))%nat) as [Hlt|Hge].
  - erewrite bind_throw.
    2:{ erewrite decodeThreads_start_spawn by reflexivity.
        by apply (spawn_fail _ _ (k - 4)%nat). }
    subst N. destruct l. cbn [_batchSize] in HN, Hk, Hlt.
    unfold read_pool, decode_pool. norm_record.
    rewrite !drop_drop. f_equal.
    f_equal; first [lia | f_equal; lia].
  - erewrite bind_ret.
    2:{ erewrite decodeThreads_start_spawn by reflexivity.
        apply spawn_ok. norm_facade. unfold allocs_ok. rewrite Hf4. lia. }
    erewrite bind_throw.
    2:{ unfold readThread_start. norm_facade.
        erewrite bind_throw; [reflexivity|].
        apply new_thread_fail. norm_facade.
        rewrite first_failure_drop, Hf4. rewrite decide_True by lia.
        f_equal. subst N. lia. }
    subst N. destruct l. cbn [_batchSize] in HN, Hk, Hge.
    unfold read_pool, decode_pool. norm_record.
    rewrite !drop_drop. f_equal.
    f_equal; first [lia | f_equal; lia].
Qed.

Lemma stop_returns joins l l1 :
  stop joins l = (Ret tt, l1) ->
  exists count,
    joins = true /\ _readThread l = Some true /\
    _decodeThreads l = Some count /\
    l1 = with_threads (threads l - (count + 1) - 1)
           (with_handles None None None None l).
Proof.
  unfold stop. intros H.
  destruct (_readThread l) as [[]|]; try done;
    destruct (_decodeBufs l); try done;
    destruct (_readBufs l); try done;
    destruct (_decodeThreads l) as [count|]; try done.
  destruct joins; [|done]. injection H as <-. by exists count.
Qed.

Lemma reset_unfold numCores joins l l1 r l' :
  stop joins l = (Ret tt, l1) ->
  start numCores (with_reader_pos 0 l1) = (r, l') ->
  reset numCores joins l
  = (match r with Ret _ => Ret 0 | Throw e => Throw e
              | Fault => Fault | Spins => Spins end, l').
Proof.
  intros Hstop Hstart. unfold reset.
  erewrite bind_ret by exact Hstop. rewrite bind_modify.
  unfold mbind, Cpp_bind, bind. rewrite Hstart. by destruct r.
Qed.

(** Every heap makes one of the four allocations of the [try] block fail,
    or one of the [n] allocations after them, or none of them. *)
Lemma heap_cases (n : nat) (h : list bool) :
  (exists (k : nat) h', (k < 4)%nat /\ h = replicate k true ++ false :: h') \/
  (exists k : nat, first_failure h = Some k /\ (4 <= k < 4 + n)%nat) \/
  allocs_ok (4 + n) h.
Proof.
  unfold allocs_ok. destruct (first_failure h) as [k|] eqn:Hf; [|by right; right].
  destruct (decide (k < 4)%nat).
  - left. apply first_failure_Some in Hf as [h' ->]. by exists k, h'.
  - destruct (decide (k < 4 + n)%nat).
    + right. left. exists k. split; [done | lia].
    + right. right. lia.
Qed.

End loader_facts.

(** C9 (as stated) fails: when the third allocation of [start] (the decode
    pool) throws, [start] returns -1 and spawns no thread, but the read
    pool and the read stage constructed before stay installed. *)
Lemma start_failure_leaves_partial_state :
  let l := Loader.fresh 128 3072 1 1 4 1 true [true; true; false] in
  let l' := snd (Loader.start 8 l) in
  fst (Loader.start 8 l) = Loader.Ret (-1) /\
  Loader.threads l' = 0 /\
  is_Some (Loader._readBufs l') /\ is_Some (Loader._readThread l') /\
  Loader._decodeBufs l' = None /\
  ~ Loader.no_partial_state l'.
Proof.
  vm_compute. repeat split; eauto.
  intros (H & _). discriminate.
Qed.

(** C9 (amended): if one of the four allocations of the [try] block of
    [Loader::start] fails (the read pool, the read stage, the decode pool,
    the decode stage, in this order), [start] returns -1 and spawns no
    thread; the pools and stages constructed before the failing allocation
    stay installed in the facade, the later handles are left as they were.
    The batch has at least one item, the sizes fit in an [int] and
    [hardware_concurrency()] is at least 1, so that the arithmetic before
    the failing allocation is defined. *)
Theorem start_allocation_failure (k : nat) (h : list bool) (numCores : Z)
    (l : Loader.t) :
  Loader.sizes_fit l -> 1 <= numCores ->
  (k < 4)%nat -> Loader.heap l = replicate k true ++ false :: h ->
  exists l',
    Loader.start numCores l = (Loader.Ret (-1), l') /\
    Loader.threads l' = Loader.threads l /\
    (is_Some (Loader._readBufs l') <->
       (0 < k)%nat \/ is_Some (Loader._readBufs l)) /\
    (is_Some (Loader._readThread l') <->
       (1 < k)%nat \/ is_Some (Loader._readThread l)) /\
    (is_Some (Loader._decodeBufs l') <->
       (2 < k)%nat \/ is_Some (Loader._decodeBufs l)) /\
    Loader._decodeThreads l' = Loader._decodeThreads l.
Proof.
  intros Hs Hc Hk Hheap.
  eexists. split; [by apply (start_fails_at k h)|]. cbn.
  split; [done|].
  repeat split; try done; repeat case_decide;
    intros; try (left; lia); try (by right); eauto;
    match goal with H : _ \/ _ |- _ => destruct H; [lia | done] end.
Qed.

Lemma start_allocation_failure_witness :
  exists l',
    Loader.start 8 (Loader.fresh 128 3072 1 1 4 1 true [true; false])
      = (Loader.Ret (-1), l') /\
    Loader.threads l' = 0 /\ is_Some (Loader._readBufs l') /\
    Loader._readThread l' = None.
Proof.
  destruct (start_allocation_failure 1 [] 8
              (Loader.fresh 128 3072 1 1 4 1 true [true; false]))
    as (l' & Hs & Ht & Hrb & Hrt & _).
  - split; unfold in_int; cbn; lia.
  - lia.
  - lia.
  - reflexivity.
  - exists l'. split; [exact Hs|]. split; [exact Ht|]. split.
    + apply Hrb. left. lia.
    + destruct (Loader._readThread l') eqn:E; [|reflexivity].
      exfalso. destruct (proj1 Hrt (mk_is_Some _ _ eq_refl)) as [H|H];
        [lia | by inversion H].
Defined.

(** C10 (as stated) fails: [reset] does not always return 0.
    - A pipeline of 8 workers is started and then reset; its threads wind
      down, the four allocations of the restart succeed, and the first
      [new thread] of [DecodeThreadPool::start] (line 82) throws.  That
      call is outside the [try] block of [start], so the exception leaves
      [start] and then [reset], with the four new objects installed and no
      thread running.
    - [reset] on a facade that was never started does not return either:
      its [stop] dereferences the null [_readThread] (line 410). *)
Lemma reset_lets_thread_failure_escape :
  let l := Loader.fresh 128 3072 1 1 4 1 true
             (replicate 14 true ++ [true; true; true; true; false]) in
  let started := snd (Loader.start 8 l) in
  let r := Loader.reset 8 true started in
  (fst (Loader.start 8 l) = Loader.Ret 0 /\
   Loader.threads started = 10 /\
   fst r = Loader.Throw Loader.bad_alloc /\ fst r <> Loader.Ret 0 /\
   Loader.threads (snd r) = 0 /\ is_Some (Loader._decodeThreads (snd r))) /\
  forall joins,
    fst (Loader.reset 8 joins (Loader.fresh 128 3072 1 1 4 1 true []))
    = Loader.Fault.
Proof.
  split; [|by intros []].
  vm_compute. repeat split; eauto. discriminate.
Qed.

(** C10 (amended): when its [stop] returns and its [start] returns,
    [Loader::reset] returns 0 whatever that [start] returned, so the -1 of
    a restart that failed on an allocation is not propagated.  In
    particular, for a batch of at least one item, sizes that fit in an
    [int] and [hardware_concurrency()] at least 1: if one of the four
    allocations of the [try] block of the restart fails, [start] returns
    -1 and [reset] returns 0; if none of the allocations of the restart
    fails, [start] returns 0 and so does [reset]. *)
Theorem reset_returns_0 (numCores : Z) (joins : bool) (l l1 : Loader.t) :
  Loader.stop joins l = (Loader.Ret tt, l1) ->
  (forall r l',
     Loader.start numCores (Loader.with_reader_pos 0 l1) = (Loader.Ret r, l')
     -> Loader.reset numCores joins l = (Loader.Ret 0, l')) /\
  (Loader.sizes_fit l -> 1 <= numCores ->
   forall (k : nat) h,
     (k < 4)%nat -> Loader.heap l1 = replicate k true ++ false :: h ->
     exists l',
       Loader.start numCores (Loader.with_reader_pos 0 l1)
       = (Loader.Ret (-1), l') /\
       Loader.reset numCores joins l = (Loader.Ret 0, l')) /\
  (Loader.sizes_fit l -> 1 <= numCores ->
   let N := LoaderThreads.threadCount (Loader._batchSize l) numCores in
   Loader.allocs_ok (4 + (Z.to_nat N + 2)) (Loader.heap l1) ->
   exists l',
     Loader.start numCores (Loader.with_reader_pos 0 l1)
     = (Loader.Ret 0, l') /\
     Loader.reset numCores joins l = (Loader.Ret 0, l')).
Proof.
  intros Hstop.
  destruct (stop_returns joins l l1 Hstop) as (count & -> & _ & _ & Hl1).
  assert (forall r l',
            Loader.start numCores (Loader.with_reader_pos 0 l1)
            = (Loader.Ret r, l') ->
            Loader.reset numCores true l = (Loader.Ret 0, l')) as Hret.
  { intros r l' Hstart.
    by rewrite (reset_unfold numCores true l l1 _ l' Hstop Hstart). }
  split; [done|]. split.
  - intros Hs Hc k h Hk Hheap. eexists. split; [|eapply Hret].
    all: apply (start_fails_at k h); try done; by subst l1.
  - intros Hs Hc N Hok. eexists. split; [|eapply Hret].
    all: apply start_ok; try done; by subst l1.
Qed.

Lemma reset_returns_0_witness :
  let started :=
    snd (Loader.start 8
           (Loader.fresh 128 3072 1 1 4 1 true
              (replicate 14 true ++ [true; false]))) in
  exists l1 l',
    Loader.stop true started = (Loader.Ret tt, l1) /\
    Loader.start 8 (Loader.with_reader_pos 0 l1) = (Loader.Ret (-1), l') /\
    Loader.reset 8 true started = (Loader.Ret 0, l').
Proof.
  intros started.
  destruct (Loader.stop true started) as [r l1] eqn:Hstop.
  assert (r = Loader.Ret tt) as ->
    by (vm_compute in Hstop; by injection Hstop as <- _).
  destruct (proj1 (proj2 (reset_returns_0 8 true started l1 Hstop)))
    with (k := 1%nat) (h := @nil bool) as (l' & Hstart & Hreset).
  - split; unfold in_int; vm_compute; intuition discriminate.
  - lia.
  - lia.
  - vm_compute in Hstop. by injection Hstop as <-.
  - exists l1, l'. split; [reflexivity|]. split; [exact Hstart | exact Hreset].
Defined.

(** ** ReadThread: failure of the reader *)

Section read_failure.
Context {M : Media} {R : Reader}.
Variable p : DecodeThreadPool.Params.
Variable device_init : Z.
Import Pipeline.

Local Abbreviation step := (Pipeline.step p device_init).
Local Abbreviation exec := (Pipeline.exec p device_init).

(** The read stage is the only one to touch its own fields and the write
    cursor of the read pool. *)
Lemma step_reader_frame s ev s' :
  step s ev s' -> (forall res, ev <> EvRead res) ->
  readThread s' = readThread s /\ readThrown s' = readThrown s /\
  BufferPool.writePos (readBufs s') = BufferPool.writePos (readBufs s).
Proof.
  intros Hstep Hev. inversion Hstep; subst; try done.
  - by destruct (Hev res).
  - by destruct (BufferPool.empty out').
Qed.

Lemma step_read_needs_running s res s' :
  step s (EvRead res) s' ->
  ReadThread._done (readThread s) = false /\ readThrown s = false.
Proof. by inversion 1. Qed.

Lemma exec_after_failure s tr s' :
  exec s tr s' ->
  ReadThread._done (readThread s) = true ->
  (forall res, EvRead res ∉ tr) /\
  readThread s' = readThread s /\ readThrown s' = readThrown s /\
  BufferPool.writePos (readBufs s') = BufferPool.writePos (readBufs s).
Proof.
  intros Hexec Hdone. induction Hexec as [s|s tr s' ev s'' Hexec IH Hstep].
  - split; [|done]. intros res Hin. by apply elem_of_nil in Hin.
  - destruct (IH Hdone) as (Hno & Hrt & Hth & Hwp).
    assert (forall res, ev <> EvRead res) as Hev.
    { intros res ->. apply step_read_needs_running in Hstep as [Hd _].
      rewrite Hrt in Hd. congruence. }
    destruct (step_reader_frame _ _ _ Hstep Hev) as (Hrt' & Hth' & Hwp').
    split; [|by rewrite Hrt', Hth', Hwp'].
    intros res Hin. apply elem_of_app in Hin as [Hin|Hin].
    + by apply (Hno res).
    + apply list_elem_of_singleton in Hin. by apply (Hev res).
Qed.

End read_failure.

(** C8: when [reader.read] returns -1 in a step of the read stage, the
    stage sets [_done] and throws, the write cursor of the read pool is
    not advanced and the pool counts no new slot as filled, and in every
    continuation of the run the read stage takes no further step: no read
    is attempted again and the write cursor stays where it was. *)
Theorem read_failure_stops_stage {M : Media} {R : Reader}
    (p : DecodeThreadPool.Params) (device_init : Z)
    (s s' : Pipeline.state) (res : ReadThread.result) :
  Pipeline.step p device_init s (Pipeline.EvRead res) s' ->
  reader_read (ReadThread.reader_pos (Pipeline.readThread s)) = None ->
  res = ReadThread.Thrown /\
  ReadThread._done (Pipeline.readThread s') = true /\
  Pipeline.readThrown s' = true /\
  BufferPool.writePos (Pipeline.readBufs s')
    = BufferPool.writePos (Pipeline.readBufs s) /\
  BufferPool.used (Pipeline.readBufs s')
    = BufferPool.used (Pipeline.readBufs s) /\
  forall tr s'',
    Pipeline.exec p device_init s' tr s'' ->
    (forall res', Pipeline.EvRead res' ∉ tr) /\
    Pipeline.readThread s'' = Pipeline.readThread s' /\
    BufferPool.writePos (Pipeline.readBufs s'')
      = BufferPool.writePos (Pipeline.readBufs s).
Proof.
  intros Hstep Hread. inversion Hstep as [s0 rt' out' res0 Hd Ht Hm Hf Hp| | | | | | | | | | | | | | | |]; subst.
  unfold ReadThread.produce in Hp. rewrite Hread in Hp.
  injection Hp as <- <- <-. cbn.
  repeat split; try done.
  all: destruct (exec_after_failure p device_init _ _ _ H eq_refl)
         as (Hno & Hrt & _ & Hwp); try done.
Qed.

Lemma read_failure_stops_stage_witness :
  let s := @Pipeline.init DecodeThreadPool.tiny_params 2 2 in
  let s' :=
    Pipeline.set_readThrown true
      (Pipeline.set_readBufs (Pipeline.readBufs s)
         (Pipeline.set_readThread
            {| ReadThread._done := true; ReadThread.reader_pos := 1 |} s)) in
  ReadThread._done (Pipeline.readThread s') = true /\
  Pipeline.readThrown s' = true /\
  BufferPool.writePos (Pipeline.readBufs s')
  = BufferPool.writePos (Pipeline.readBufs s).
Proof.
  intros s s'.
  assert (@Pipeline.step DecodeThreadPool.zero_media Pipeline.failing_reader
            DecodeThreadPool.tiny_params 0 s
            (Pipeline.EvRead ReadThread.Thrown) s') as Hstep.
  { by apply (@Pipeline.step_read DecodeThreadPool.zero_media
                Pipeline.failing_reader). }
  destruct (@read_failure_stops_stage DecodeThreadPool.zero_media
              Pipeline.failing_reader DecodeThreadPool.tiny_params 0
              s s' ReadThread.Thrown Hstep eq_refl)
    as (_ & H1 & H2 & H3 & _).
  exact (conj H1 (conj H2 H3)).
Defined.

(** ** The fan-out barrier *)

Section barrier_facts.
Import DecodeThreadPool Pipeline Invariant.

Lemma finished_bounds ws ss : 0 <= finished ws ss <= Z.of_nat (length ws).
Proof.
  revert ss. induction ws as [|w ws IH]; intros [|v ss]; cbn; try lia.
  specialize (IH ss). unfold fin. destruct w; try case_decide; lia.
Qed.

Lemma finished_insert ws ss id w v w' v' :
  ws !! id = Some w -> ss !! id = Some v ->
  finished (<[id:=w']> ws) (<[id:=v']> ss)
  = finished ws ss - fin w v + fin w' v'.
Proof.
  revert ss id. induction ws as [|w0 ws IH]; intros [|v0 ss] [|id] Hw Hv;
    try done; cbn in *.
  - simplify_eq. lia.
  - erewrite IH by done. lia.
Qed.

Lemma finished_full ws ss :
  length ws = length ss -> Z.of_nat (length ws) <= finished ws ss ->
  forall id w v, ws !! id = Some w -> ss !! id = Some v -> w = WWait /\ v = 0.
Proof.
  revert ss. induction ws as [|w0 ws IH]; intros [|v0 ss] Hlen Hfull;
    try done; cbn in *.
  pose proof (finished_bounds ws ss) as Hb.
  assert (fin w0 v0 <= 1) as Hf1
    by (unfold fin; destruct w0; try case_decide; lia).
  intros [|id] w v Hw Hv; cbn in *.
  - simplify_eq. unfold fin in Hfull.
    destruct w; try lia. case_decide; [done | lia].
  - apply (IH ss) with id; [lia | lia | done | done].
Qed.

Lemma finished_signal ws (ss : list Z) :
  finished ws ((fun _ => 1) <$> ss) = 0.
Proof.
  revert ss. induction ws as [|w ws IH]; intros [|v ss]; cbn; try done.
  rewrite IH. unfold fin. destruct w; try done.
Qed.

Lemma alter_as_insert {A} (f : A -> A) (l : list A) i x :
  l !! i = Some x -> alter f i l = <[i := f x]> l.
Proof.
  intros Hx. apply list_eq. intros j.
  destruct (decide (i = j)) as [<-|Hne].
  - rewrite list_lookup_alter_eq, Hx. cbn.
    symmetry. apply list_lookup_insert_eq. by eapply lookup_lt_Some.
  - by rewrite list_lookup_alter_ne, list_lookup_insert_ne.
Qed.

End barrier_facts.

Section barrier_inv.
Context {M : Media} {R : Reader}.
Variable p : DecodeThreadPool.Params.
Variable device_init : Z.
Import DecodeThreadPool Pipeline Invariant.

Local Abbreviation step := (Pipeline.step p device_init).
Local Abbreviation exec := (Pipeline.exec p device_init).

Lemma barrier_inv_init nread ndecode :
  barrier_inv p (Pipeline.init p nread ndecode).
Proof.
  split; cbn.
  - apply length_replicate.
  - apply length_replicate.
  - intros id w v Hw Hv. apply lookup_replicate in Hw as [-> _].
    by apply lookup_replicate in Hv as [-> _].
  - done.
Qed.

(** Outside a round every worker waits with its signal at 0; so a worker
    that is not in that state witnesses a round. *)
Lemma barrier_inv_in_round s id w v :
  barrier_inv p s ->
  workers s !! id = Some w -> _startSignaled (pool s) !! id = Some v ->
  w <> WWait \/ v <> 0 ->
  manager s = MBarrier /\
  ((w = WWait /\ v = 1) \/ (w <> WWait /\ v = 0)).
Proof.
  intros Hinv Hw Hv Hne. pose proof (bi_round p s Hinv id w v Hw Hv) as Hr.
  case_decide; [split; [done|]|]; intuition congruence.
Qed.

(** A worker that moves within its round. *)
Lemma barrier_inv_worker s s' id w v w' v' :
  barrier_inv p s ->
  workers s !! id = Some w -> _startSignaled (pool s) !! id = Some v ->
  w <> WWait \/ v <> 0 ->
  (w' = WWait /\ (v' = 0 \/ v' = 1)) \/ (w' <> WWait /\ v' = 0) ->
  manager s' = manager s ->
  workers s' = <[id := w']> (workers s) ->
  _startSignaled (pool s') = <[id := v']> (_startSignaled (pool s)) ->
  _endSignaled (pool s') = _endSignaled (pool s) + fin w' v' ->
  barrier_inv p s'.
Proof.
  intros Hinv Hw Hv Hne Hnew Hm Hws Hss Hes.
  destruct (barrier_inv_in_round s id w v Hinv Hw Hv Hne) as [Hb Hcur].
  pose proof (bi_round p s Hinv) as Hr. pose proof (bi_end p s Hinv) as He.
  rewrite Hb in Hr, He. rewrite decide_True in He by done.
  split; rewrite ?Hm, ?Hws, ?Hss, ?Hes, ?Hb, ?length_insert.
  - apply Hinv.
  - apply Hinv.
  - intros id0 w0 v0 Hw0 Hv0. rewrite decide_True by done.
    destruct (decide (id = id0)) as [<-|Hne0].
    + rewrite list_lookup_insert_eq in Hw0 by by eapply lookup_lt_Some.
      rewrite list_lookup_insert_eq in Hv0 by by eapply lookup_lt_Some.
      by simplify_eq.
    + rewrite list_lookup_insert_ne in Hw0 by done.
      rewrite list_lookup_insert_ne in Hv0 by done.
      specialize (Hr id0 w0 v0 Hw0 Hv0). by rewrite decide_True in Hr by done.
  - rewrite decide_True by done.
    rewrite (finished_insert _ _ id w v) by done. rewrite He.
    assert (fin w v = 0) as ->; [|lia].
    unfold fin. destruct Hcur as [[-> ->]|[Hw' ->]]; [done|].
    by destruct w.
Qed.

(** A step that leaves the workers, their signals and the counter alone
    and does not enter or leave a round. *)
Lemma barrier_inv_frame s s' :
  barrier_inv p s ->
  workers s' = workers s ->
  _startSignaled (pool s') = _startSignaled (pool s) ->
  _endSignaled (pool s') = _endSignaled (pool s) ->
  (manager s' = MBarrier <-> manager s = MBarrier) ->
  barrier_inv p s'.
Proof.
  intros Hinv Hws Hss Hes Hm.
  pose proof (bi_round p s Hinv) as Hr. pose proof (bi_end p s Hinv) as He.
  split; rewrite ?Hws, ?Hss, ?Hes.
  - apply Hinv.
  - apply Hinv.
  - intros id w v Hw Hv. specialize (Hr id w v Hw Hv).
    repeat case_decide; tauto.
  - rewrite He. repeat case_decide; tauto.
Qed.

Lemma barrier_inv_step s ev s' :
  step s ev s' -> barrier_inv p s -> barrier_inv p s'.
Proof.
  intros Hstep Hinv.
  pose proof (bi_round p s Hinv) as Hr.
  pose proof (bi_end p s Hinv) as He.
  inversion Hstep; subst.
  - (* read *) apply (barrier_inv_frame s); done.
  - (* init *) apply (barrier_inv_frame s); try done. cbn. by rewrite H.
  - apply (barrier_inv_frame s); try done. cbn. by rewrite H.
  - (* take *) apply (barrier_inv_frame s); try done. cbn. by rewrite H.
  - (* signal *)
    rewrite H in Hr, He. rewrite decide_False in He by done.
    split; cbn; rewrite ?length_fmap; try apply Hinv.
    + intros id w v Hw Hv. apply list_lookup_fmap_Some in Hv as (v0 & -> & Hv).
      specialize (Hr id w v0 Hw Hv). rewrite decide_False in Hr by done.
      left. split; [apply Hr | by right].
    + by rewrite finished_signal.
  - (* reset *)
    rewrite H in Hr, He. rewrite decide_True in He by done.
    unfold barrier_open in H0. apply negb_true_iff, bool_decide_eq_false in H0.
    assert (forall id w v, workers s !! id = Some w ->
              _startSignaled (pool s) !! id = Some v -> w = WWait /\ v = 0)
      as Hall.
    { apply finished_full.
      - by rewrite (bi_workers p s Hinv), (bi_signals p s Hinv).
      - rewrite (bi_workers p s Hinv).
        pose proof (finished_bounds (workers s) (_startSignaled (pool s))).
        lia. }
    split; cbn; try apply Hinv; done.
  - (* copy *) apply (barrier_inv_frame s); try done. cbn. by rewrite H.
  - (* publish *) apply (barrier_inv_frame s); try done. cbn. by rewrite H.
  - (* release *) apply (barrier_inv_frame s); try done. cbn. by rewrite H.
  - (* start *)
    destruct (barrier_inv_in_round s id WWait v Hinv H H0 (or_intror H1))
      as [_ [[_ ->]|[? _]]]; [|done].
    eapply (barrier_inv_worker s _ id WWait 1 WStarted 0); try done; eauto.
    + cbn. by rewrite (alter_as_insert _ _ id 1).
    + cbn. lia.
  - (* setup *)
    destruct (lookup_lt_is_Some_2 (_startSignaled (pool s)) id) as [v Hv].
    { rewrite (bi_signals p s Hinv), <-(bi_workers p s Hinv).
      by eapply lookup_lt_Some. }
    destruct (barrier_inv_in_round s id WStarted v Hinv H Hv) as [_ Hc];
      [by left|].
    destruct Hc as [[? _]|[_ ->]]; [done|].
    eapply (barrier_inv_worker s _ id WStarted 0 _ 0); try done; eauto.
    + cbn. symmetry. by apply list_insert_id.
    + cbn. lia.
  - (* item *)
    destruct (lookup_lt_is_Some_2 (_startSignaled (pool s)) id) as [v Hv].
    { rewrite (bi_signals p s Hinv), <-(bi_workers p s Hinv).
      by eapply lookup_lt_Some. }
    destruct (barrier_inv_in_round s id (WLoop loc) v Hinv H Hv) as [_ Hc];
      [by left|].
    destruct Hc as [[? _]|[_ ->]]; [done|].
    eapply (barrier_inv_worker s _ id (WLoop loc) 0 _ 0); try done; eauto.
    + cbn. symmetry. by apply list_insert_id.
    + cbn. lia.
  - (* loop exit *)
    destruct (lookup_lt_is_Some_2 (_startSignaled (pool s)) id) as [v Hv].
    { rewrite (bi_signals p s Hinv), <-(bi_workers p s Hinv).
      by eapply lookup_lt_Some. }
    destruct (barrier_inv_in_round s id (WLoop loc) v Hinv H Hv) as [_ Hc];
      [by left|].
    destruct Hc as [[? _]|[_ ->]]; [done|].
    eapply (barrier_inv_worker s _ id (WLoop loc) 0 _ 0); try done; eauto.
    + cbn. symmetry. by apply list_insert_id.
    + cbn. lia.
  - (* end *)
    destruct (lookup_lt_is_Some_2 (_startSignaled (pool s)) id) as [v Hv].
    { rewrite (bi_signals p s Hinv), <-(bi_workers p s Hinv).
      by eapply lookup_lt_Some. }
    destruct (barrier_inv_in_round s id WDecoded v Hinv H Hv) as [_ Hc];
      [by left|].
    destruct Hc as [[? _]|[_ ->]]; [done|].
    eapply (barrier_inv_worker s _ id WDecoded 0 WWait 0); try done; eauto.
    cbn. symmetry. by apply list_insert_id.
  - (* next *)
    apply (barrier_inv_frame s); try done;
      by destruct (BufferPool.empty out').
  - apply (barrier_inv_frame s); done.
  - apply (barrier_inv_frame s); done.
Qed.

Lemma barrier_inv_exec nread ndecode tr s :
  exec (Pipeline.init p nread ndecode) tr s -> barrier_inv p s.
Proof.
  remember (Pipeline.init p nread ndecode) as s0 eqn:Hs0.
  induction 1 as [|s0 tr s' ev s'' Hexec IH Hstep].
  - subst. apply barrier_inv_init.
  - eapply barrier_inv_step; eauto.
Qed.

(** *** Runs *)

Lemma exec_snoc_inv s tr ev s' :
  exec s (tr ++ [ev]) s' -> exists sm, exec s tr sm /\ step sm ev s'.
Proof.
  intros Hexec. inversion Hexec; subst.
  - exfalso. match goal with H : [] = _ |- _ => symmetry in H;
      apply app_nil in H as [_ ?] end. done.
  - match goal with H : _ ++ [_] = _ ++ [_] |- _ =>
      apply app_inj_tail in H as [-> ->] end. eauto.
Qed.

Lemma exec_app_inv s tr1 tr2 s' :
  exec s (tr1 ++ tr2) s' -> exists sm, exec s tr1 sm /\ exec sm tr2 s'.
Proof.
  revert s'. induction tr2 as [|ev tr2 IH] using rev_ind; intros s' Hexec.
  - rewrite app_nil_r in Hexec. exists s'. split; [done | constructor].
  - rewrite app_assoc in Hexec.
    apply exec_snoc_inv in Hexec as (sm & Hexec' & Hstep).
    destruct (IH _ Hexec') as (sm' & H1 & H2).
    exists sm'. split; [done|]. by econstructor.
Qed.

Lemma exec_app s tr1 sm tr2 s' :
  exec s tr1 sm -> exec sm tr2 s' -> exec s (tr1 ++ tr2) s'.
Proof.
  intros H1 H2. induction H2 as [|sm tr2 s' ev s'' H2 IH Hstep].
  - by rewrite app_nil_r.
  - rewrite app_assoc. econstructor; eauto.
Qed.

Lemma exec_nil_inv s s' : exec s [] s' -> s' = s.
Proof.
  intros Hexec. inversion Hexec; subst; [done|].
  exfalso. match goal with H : _ ++ [_] = [] |- _ =>
    apply app_nil in H as [_ ?] end. done.
Qed.

Lemma exec_one_inv s ev s' : exec s [ev] s' -> step s ev s'.
Proof.
  intros Hexec. apply (exec_snoc_inv s [] ev s') in Hexec as (sm & H0 & Hs).
  by apply exec_nil_inv in H0 as ->.
Qed.

Lemma exec_one s ev s' : step s ev s' -> exec s [ev] s'.
Proof. intros. apply (exec_snoc _ _ s [] s); [constructor | done]. Qed.

Lemma barrier_inv_exec_from s tr s' :
  exec s tr s' -> barrier_inv p s -> barrier_inv p s'.
Proof.
  induction 1; [done|]. intros. eapply barrier_inv_step; eauto.
Qed.

(** *** What each step of the barrier sees *)

Lemma signal_step_facts s s' :
  barrier_inv p s -> step s EvSignal s' ->
  _startSignaled (pool s) = replicate (Z.to_nat (count p)) 0 /\
  _endSignaled (pool s) = 0 /\
  _startSignaled (pool s') = replicate (Z.to_nat (count p)) 1.
Proof.
  intros Hinv Hstep. inversion Hstep as [| | | |s0 Hm Hfull| | | | | | | | | | | |]; subst.
  pose proof (bi_round p s Hinv) as Hr. pose proof (bi_end p s Hinv) as He.
  rewrite Hm in Hr, He. rewrite decide_False in He by done.
  assert (_startSignaled (pool s) = replicate (Z.to_nat (count p)) 0) as Hss.
  { apply list_eq. intros id.
    rewrite <-(bi_signals p s Hinv).
    destruct (_startSignaled (pool s) !! id) as [v|] eqn:Hv.
    - destruct (lookup_lt_is_Some_2 (workers s) id) as [w Hw].
      { rewrite (bi_workers p s Hinv), <-(bi_signals p s Hinv).
        by eapply lookup_lt_Some. }
      specialize (Hr id w v Hw Hv). rewrite decide_False in Hr by done.
      destruct Hr as [_ ->]. symmetry. apply lookup_replicate_2.
      by eapply lookup_lt_Some.
    - symmetry. apply lookup_replicate_None. by apply lookup_ge_None. }
  split; [done|]. split; [done|]. cbn. rewrite Hss.
  by rewrite fmap_replicate.
Qed.

Lemma start_step_facts s id s' :
  barrier_inv p s -> step s (EvStart id) s' ->
  manager s = MBarrier /\
  _startSignaled (pool s) !! id = Some 1 /\
  _startSignaled (pool s') !! id = Some 0.
Proof.
  intros Hinv Hstep.
  inversion Hstep as [| | | | | | | | |s0 id0 v Hw Hv Hne| | | | | | |]; subst.
  destruct (barrier_inv_in_round s id WWait v Hinv Hw Hv (or_intror Hne))
    as [Hb [[_ ->]|[? _]]]; [|done].
  split; [done|]. split; [done|]. cbn.
  by rewrite list_lookup_alter_eq, Hv.
Qed.

Lemma item_step_facts s id i s' :
  barrier_inv p s -> step s (EvItem id i) s' ->
  manager s = MBarrier /\ _startSignaled (pool s) !! id = Some 0.
Proof.
  intros Hinv Hstep.
  inversion Hstep
    as [| | | | | | | | | | |s0 id0 loc src dst dst' loc' Hw| | | | |]; subst.
  destruct (lookup_lt_is_Some_2 (_startSignaled (pool s)) id) as [v Hv].
  { rewrite (bi_signals p s Hinv), <-(bi_workers p s Hinv).
    by eapply lookup_lt_Some. }
  destruct (barrier_inv_in_round s id (WLoop loc) v Hinv Hw Hv) as [Hb Hc];
    [by left|].
  by destruct Hc as [[? _]|[_ ->]].
Qed.

Lemma reset_step_facts s s' :
  0 <= count p ->
  barrier_inv p s -> step s EvReset s' ->
  _endSignaled (pool s) = count p /\ _endSignaled (pool s') = 0 /\
  forall id w v, workers s !! id = Some w ->
    _startSignaled (pool s) !! id = Some v -> w = WWait /\ v = 0.
Proof.
  intros HN Hinv Hstep.
  inversion Hstep as [| | | | |s0 Hm Hopen| | | | | | | | | | |]; subst.
  pose proof (bi_end p s Hinv) as He.
  rewrite Hm, decide_True in He by done.
  unfold barrier_open in Hopen.
  apply negb_true_iff, bool_decide_eq_false in Hopen.
  pose proof (finished_bounds (workers s) (_startSignaled (pool s))) as Hb.
  rewrite (bi_workers p s Hinv) in Hb.
  split; [lia|]. split; [done|].
  apply finished_full.
  - by rewrite (bi_workers p s Hinv), (bi_signals p s Hinv).
  - rewrite (bi_workers p s Hinv). lia.
Qed.

(** *** Order of the events of a round *)

(** Once a worker has consumed its start signal, the signal stays at 0
    until the manager gets past the barrier. *)
Lemma round_keeps_signal s mid s' id :
  exec s mid s' -> barrier_inv p s ->
  manager s = MBarrier -> _startSignaled (pool s) !! id = Some 0 ->
  EvReset ∈ mid \/
  (manager s' = MBarrier /\ _startSignaled (pool s') !! id = Some 0).
Proof.
  intros Hexec Hinv Hm Hv.
  induction Hexec as [s|s tr s' ev s'' Hexec IH Hstep]; [by right|].
  destruct (IH Hinv Hm Hv) as [Hin|[Hm' Hv']].
  { left. apply elem_of_app. by left. }
  inversion Hstep; subst; cbn;
    try (right; split; [done|done]); try congruence.
  - left. apply elem_of_app. right. by apply list_elem_of_singleton.
  - right. split; [done|].
    destruct (decide (id0 = id)) as [->|Hne]; [congruence|].
    by rewrite list_lookup_alter_ne.
  - right. by destruct (BufferPool.empty out').
Qed.

(** Within a round, a worker waits with its signal consumed only after it
    has signalled completion; the manager gets past the barrier only when
    every worker has. *)
Lemma round_collects_ends s mid s' :
  0 <= count p ->
  exec s mid s' -> barrier_inv p s -> manager s = MBarrier ->
  (forall id w v, workers s !! id = Some w ->
     _startSignaled (pool s) !! id = Some v -> fin w v = 0) ->
  (EvReset ∈ mid /\ forall id, (id < Z.to_nat (count p))%nat -> EvEnd id ∈ mid)
  \/
  (manager s' = MBarrier /\
   forall id w v, workers s' !! id = Some w ->
     _startSignaled (pool s') !! id = Some v -> fin w v = 1 ->
     EvEnd id ∈ mid).
Proof.
  intros HN Hexec Hinv Hm Hnone.
  induction Hexec as [s|s tr s' ev s'' Hexec IH Hstep].
  { right. split; [done|]. intros id w v Hw Hv Hf.
    rewrite (Hnone id w v Hw Hv) in Hf. lia. }
  pose proof (barrier_inv_exec_from _ _ _ Hexec Hinv) as Hinv'.
  destruct (IH Hinv Hm Hnone) as [[Hin Hall]|[Hm' Hfin]].
  { left. split; [apply elem_of_app; by left|].
    intros id Hid. apply elem_of_app. left. by apply Hall. }
  assert (forall id w v, workers s' !! id = Some w ->
            _startSignaled (pool s') !! id = Some v -> fin w v = 1 ->
            EvEnd id ∈ tr ++ [ev]) as Hfin'.
  { intros id w v Hw Hv Hf. apply elem_of_app. left. by eapply Hfin. }
  assert (forall (id0 : nat) w0 w' (ss' : list Z) id w v,
            workers s' !! id0 = Some w0 -> w' <> WWait ->
            (forall id, id <> id0 ->
               ss' !! id = _startSignaled (pool s') !! id) ->
            <[id0:=w']> (workers s') !! id = Some w ->
            ss' !! id = Some v ->
            fin w v = 1 -> EvEnd id ∈ tr ++ [ev]) as Hworker.
  { intros id0 w0 w' ss' id w v Hw0 Hw' Hss' Hw Hv Hf.
    destruct (decide (id = id0)) as [->|Hne].
    - rewrite list_lookup_insert_eq in Hw by by eapply lookup_lt_Some.
      simplify_eq. by destruct w.
    - rewrite list_lookup_insert_ne in Hw by done.
      rewrite Hss' in Hv by done. by eapply Hfin'. }
  inversion Hstep; subst; cbn;
    try (right; split; [done|exact Hfin']); try congruence.
  - (* reset *)
    destruct (reset_step_facts s' _ HN Hinv' Hstep) as (_ & _ & Hall).
    left. split; [apply elem_of_app; right; by apply list_elem_of_singleton|].
    intros id Hid.
    destruct (lookup_lt_is_Some_2 (workers s') id) as [w Hw];
      [by rewrite (bi_workers p s' Hinv')|].
    destruct (lookup_lt_is_Some_2 (_startSignaled (pool s')) id) as [v Hv];
      [by rewrite (bi_signals p s' Hinv')|].
    destruct (Hall id w v Hw Hv) as [-> ->]. by eapply Hfin'.
  - (* start *)
    right. split; [done|]. intros id0 w v0 Hw Hv Hf.
    eapply (Hworker id _ WStarted
              (alter (fun v => v - 1) id (_startSignaled (pool s'))));
      eauto.
    intros id1 Hne. by rewrite list_lookup_alter_ne.
  - (* setup *)
    right. split; [done|]. intros id0 w v0 Hw Hv Hf.
    by eapply (Hworker id _ (WLoop _)).
  - (* item *)
    right. split; [done|]. intros id0 w v0 Hw Hv Hf.
    by eapply (Hworker id _ (WLoop _)).
  - (* loop exit *)
    right. split; [done|]. intros id0 w v0 Hw Hv Hf.
    by eapply (Hworker id _ WDecoded).
  - (* end *)
    right. split; [done|]. intros id0 w v0 Hw Hv Hf.
    destruct (decide (id0 = id)) as [->|Hne].
    + apply elem_of_app. right. by apply list_elem_of_singleton.
    + rewrite list_lookup_insert_ne in Hw by done. by eapply Hfin'.
  - right. by destruct (BufferPool.empty out').
Qed.

(** A worker is past its wait, or waits with its signal consumed, only
    after it has consumed a start signal. *)
Lemma round_needs_start s mid s' :
  exec s mid s' -> barrier_inv p s ->
  (forall id w v, workers s !! id = Some w ->
     _startSignaled (pool s) !! id = Some v -> w = WWait /\ v = 1) ->
  forall id w v, workers s' !! id = Some w ->
    _startSignaled (pool s') !! id = Some v ->
    w <> WWait \/ v = 0 -> EvStart id ∈ mid.
Proof.
  intros Hexec Hinv Hall.
  induction Hexec as [s|s tr s' ev s'' Hexec IH Hstep].
  { intros id w v Hw Hv Hc. destruct (Hall id w v Hw Hv) as [-> ->].
    destruct Hc; [done | lia]. }
  specialize (IH Hinv Hall).
  pose proof (barrier_inv_exec_from _ _ _ Hexec Hinv) as Hinv'.
  assert (forall id w v, workers s' !! id = Some w ->
            _startSignaled (pool s') !! id = Some v ->
            w <> WWait \/ v = 0 -> EvStart id ∈ tr ++ [ev]) as IH'.
  { intros id w v Hw Hv Hc. apply elem_of_app. left. by eapply IH. }
  assert (forall (id0 : nat) w0 w' id w v,
            workers s' !! id0 = Some w0 -> w0 <> WWait ->
            <[id0:=w']> (workers s') !! id = Some w ->
            _startSignaled (pool s') !! id = Some v ->
            w <> WWait \/ v = 0 ->
            EvStart id ∈ tr ++ [ev]) as Hworker.
  { intros id0 w0 w' id w v Hw0 Hne0 Hw Hv Hc.
    destruct (decide (id = id0)) as [->|Hne].
    - eapply IH'; eauto.
    - rewrite list_lookup_insert_ne in Hw by done. eapply IH'; eauto. }
  inversion Hstep; subst; cbn; try exact IH'.
  - (* signal *)
    intros id w v Hw Hv Hc.
    apply list_lookup_fmap_Some in Hv as (v0 & -> & Hv).
    destruct Hc as [Hc|Hc]; [|lia]. eapply IH'; eauto.
  - (* start *)
    intros id0 w v0 Hw Hv Hc. destruct (decide (id0 = id)) as [->|Hne].
    + apply elem_of_app. right. by apply list_elem_of_singleton.
    + rewrite list_lookup_insert_ne in Hw by done.
      rewrite list_lookup_alter_ne in Hv by done. eapply IH'; eauto.
  - intros id0 w v0 Hw Hv Hc. by eapply (Hworker id WStarted).
  - intros id0 w v0 Hw Hv Hc. by eapply (Hworker id (WLoop loc)).
  - intros id0 w v0 Hw Hv Hc. by eapply (Hworker id (WLoop loc)).
  - intros id0 w v0 Hw Hv Hc. by eapply (Hworker id WDecoded).
  - by destruct (BufferPool.empty out').
Qed.

End barrier_inv.

(** The barrier in the runs of the pipeline:
    - when the manager signals the start of a round, every start signal
      was 0 and the completion counter was 0, and it sets every start
      signal to exactly 1;
    - a worker that consumes its start signal finds it at 1 and leaves it
      at 0, and it decodes an item only with its signal consumed;
    - the manager gets past the barrier only with the completion counter
      equal to [count], and resets it to 0;
    - between two consumptions of the start signal by the same worker the
      manager has got past the barrier and reset the counter;
    - between two start signals of the manager every worker has signalled
      completion and the manager has reset the counter;
    - between a start signal of the manager and the decoding of an item by
      a worker, that worker has consumed a start signal. *)
Lemma barrier_rounds {M : Media} {R : Reader}
    (p : DecodeThreadPool.Params) (device_init nread ndecode : Z)
    (tr : list Pipeline.event) (s : Pipeline.state) :
  0 <= DecodeThreadPool.count p ->
  Pipeline.exec p device_init (Pipeline.init p nread ndecode) tr s ->
  let N := Z.to_nat (DecodeThreadPool.count p) in
  let signals st := DecodeThreadPool._startSignaled (Pipeline.pool st) in
  let ended st := DecodeThreadPool._endSignaled (Pipeline.pool st) in
  (forall s',
     Pipeline.step p device_init s Pipeline.EvSignal s' ->
     signals s = replicate N 0 /\ ended s = 0 /\ signals s' = replicate N 1)
  /\
  (forall id s',
     Pipeline.step p device_init s (Pipeline.EvStart id) s' ->
     signals s !! id = Some 1 /\ signals s' !! id = Some 0) /\
  (forall id i s',
     Pipeline.step p device_init s (Pipeline.EvItem id i) s' ->
     signals s !! id = Some 0) /\
  (forall s',
     Pipeline.step p device_init s Pipeline.EvReset s' ->
     ended s = DecodeThreadPool.count p /\ ended s' = 0) /\
  (forall pre mid post id,
     tr = pre ++ [Pipeline.EvStart id] ++ mid ++ [Pipeline.EvStart id] ++ post
     -> Pipeline.EvReset ∈ mid) /\
  (forall pre mid post,
     tr = pre ++ [Pipeline.EvSignal] ++ mid ++ [Pipeline.EvSignal] ++ post ->
     Pipeline.EvReset ∈ mid /\
     forall id, (id < N)%nat -> Pipeline.EvEnd id ∈ mid) /\
  (forall pre mid post id i,
     tr = pre ++ [Pipeline.EvSignal] ++ mid ++ [Pipeline.EvItem id i] ++ post
     -> Pipeline.EvStart id ∈ mid).
Proof.
  intros HN Hexec N signals ended.
  pose proof (barrier_inv_exec p device_init nread ndecode tr s Hexec) as Hinv.
  split; [|split; [|split; [|split; [|split; [|split]]]]].
  - intros s' Hstep. by apply (signal_step_facts p device_init).
  - intros id s' Hstep.
    by destruct (start_step_facts p device_init s id s' Hinv Hstep)
      as (_ & ? & ?).
  - intros id i s' Hstep.
    by destruct (item_step_facts p device_init s id i s' Hinv Hstep).
  - intros s' Hstep.
    by destruct (reset_step_facts p device_init s s' HN Hinv Hstep)
      as (? & ? & _).
  - intros pre mid post id ->.
    apply exec_app_inv in Hexec as (s1 & Hpre & Hexec).
    apply exec_app_inv in Hexec as (s2 & Hst1 & Hexec).
    apply exec_app_inv in Hexec as (s3 & Hmid & Hexec).
    apply exec_app_inv in Hexec as (s4 & Hst2 & _).
    apply exec_one_inv in Hst1, Hst2.
    pose proof (barrier_inv_exec p device_init _ _ _ _ Hpre) as Hinv1.
    pose proof (barrier_inv_step p device_init _ _ _ Hst1 Hinv1) as Hinv2.
    pose proof (barrier_inv_exec_from p device_init _ _ _ Hmid Hinv2) as Hinv3.
    destruct (start_step_facts p device_init s1 id s2 Hinv1 Hst1)
      as (Hb1 & _ & Hv2).
    assert (Pipeline.manager s2 = Pipeline.MBarrier) as Hb2.
    { inversion Hst1; subst; cbn. done. }
    destruct (round_keeps_signal p device_init s2 mid s3 id Hmid Hinv2 Hb2 Hv2)
      as [Hin|[_ Hv3]]; [done|].
    destruct (start_step_facts p device_init s3 id s4 Hinv3 Hst2)
      as (_ & Hv3' & _).
    congruence.
  - intros pre mid post ->.
    apply exec_app_inv in Hexec as (s1 & Hpre & Hexec).
    apply exec_app_inv in Hexec as (s2 & Hst1 & Hexec).
    apply exec_app_inv in Hexec as (s3 & Hmid & Hexec).
    apply exec_app_inv in Hexec as (s4 & Hst2 & _).
    apply exec_one_inv in Hst1, Hst2.
    pose proof (barrier_inv_exec p device_init _ _ _ _ Hpre) as Hinv1.
    pose proof (barrier_inv_step p device_init _ _ _ Hst1 Hinv1) as Hinv2.
    destruct (signal_step_facts p device_init s1 s2 Hinv1 Hst1)
      as (_ & _ & Hss2).
    assert (Pipeline.manager s2 = Pipeline.MBarrier) as Hb2.
    { inversion Hst1; subst; cbn. done. }
    destruct (round_collects_ends p device_init s2 mid s3 HN Hmid Hinv2 Hb2)
      as [Hdone|[Hb3 _]]; [|done|].
    + intros id w v Hw Hv. rewrite Hss2 in Hv.
      apply lookup_replicate in Hv as [-> _].
      unfold Invariant.fin. destruct w; try done.
    + inversion Hst2; subst. congruence.
  - intros pre mid post id i ->.
    apply exec_app_inv in Hexec as (s1 & Hpre & Hexec).
    apply exec_app_inv in Hexec as (s2 & Hst1 & Hexec).
    apply exec_app_inv in Hexec as (s3 & Hmid & Hexec).
    apply exec_app_inv in Hexec as (s4 & Hst2 & _).
    apply exec_one_inv in Hst1, Hst2.
    pose proof (barrier_inv_exec p device_init _ _ _ _ Hpre) as Hinv1.
    pose proof (barrier_inv_step p device_init _ _ _ Hst1 Hinv1) as Hinv2.
    pose proof (barrier_inv_exec_from p device_init _ _ _ Hmid Hinv2) as Hinv3.
    destruct (signal_step_facts p device_init s1 s2 Hinv1 Hst1)
      as (_ & _ & Hss2).
    destruct (item_step_facts p device_init s3 id i s4 Hinv3 Hst2)
      as (_ & Hv3).
    inversion Hst2
      as [| | | | | | | | | | |s0 id0 loc src dst dst' loc' Hw| | | | |]; subst.
    eapply (round_needs_start p device_init s2 mid s3 Hmid Hinv2); eauto.
    intros id0 w v Hw0 Hv0.
    pose proof (Invariant.bi_round p s2 Hinv2 id0 w v Hw0 Hv0) as Hr.
    rewrite Hss2 in Hv0. apply lookup_replicate in Hv0 as [-> _].
    case_decide; [destruct Hr as [[-> ?]|[? ?]]|destruct Hr]; try done; lia.
Qed.

(** ** Arithmetic of the cursors *)

Lemma mod_succ a n : 0 < n -> (a `mod` n + 1) `mod` n = (a + 1) `mod` n.
Proof. intros. by rewrite Zplus_mod_idemp_l. Qed.

Lemma mod_apart a b n : 0 < n -> 0 < b - a < n -> a `mod` n <> b `mod` n.
Proof.
  intros Hn Hab Heq.
  pose proof (Z.div_mod a n ltac:(lia)) as Ha.
  pose proof (Z.div_mod b n ltac:(lia)) as Hb.
  pose proof (Z.mod_pos_bound a n Hn). pose proof (Z.mod_pos_bound b n Hn).
  assert (b - a = n * (b `div` n - a `div` n)) as Hd by lia.
  assert (0 < b `div` n - a `div` n) by nia.
  nia.
Qed.

Lemma flip_mod2 n :
  (if decide (n `mod` 2 = 0) then 1 else 0) = (n + 1) `mod` 2.
Proof.
  rewrite <-mod_succ by lia.
  pose proof (Z.mod_pos_bound n 2 ltac:(lia)) as Hb.
  case_decide as Hn.
  - by rewrite Hn.
  - by replace (n `mod` 2) with 1 by lia.
Qed.

(** ** Regions of a fixed-stride buffer *)

Lemma slice_memcpy_same dst i L src :
  0 <= i -> 0 <= L -> Z.of_nat (length src) = L ->
  (i + 1) * L <= Z.of_nat (length dst) ->
  slice (memcpy dst (i * L) src L) (i * L) L = src.
Proof.
  intros Hi HL Hsrc Hfit. assert (0 <= i * L) by nia.
  apply list_eq. intros k. rewrite lookup_slice by lia.
  destruct (decide (Z.of_nat k < L)) as [Hk|Hk].
  - rewrite memcpy_lookup_inside by lia. f_equal. lia.
  - symmetry. apply lookup_ge_None. lia.
Qed.

Lemma slice_memcpy_other dst i j L src :
  0 <= i -> 0 <= j -> i <> j -> 0 <= L ->
  slice (memcpy dst (i * L) src L) (j * L) L = slice dst (j * L) L.
Proof.
  intros Hi Hj Hne HL. assert (0 <= i * L) by nia. assert (0 <= j * L) by nia.
  apply list_eq. intros k. rewrite !lookup_slice by lia.
  destruct (decide (Z.of_nat k < L)) as [Hk|Hk]; [|done].
  apply memcpy_lookup_outside; [lia | lia |]. nia.
Qed.

(** A buffer all of whose regions are known is their concatenation. *)
Lemma regions_concat_nat {A} (f : Z -> list A) (L : Z) (m : nat) :
  0 <= L -> forall buf : list A,
  Z.of_nat (length buf) = Z.of_nat m * L ->
  (forall j, 0 <= j < Z.of_nat m -> slice buf (j * L) L = f j) ->
  buf = concat (map f (seqZ 0 (Z.of_nat m))).
Proof.
  intros HL. induction m as [|m IH]; intros buf Hlen Hreg.
  - cbn. destruct buf; [done | cbn in Hlen; lia].
  - rewrite seqZ_S, map_app, concat_app. cbn.
    rewrite app_nil_r.
    rewrite <-(take_drop (Z.to_nat (Z.of_nat m * L)) buf) at 1. f_equal.
    + apply IH.
      * rewrite length_take. nia.
      * intros j Hj. rewrite <-Hreg by lia.
        assert (0 <= j * L) by nia.
        apply list_eq. intros k. rewrite !lookup_slice by lia.
        case_decide; [|done]. apply lookup_take_lt. nia.
    + rewrite <-Hreg by lia. unfold slice. symmetry. apply take_ge.
      rewrite length_drop. nia.
Qed.

Lemma regions_concat {A} (buf : list A) (f : Z -> list A) (n L : Z) :
  0 <= n -> 0 <= L -> Z.of_nat (length buf) = n * L ->
  (forall j, 0 <= j < n -> slice buf (j * L) L = f j) ->
  buf = concat (map f (seqZ 0 n)).
Proof.
  intros Hn HL Hlen Hreg. rewrite <-(Z2Nat.id n) in * by done.
  by apply (regions_concat_nat f L).
Qed.

(** ** One iteration of the worker's loop *)

Section work_facts.
Context {M : Media}.
Variable p : DecodeThreadPool.Params.
Hypothesis Hmedia : media_ok p.
Hypothesis HdL : 0 <= DecodeThreadPool.datumLen p.
Hypothesis HtL : 0 <= DecodeThreadPool.targetLen p.
Import DecodeThreadPool Invariant.

Lemma item_len_default (item : option (list byte)) :
  item_len item = Z.of_nat (length (default [] item)).
Proof. by destruct item. Qed.

Lemma transform_meta_data id encDatum encDatumLen encTarget encTargetLen
      datumBuf targetBuf metaPtr dst :
  data (transform_meta p id encDatum encDatumLen encTarget encTargetLen
          datumBuf targetBuf metaPtr dst)
  = memcpy (data dst) datumBuf
      (media_transform id encDatum encDatumLen (datumLen p)).1 (datumLen p).
Proof.
  unfold transform_meta. by destruct (media_transform _ _ _ _) as [dec scalar].
Qed.

Lemma slice_targets_meta_same id encDatum encDatumLen encTarget
      datumBuf metaPtr dst i :
  0 <= i -> (i + 1) * targetLen p <= Z.of_nat (length (targets dst)) ->
  slice (targets (transform_meta p id encDatum encDatumLen encTarget
                    (Z.of_nat (length encTarget)) datumBuf
                    (i * targetLen p) metaPtr dst))
        (i * targetLen p) (targetLen p)
  = fixed_target p encTarget.
Proof.
  intros Hi Hfit. assert (0 <= i * targetLen p) by nia.
  apply list_eq. intros k. rewrite lookup_slice by lia.
  destruct (decide (Z.of_nat k < targetLen p)) as [Hk|Hk].
  - rewrite transform_meta_targets by lia.
    rewrite decide_True by lia. f_equal. lia.
  - symmetry. apply lookup_ge_None. rewrite fixed_target_length. lia.
Qed.

Lemma slice_targets_meta_other id encDatum encDatumLen encTarget
      datumBuf metaPtr dst i j :
  0 <= i -> 0 <= j -> i <> j ->
  (i + 1) * targetLen p <= Z.of_nat (length (targets dst)) ->
  slice (targets (transform_meta p id encDatum encDatumLen encTarget
                    (Z.of_nat (length encTarget)) datumBuf
                    (i * targetLen p) metaPtr dst))
        (j * targetLen p) (targetLen p)
  = slice (targets dst) (j * targetLen p) (targetLen p).
Proof.
  intros Hi Hj Hne Hfit.
  assert (0 <= i * targetLen p) by nia. assert (0 <= j * targetLen p) by nia.
  apply list_eq. intros k. rewrite !lookup_slice by lia.
  destruct (decide (Z.of_nat k < targetLen p)) as [Hk|Hk]; [|done].
  rewrite transform_meta_targets by lia.
  rewrite decide_False; [done|]. nia.
Qed.

Lemma work_item_spec id loc src dst dst' loc' :
  work_item p id loc src dst = Some (dst', loc') ->
  0 <= w_i loc < batchSize p ->
  w_datumBuf loc = w_i loc * datumLen p ->
  w_targetBuf loc = w_i loc * targetLen p ->
  sized p dst ->
  item_ok p src dst' (w_i loc) /\
  (forall j, 0 <= j -> j <> w_i loc ->
     slice (data dst') (j * datumLen p) (datumLen p)
       = slice (data dst) (j * datumLen p) (datumLen p) /\
     slice (targets dst') (j * targetLen p) (targetLen p)
       = slice (targets dst) (j * targetLen p) (targetLen p)) /\
  sized p dst' /\
  w_i loc' = w_i loc + 1 /\ w_end loc' = w_end loc /\
  w_datumBuf loc' = w_datumBuf loc + datumLen p /\
  w_targetBuf loc' = w_targetBuf loc + targetLen p /\
  w_metaBuf loc' = w_metaBuf loc + 1 /\
  w_dst loc' = w_dst loc /\ w_src loc' = w_src loc.
Proof.
  intros Hwork Hi Hdb Htb [Hsd Hst]. unfold work_item in Hwork.
  destruct (getItem (enc_data src) (w_i loc)) as [datum|] eqn:Hdatum; [|done].
  injection Hwork as <- <-. cbn [w_i w_end w_datumBuf w_targetBuf w_metaBuf
                                  w_dst w_src].
  rewrite Hdb, Htb.
  assert ((w_i loc + 1) * datumLen p <= Z.of_nat (length (data dst)))
    as Hfd by nia.
  assert ((w_i loc + 1) * targetLen p <= Z.of_nat (length (targets dst)))
    as Hft by nia.
  unfold item_ok, decode_item, sized. rewrite Hdatum. cbn [default].
  destruct (decide (targetConversion p = READ_CONTENTS p)) as [Hrc|Hrc].
  - (* joint *)
    unfold transform_joint. rewrite (media_joint_uniform p Hmedia).
    pose proof (media_joint_fills p Hmedia 0 datum (item_len (Some datum))
                  (default [] (getItem (enc_targets src) (w_i loc)))
                  (item_len (getItem (enc_targets src) (w_i loc))))
      as [Hl1 Hl2].
    destruct (media_transform_joint _ _ _ _ _ _ _) as [dec tgt].
    cbn [fst snd] in *. cbn [data targets].
    split; [split|split; [|split]].
    + apply slice_memcpy_same; lia.
    + apply slice_memcpy_same; lia.
    + intros j Hj Hne. split; apply slice_memcpy_other; lia.
    + by rewrite !memcpy_length.
    + repeat split; lia.
  - (* raw copy *)
    rewrite item_len_default with (item := getItem (enc_targets src) _).
    rewrite transform_meta_data, transform_meta_targets_length.
    rewrite <-(media_uniform p Hmedia id).
    pose proof (media_fills p Hmedia id datum (item_len (Some datum))) as Hl.
    cbn [item_len fst snd] in *. unfold Datatypes.id in *.
    split; [split|split; [|split]].
    + apply slice_memcpy_same; lia.
    + apply slice_targets_meta_same; lia.
    + intros j Hj Hne. split.
      * apply slice_memcpy_other; lia.
      * apply slice_targets_meta_other; lia.
    + by rewrite memcpy_length.
    + repeat split; lia.
Qed.

End work_facts.

(** ** Transposition and the device *)

Lemma length_concat_const {A B} (f : A -> list B) (l : list A) (c : nat) :
  (forall y, y ∈ l -> length (f y) = c) ->
  length (concat (map f l)) = (length l * c)%nat.
Proof.
  induction l as [|y l IH]; intros Hc; cbn; [done|].
  rewrite length_app, Hc by apply list_elem_of_here.
  rewrite IH; [done|]. intros y' Hy'. apply Hc. by apply list_elem_of_further.
Qed.

Lemma transpose_length x B D e :
  0 <= B -> 0 <= D -> 0 <= e -> Z.of_nat (length x) = B * (D * e) ->
  Z.of_nat (length (transpose x B D e)) = B * (D * e).
Proof.
  intros HB HD He Hlen. unfold transpose.
  rewrite (length_concat_const _ _ (Z.to_nat (B * e))).
  - rewrite length_seqZ, Nat2Z.inj_mul, !Z2Nat.id by nia. nia.
  - intros j Hj. apply elem_of_seqZ in Hj.
    rewrite (length_concat_const _ _ (Z.to_nat e)).
    + rewrite length_seqZ. apply Nat2Z.inj.
      rewrite Nat2Z.inj_mul, !Z2Nat.id by nia. nia.
    + intros i Hi. apply elem_of_seqZ in Hi.
      assert (0 <= i * D + j) by nia.
      assert (i * D + j + 1 <= B * D) by nia.
      apply slice_length; nia.
Qed.

(** *** Transposing twice *)

Lemma map_seqZ_ext {A} (f g : Z -> A) (m n : Z) :
  (forall j, m <= j < m + n -> f j = g j) ->
  map f (seqZ m n) = map g (seqZ m n).
Proof.
  intros Hfg. apply map_ext_in. intros j Hj. apply Hfg.
  apply list_elem_of_In, elem_of_seqZ in Hj. lia.
Qed.

Lemma slice_app_l {A} (a b : list A) off n :
  0 <= off -> 0 <= n -> off + n <= Z.of_nat (length a) ->
  slice (a ++ b) off n = slice a off n.
Proof.
  intros Hoff Hn Hlen. apply list_eq. intros k.
  rewrite !lookup_slice by done. case_decide; [|done].
  apply lookup_app_l. lia.
Qed.

Lemma slice_app_r {A} (a b : list A) off n :
  0 <= off -> 0 <= n ->
  slice (a ++ b) (Z.of_nat (length a) + off) n = slice b off n.
Proof.
  intros Hoff Hn. apply list_eq. intros k.
  rewrite !lookup_slice by lia. case_decide; [|done].
  rewrite lookup_app_r by lia. f_equal. lia.
Qed.

Lemma slice_slice {A} (x : list A) a L b n :
  0 <= a -> 0 <= b -> 0 <= n -> b + n <= L ->
  slice (slice x a L) b n = slice x (a + b) n.
Proof.
  intros Ha Hb Hn HL. apply list_eq. intros k.
  rewrite !lookup_slice by lia. case_decide; [|done].
  rewrite decide_True by lia. f_equal. lia.
Qed.

Lemma slice_all {A} (x : list A) n :
  length x = Z.to_nat n -> slice x 0 n = x.
Proof. intros Hlen. unfold slice. cbn. apply take_ge. lia. Qed.

(** In a concatenation of blocks of one size, a region inside block [j]
    is that region of the block. *)
Lemma slice_concat_blocks {A} (f : Z -> list A) (c : Z) (m : nat) :
  0 <= c ->
  (forall j, 0 <= j < Z.of_nat m -> length (f j) = Z.to_nat c) ->
  forall j o n, 0 <= j < Z.of_nat m -> 0 <= o -> 0 <= n -> o + n <= c ->
  slice (concat (map f (seqZ 0 (Z.of_nat m)))) (j * c + o) n
  = slice (f j) o n.
Proof.
  intros Hc. induction m as [|m IH]; intros Hlen j o n Hj Ho Hn Hon; [lia|].
  rewrite seqZ_S, map_app, concat_app. cbn. rewrite app_nil_r.
  assert (length (concat (map f (seqZ 0 (Z.of_nat m))))
          = (m * Z.to_nat c)%nat) as Hpre.
  { rewrite (length_concat_const _ _ (Z.to_nat c)).
    - by rewrite length_seqZ, Nat2Z.id.
    - intros y Hy. apply elem_of_seqZ in Hy. apply Hlen. lia. }
  destruct (decide (j = Z.of_nat m)) as [->|Hne].
  - replace (Z.of_nat m * c + o)
      with (Z.of_nat (length (concat (map f (seqZ 0 (Z.of_nat m))))) + o)
      by (rewrite Hpre; nia).
    by apply slice_app_r.
  - rewrite slice_app_l by (rewrite ?Hpre; nia).
    apply IH; [|lia|done..]. intros j' Hj'. apply Hlen. lia.
Qed.

Lemma slice_concat_blocksZ {A} (f : Z -> list A) (c m : Z) :
  0 <= c -> 0 <= m ->
  (forall j, 0 <= j < m -> length (f j) = Z.to_nat c) ->
  forall j o n, 0 <= j < m -> 0 <= o -> 0 <= n -> o + n <= c ->
  slice (concat (map f (seqZ 0 m))) (j * c + o) n = slice (f j) o n.
Proof.
  intros Hc Hm. rewrite <-(Z2Nat.id m) by done.
  by apply slice_concat_blocks.
Qed.

(** Transposing back recovers the buffer: the transposition only moves the
    elements. *)
Lemma transpose_transpose (x : list byte) B D e :
  0 <= B -> 0 <= D -> 0 <= e -> Z.of_nat (length x) = B * (D * e) ->
  transpose (transpose x B D e) D B e = x.
Proof.
  intros HB HD He Hlen. symmetry.
  apply (regions_concat x _ B (D * e)); [done|nia|done|].
  intros j Hj. symmetry.
  assert (length (slice x (j * (D * e)) (D * e)) = Z.to_nat (D * e)) as Hrow.
  { apply slice_length; nia. }
  rewrite (regions_concat (slice x (j * (D * e)) (D * e))
             (fun i => slice x ((j * D + i) * e) e) D e); [|done|done|..].
  - f_equal. apply map_seqZ_ext. intros i Hi. unfold transpose.
    replace ((i * B + j) * e) with (i * (B * e) + j * e) by lia.
    rewrite slice_concat_blocksZ; [|nia|done| |lia|nia|lia|nia].
    + replace (j * e) with (j * e + 0) by lia.
      rewrite slice_concat_blocksZ; [|done|done| |lia|lia|lia|lia].
      * rewrite slice_all; [done|]. apply slice_length; nia.
      * intros j' Hj'. apply slice_length; nia.
    + intros i' Hi'. rewrite (length_concat_const _ _ (Z.to_nat e)).
      * rewrite length_seqZ. nia.
      * intros j' Hj'. apply elem_of_seqZ in Hj'. apply slice_length; nia.
  - rewrite Hrow. nia.
  - intros i Hi. rewrite slice_slice by nia. f_equal. lia.
Qed.

Section device_facts.
Import Device.

Lemma device_copy_length slot d t m (dev : Device.t) :
  length (copyMeta slot m (copyLabels slot t (copyData slot d dev)))
  = length dev.
Proof. unfold copyMeta, copyLabels, copyData. by rewrite !length_alter. Qed.

Lemma device_copy_same slot d t m (dev : Device.t) :
  (Z.to_nat slot < length dev)%nat ->
  copyMeta slot m (copyLabels slot t (copyData slot d dev)) !! Z.to_nat slot
  = Some {| data := d; targets := t; meta := m |}.
Proof.
  intros Hlt. unfold copyMeta, copyLabels, copyData.
  rewrite !list_lookup_alter_eq.
  destruct (lookup_lt_is_Some_2 dev _ Hlt) as [tup ->]. done.
Qed.

Lemma device_copy_other slot d t m (dev : Device.t) (k : nat) :
  k <> Z.to_nat slot ->
  copyMeta slot m (copyLabels slot t (copyData slot d dev)) !! k = dev !! k.
Proof.
  intros Hne. unfold copyMeta, copyLabels, copyData.
  by rewrite !list_lookup_alter_ne.
Qed.

End device_facts.

(** ** The invariant holds in every run *)

Section pipeline_inv.
Context {M : Media} {R : Reader}.
Variable p : DecodeThreadPool.Params.
Variables device_init nread ndecode : Z.
Hypothesis Hcfg : config_ok p nread ndecode.
Hypothesis Hmedia : media_ok p.
Import DecodeThreadPool Pipeline Invariant.

Local Abbreviation step := (Pipeline.step p device_init).
Local Abbreviation exec := (Pipeline.exec p device_init).
Local Abbreviation pinv := (pipeline_inv p nread ndecode).

Lemma datumLen_nonneg : 0 <= datumLen p.
Proof. destruct Hcfg. unfold datumLen. nia. Qed.

Lemma targetLen_nonneg : 0 <= targetLen p.
Proof. destruct Hcfg. unfold targetLen. nia. Qed.

Lemma pipeline_inv_init : pinv (Pipeline.init p nread ndecode).
Proof.
  pose proof datumLen_nonneg. pose proof targetLen_nonneg.
  destruct Hcfg. split; cbn; try done; try lia.
  - by rewrite length_replicate.
  - by rewrite length_replicate.
  - intros tup Htup. apply elem_of_replicate in Htup as [-> _].
    unfold sized. cbn. rewrite !length_replicate.
    unfold datumLen, targetLen. nia.
Qed.

(** When every worker has finished its round, the write slot holds the
    single-threaded decode of the input minibatch. *)
Lemma all_items_decoded s dst :
  barrier_inv p s ->
  (forall (id : nat) w v, workers s !! id = Some w ->
     _startSignaled (pool s) !! id = Some v -> w = WWait /\ v = 0) ->
  round_ok p s ->
  BufferPool.getForWrite (decodeBufs s) = Some dst -> sized p dst ->
  (data dst, targets dst) = single_decode p (batch_of (published s)).
Proof.
  intros Hbar Hall Hround Hdst [Hsd Hst].
  pose proof datumLen_nonneg as HdL. pose proof targetLen_nonneg as HtL.
  destruct Hcfg as [HB HN Hasserts HD Hd HT Ht HR HS].
  assert (forall j, 0 <= j < batchSize p ->
            item_ok p (batch_of (published s)) dst j) as Hitems.
  { intros j Hj.
    destruct (partition_covers_guarded _ _ HB HN Hasserts) as (Hcov & _ & _).
    apply Hcov in Hj as (id & Hid & Hin). apply elem_of_work_items in Hin.
    destruct (lookup_lt_is_Some_2 (workers s) (Z.to_nat id)) as [w Hw];
      [rewrite (bi_workers p s Hbar); lia|].
    destruct (lookup_lt_is_Some_2 (_startSignaled (pool s)) (Z.to_nat id))
      as [v Hv]; [rewrite (bi_signals p s Hbar); lia|].
    destruct (Hall _ _ _ Hw Hv) as [-> ->].
    destruct (Hround _ _ _ Hw Hv) as [_ Hj'].
    rewrite Z2Nat.id in Hj' by lia.
    destruct (Hj' j Hin) as (dst' & Hdst' & Hok).
    - unfold items_done. rewrite decide_True by done. lia.
    - congruence. }
  unfold single_decode. f_equal.
  - apply regions_concat with (L := datumLen p); try lia.
    intros j Hj. by destruct (Hitems j Hj).
  - apply regions_concat with (L := targetLen p); try lia.
    intros j Hj. by destruct (Hitems j Hj).
Qed.

(** A worker moves on without writing: the round stays in order provided
    its new locals are right and its bound does not grow. *)
Lemma round_ok_frame s s' id w0 v0 w' v' :
  round_ok p s ->
  workers s !! id = Some w0 -> _startSignaled (pool s) !! id = Some v0 ->
  workers s' = <[id:=w']> (workers s) ->
  _startSignaled (pool s') !! id = Some v' ->
  (forall k, k <> id ->
     _startSignaled (pool s') !! k = _startSignaled (pool s) !! k) ->
  decodeBufs s' = decodeBufs s -> readBufs s' = readBufs s ->
  published s' = published s ->
  locals_ok p s' (Z.of_nat id) w' ->
  (forall j,
     startInd (batchSize p) (count p) (Z.of_nat id) <= j
       < endInd (batchSize p) (count p) (Z.of_nat id) ->
     j < items_done p (Z.of_nat id) w' v' ->
     j < items_done p (Z.of_nat id) w0 v0) ->
  round_ok p s'.
Proof.
  intros Hround Hw0 Hv0 Hws Hv' Hss Hdb Hrb Hpub Hloc Hdone k w v Hw Hv.
  rewrite Hws in Hw. rewrite Hdb, Hpub.
  destruct (decide (k = id)) as [->|Hne].
  - rewrite list_lookup_insert_eq in Hw by by eapply lookup_lt_Some.
    simplify_eq. split; [done|]. intros j Hj Hlt.
    destruct (Hround id w0 v0 Hw0 Hv0) as [_ Hitems]. apply Hitems; auto.
  - rewrite list_lookup_insert_ne in Hw by done. rewrite Hss in Hv by done.
    destruct (Hround k w v Hw Hv) as [Hl Hitems]. split; [|done].
    unfold locals_ok in *. destruct w; try done. by rewrite Hdb, Hrb.
Qed.

Ltac inv_open Hinv :=
  destruct Hinv as [Hic Hil Hiu Hib Hir Hiw Hif Hit Hth
                    Hoc Hol How Hou Hob Hor Hos Hpub Hidx
                    Hfirst Hret Hheld Hdl Hds Hdc Hobs Hround Hdec];
  unfold reads_ok, consumed, released in *.

Lemma pipeline_inv_step s ev s' :
  step s ev s' -> barrier_inv p s -> pinv s -> pinv s'.
Proof.
  intros Hstep Hbar Hinv.
  pose proof datumLen_nonneg as HdL. pose proof targetLen_nonneg as HtL.
  destruct Hcfg as [HB HN Hasserts HD Hd HT Ht HR HS].
  inversion Hstep; subst.
  - (* read *)
    inv_open Hinv.
    match goal with H : ReadThread.produce _ _ = _ |- _ =>
      unfold ReadThread.produce in H;
      destruct (reader_read (ReadThread.reader_pos (readThread s)))
        as [bufs|] eqn:Hread; injection H as <- <- <- end.
    + match goal with H : readThrown s = false |- _ => rewrite H in * end.
      match goal with H : BufferPool.full _ = false |- _ =>
        apply bool_decide_eq_false in H; rename H into Hfull end.
      assert (0 <= Z.of_nat (ReadThread.reader_pos (readThread s)) `mod` nread
              < nread) as Hwr by (apply Z.mod_pos_bound; lia).
      split; unfold reads_ok, consumed, released; cbn in *;
        try done; try lia; try congruence.
      * by rewrite length_insert.
      * rewrite Hiw, Hic, mod_succ by lia. f_equal. lia.
      * intros j Hj. rewrite Hiw.
        destruct (decide (j = ReadThread.reader_pos (readThread s)))
          as [->|Hne].
        -- rewrite Nat.sub_0_r. rewrite list_lookup_insert_eq by lia.
           unfold batch_of. by rewrite Hread.
        -- rewrite list_lookup_insert_ne.
           ++ apply Hif. lia.
           ++ intros Heq. apply Z2Nat.inj in Heq;
                [|apply Z.mod_pos_bound; lia|apply Z.mod_pos_bound; lia].
              symmetry in Heq. revert Heq. apply mod_apart; lia.
    + match goal with H : readThrown s = false |- _ => rewrite H in * end.
      split; unfold reads_ok, consumed, released; cbn in *;
        try done; try lia; try congruence.
  - (* init, device ready *)
    inv_open Hinv.
    match goal with H : manager s = _ |- _ => rewrite H in * end.
    split; unfold reads_ok, consumed, released; cbn in *;
      try done; try lia; try congruence.
  - (* init, device failed *)
    inv_open Hinv.
    match goal with H : manager s = _ |- _ => rewrite H in * end.
    split; unfold reads_ok, consumed, released; cbn in *;
      try done; try lia; try congruence.
  - (* take *)
    inv_open Hinv.
    match goal with H : manager s = _ |- _ => rewrite H in * end.
    match goal with H : BufferPool.empty _ = false |- _ =>
      apply bool_decide_eq_false in H; rename H into Hne end.
    split; unfold reads_ok, consumed, released; cbn in *;
      try done; try lia; try congruence.
    intros _. split; [lia | done].
  - (* signal *)
    inv_open Hinv.
    match goal with H : manager s = _ |- _ => rewrite H in * end.
    match goal with H : BufferPool.full _ = false |- _ =>
      apply bool_decide_eq_false in H; rename H into Hfull end.
    split; unfold reads_ok, consumed, released; cbn in *;
      try done; try lia; try congruence.
    + intros _. destruct (Hit eq_refl) as [? Hib2].
      split; [done | intros _; by apply Hib2].
    + intros _ id w v Hw Hv.
      apply list_lookup_fmap_Some in Hv as (v0 & -> & Hv).
      pose proof (bi_round p s Hbar id w v0 Hw Hv) as Hr.
      match goal with H : manager s = _ |- _ => rewrite H in Hr end.
      rewrite decide_False in Hr by done. destruct Hr as [-> ->].
      split; [done|]. intros j Hj Hlt. unfold items_done in Hlt.
      rewrite decide_False in Hlt by lia. lia.
  - (* reset *)
    inv_open Hinv.
    pose proof (reset_step_facts p device_init s _ ltac:(lia) Hbar Hstep)
      as (_ & _ & Hall).
    match goal with H : manager s = _ |- _ => rewrite H in * end.
    split; unfold reads_ok, consumed, released; cbn in *;
      try done; try lia; try congruence.
    + intros _. destruct (Hit eq_refl) as [? Hib2].
      split; [done | intros _; by apply Hib2].
    + intros _.
      destruct (lookup_lt_is_Some_2 (BufferPool.bufs (decodeBufs s))
                  (Z.to_nat (BufferPool.writePos (decodeBufs s))))
        as [dst Hdst]; [lia|].
      exists dst. split; [done|].
      eapply (all_items_decoded s); eauto.
      apply Hos. by eapply list_elem_of_lookup_2.
  - (* copy *)
    inv_open Hinv.
    match goal with H : manager s = _ |- _ => rewrite H in * end.
    split; unfold reads_ok, consumed, released; cbn in *;
      try done; try lia; try congruence.
    + intros _. destruct (Hit eq_refl) as [? Hib2].
      split; [done | intros _; by apply Hib2].
    + by rewrite length_insert.
    + intros tup0 Htup0. apply list_elem_of_lookup in Htup0 as [k Hk].
      apply list_lookup_insert_Some in Hk as [(_ & <- & _)|[_ Hk]].
      * match goal with H : BufferPool.getForWrite _ = Some tup |- _ =>
          apply list_elem_of_lookup_2, Hos in H; destruct H as [Hsd Hst] end.
        split; cbn; apply transpose_length; try lia; by unfold sized in *.
      * apply Hos. by eapply list_elem_of_lookup_2.
    + by rewrite device_copy_length.
    + intros j Hj. specialize (Hor eq_refl).
      assert (0 <= Z.of_nat j `mod` 2 < 2) by (apply Z.mod_pos_bound; lia).
      assert (0 <= Z.of_nat (published s) `mod` 2 < 2)
        by (apply Z.mod_pos_bound; lia).
      destruct (Hds j Hj) as (tup1 & Htup1 & Himg).
      exists tup1. split; [|done]. subst slot.
      rewrite device_copy_other; [done|]. rewrite Hidx.
      intros Heq. apply Z2Nat.inj in Heq; [|lia|lia].
      revert Heq. apply mod_apart; lia.
    + intros _. subst slot data' targets'.
      assert (0 <= Z.of_nat (published s) `mod` 2 < 2)
        by (apply Z.mod_pos_bound; lia).
      eexists. split; [apply device_copy_same; lia|]. cbn.
      destruct (Hdec eq_refl) as (dst & Hdst & Himg).
      match goal with H : BufferPool.getForWrite _ = Some tup |- _ =>
        rewrite H in Hdst; injection Hdst as <- end.
      unfold device_image. rewrite <-Himg. done.
  - (* publish *)
    inv_open Hinv.
    match goal with H : manager s = _ |- _ => rewrite H in * end.
    split; unfold reads_ok, consumed, released; cbn in *;
      try done; try lia; try congruence.
    + intros _. destruct (Hit eq_refl) as [? _]. split; [lia | done].
    + rewrite Hoc. apply Z.mod_pos_bound. lia.
    + rewrite Hidx, flip_mod2. f_equal. lia.
    + intros j Hj. destruct (decide (j = published s)) as [->|Hne].
      * rewrite <-Hidx. by apply Hdc.
      * apply Hds. lia.
  - (* release *)
    inv_open Hinv.
    match goal with H : manager s = _ |- _ => rewrite H in * end.
    split; unfold reads_ok, consumed, released; cbn in *;
      try done; try lia; try congruence.
    + specialize (Hpub eq_refl). lia.
    + specialize (Hpub eq_refl). rewrite Hir, Hic, mod_succ by lia.
      f_equal. lia.
    + intros j Hj. apply Hif. lia.
  - (* start *)
    inv_open Hinv.
    destruct (start_step_facts p device_init s id _ Hbar Hstep)
      as (Hm & Hv1 & _).
    split; unfold reads_ok, consumed, released; cbn in *;
      rewrite ?Hm in *; try done; try lia; try congruence.
    intros _.
    match goal with
    | Hw : workers s !! id = Some WWait |- _ =>
        eapply (round_ok_frame s _ id WWait 1 WStarted 0); eauto; cbn
    end.
    + by rewrite list_lookup_alter_eq, Hv1.
    + intros k Hk. by rewrite list_lookup_alter_ne.
    + done.
  - (* setup *)
    inv_open Hinv.
    destruct (lookup_lt_is_Some_2 (_startSignaled (pool s)) id) as [v Hv].
    { rewrite (bi_signals p s Hbar), <-(bi_workers p s Hbar).
      by eapply lookup_lt_Some. }
    match goal with
    | Hw : workers s !! id = Some WStarted |- _ =>
        destruct (barrier_inv_in_round p s id WStarted v Hbar Hw Hv) as [Hm Hc];
          [by left|]; rename Hw into Hw0
    end.
    destruct Hc as [[? _]|[_ ->]]; [done|].
    split; unfold reads_ok, consumed, released; cbn in *;
      rewrite ?Hm in *; try done; try lia; try congruence.
    intros _.
    eapply (round_ok_frame s _ id WStarted 0 (WLoop _) 0); eauto; cbn.
    destruct (Hit eq_refl) as [_ Hin]. rewrite Hin in * by done.
    simplify_eq. repeat split; try done; lia.
  - (* item *)
    inv_open Hinv.
    destruct (item_step_facts p device_init s id _ _ Hbar Hstep) as (Hm & Hv).
    rewrite Hm in *.
    match goal with
    | Hw : workers s !! id = Some (WLoop loc) |- _ =>
        destruct (Hround eq_refl id (WLoop loc) 0 Hw Hv)
          as [(Hld & Hls & Hle & Hli & Hpd & Hpt & Hpm) Hmine];
          rename Hw into Hw0
    end.
    destruct (partition_covers_guarded _ _ HB HN Hasserts)
      as (Hcov & Hdisj & _).
    assert (0 <= w_i loc < batchSize p) as Hrange.
    { apply Hcov. exists (Z.of_nat id). split.
      - apply lookup_lt_Some in Hw0. rewrite (bi_workers p s Hbar) in Hw0. lia.
      - apply elem_of_work_items. lia. }
    match goal with
    | Hd : BufferPool.bufs (decodeBufs s) !! _ = Some dst |- _ =>
        pose proof (Hos dst (list_elem_of_lookup_2 _ _ _ Hd)) as Hsz;
          rename Hd into Hdst
    end.
    match goal with
    | Hwk : work_item _ _ _ _ _ = Some _ |- _ =>
        destruct (work_item_spec p Hmedia HdL HtL _ _ _ _ _ _
                    Hwk Hrange Hpd Hpt Hsz)
          as (Hnew & Hold & Hsz' & Hi' & He' & Hd' & Ht' & Hm' & Hdst'
              & Hsrc')
    end.
    split; unfold reads_ok, consumed, released; cbn in *;
      rewrite ?Hm in *; try done; try lia; try congruence.
    + by rewrite length_insert.
    + intros tup Htup. apply list_elem_of_lookup in Htup as [k Hk].
      apply list_lookup_insert_Some in Hk as [(_ & <- & _)|[_ Hk]]; [done|].
      apply Hos. by eapply list_elem_of_lookup_2.
    + intros _.
      assert (src = batch_of (published s)) as ->.
      { destruct (Hit eq_refl) as [Hlt _].
        match goal with
        | Hs : BufferPool.bufs (readBufs s) !! _ = Some src |- _ =>
            rewrite Hls, Hir, Nat.sub_0_r, Hif in Hs by lia; by injection Hs
        end. }
      assert (BufferPool.getForWrite
                (BufferPool.store (w_dst loc) dst' (decodeBufs s))
              = Some dst') as Hget.
      { unfold BufferPool.getForWrite. cbn. rewrite Hld.
        apply list_lookup_insert_eq. lia. }
      assert (forall j, 0 <= j -> j <> w_i loc ->
                item_ok p (batch_of (published s)) dst j ->
                item_ok p (batch_of (published s)) dst' j) as Hkeep.
      { intros j Hj Hne [Hjd Hjt]. destruct (Hold j Hj Hne) as [Hod Hot].
        split; congruence. }
      assert (forall (k : nat) w j, workers s !! k = Some w ->
                startInd (batchSize p) (count p) (Z.of_nat k) <= j
                  < endInd (batchSize p) (count p) (Z.of_nat k) ->
                0 <= j < batchSize p) as Hin.
      { intros k w j Hw Hj. apply Hcov. exists (Z.of_nat k). split.
        - apply lookup_lt_Some in Hw. rewrite (bi_workers p s Hbar) in Hw.
          lia.
        - by apply elem_of_work_items. }
      intros k w v Hw Hvk. cbn in Hw, Hvk |- *.
      destruct (decide (k = id)) as [->|Hne].
      * rewrite list_lookup_insert_eq in Hw by by eapply lookup_lt_Some.
        simplify_eq. split.
        -- cbn. repeat split; try congruence; lia.
        -- intros j Hj Hlt. exists dst'. split; [done|]. cbn in Hlt.
           destruct (decide (j = w_i loc)) as [->|Hnj]; [done|].
           destruct (Hmine j Hj) as (dst0 & Hdst0 & Hok); [cbn; lia|].
           unfold BufferPool.getForWrite in Hdst0. rewrite <-Hld in Hdst0.
           simplify_eq. apply Hkeep; [|done|done].
           by destruct (Hin id _ j Hw0 Hj).
      * rewrite list_lookup_insert_ne in Hw by done.
        destruct (Hround eq_refl k w v Hw Hvk) as [Hlk Hitems]. split.
        -- unfold locals_ok in *. by destruct w.
        -- intros j Hj Hlt. exists dst'. split; [done|].
           destruct (Hitems j Hj Hlt) as (dst0 & Hdst0 & Hok).
           unfold BufferPool.getForWrite in Hdst0. rewrite <-Hld in Hdst0.
           simplify_eq. apply Hkeep; [| |done].
           ++ by destruct (Hin k _ j Hw Hj).
           ++ intros ->. apply Hne. apply Nat2Z.inj.
              apply (Hdisj (Z.of_nat k) (Z.of_nat id) (w_i loc)).
              ** apply lookup_lt_Some in Hw.
                 rewrite (bi_workers p s Hbar) in Hw. lia.
              ** apply lookup_lt_Some in Hw0.
                 rewrite (bi_workers p s Hbar) in Hw0. lia.
              ** by apply elem_of_work_items.
              ** apply elem_of_work_items. lia.
  - (* loop exit *)
    inv_open Hinv.
    destruct (lookup_lt_is_Some_2 (_startSignaled (pool s)) id) as [v Hv].
    { rewrite (bi_signals p s Hbar), <-(bi_workers p s Hbar).
      by eapply lookup_lt_Some. }
    match goal with
    | Hw : workers s !! id = Some (WLoop loc) |- _ =>
        destruct (barrier_inv_in_round p s id _ v Hbar Hw Hv) as [Hm Hc];
          [by left|]; rename Hw into Hw0
    end.
    destruct Hc as [[? _]|[_ ->]]; [done|].
    split; unfold reads_ok, consumed, released; cbn in *;
      rewrite ?Hm in *; try done; try lia; try congruence.
    intros _.
    destruct (Hround eq_refl id (WLoop loc) 0 Hw0 Hv)
      as [(_ & _ & Hle & _) _].
    eapply (round_ok_frame s _ id (WLoop loc) 0 WDecoded 0); eauto; cbn;
      [done|].
    intros j Hj _. lia.
  - (* end *)
    inv_open Hinv.
    destruct (lookup_lt_is_Some_2 (_startSignaled (pool s)) id) as [v Hv].
    { rewrite (bi_signals p s Hbar), <-(bi_workers p s Hbar).
      by eapply lookup_lt_Some. }
    match goal with
    | Hw : workers s !! id = Some WDecoded |- _ =>
        destruct (barrier_inv_in_round p s id _ v Hbar Hw Hv) as [Hm Hc];
          [by left|]; rename Hw into Hw0
    end.
    destruct Hc as [[? _]|[_ ->]]; [done|].
    split; unfold reads_ok, consumed, released; cbn in *;
      rewrite ?Hm in *; try done; try lia; try congruence.
    intros _.
    eapply (round_ok_frame s _ id WDecoded 0 WWait 0); eauto; cbn;
      try done.
  - (* next *)
    inv_open Hinv.
    match goal with H : trainer s = TReady |- _ =>
      rewrite H in *; rename H into Htr end.
    match goal with H : out_mutex_free _ = true |- _ => rename H into Hfree end.
    match goal with H : next_enter _ _ = _ |- _ =>
      unfold next_enter in H; destruct (first s) eqn:Hf;
        injection H as <- <- <- end.
    + (* the first call: nothing to release *)
      destruct (proj1 Hfirst eq_refl) as [Hc0 _]. rewrite Hc0 in *.
      destruct (BufferPool.empty (decodeBufs s)) eqn:He.
      * split; unfold reads_ok, consumed, released; cbn in *;
          rewrite ?Htr, ?Hc0, ?Hf in *; try done; try lia; try congruence.
        split; [done | by intros [_ ?]].
      * apply bool_decide_eq_false in He.
        split; unfold reads_ok, consumed, released; cbn in *;
          rewrite ?Htr, ?Hc0, ?Hf in *; try done; try lia; try congruence.
    + (* a later call: the previous minibatch is released *)
      assert (1 <= calls s)%nat as Hc1.
      { destruct (calls s) eqn:Hc; [|lia].
        assert (false = true); [|done]. by apply Hfirst. }
      specialize (Hheld ltac:(done) Hc1).
      destruct (BufferPool.empty (BufferPool.advanceReadPos (decodeBufs s)))
        eqn:He.
      * apply bool_decide_eq_true in He.
        split; unfold reads_ok, consumed, released; cbn in *;
          rewrite ?Htr, ?Hf in *; try done; try lia; try congruence.
      * apply bool_decide_eq_false in He.
        split; unfold reads_ok, consumed, released; cbn in *;
          rewrite ?Htr, ?Hf in *; try done; try lia; try congruence.
        intros j Hj. apply Hds. lia.
  - (* next, woken *)
    inv_open Hinv.
    match goal with H : trainer s = TWaiting |- _ =>
      rewrite H in *; rename H into Htr end.
    match goal with H : BufferPool.empty _ = false |- _ =>
      apply bool_decide_eq_false in H; rename H into Hne end.
    split; unfold reads_ok, consumed, released; cbn in *;
      rewrite ?Htr in *; try done; try lia; try congruence.
    + split; [intros Hf; by apply Hfirst in Hf as [_ ?] | by intros [? _]].
    + intros j Hj. apply Hds. lia.
  - (* observe *)
    inv_open Hinv.
    match goal with H : trainer s = TReturned |- _ =>
      rewrite H in *; rename H into Htr end.
    specialize (Hret eq_refl). specialize (Hheld ltac:(done) Hret).
    split; unfold reads_ok, consumed, released; cbn in *;
      rewrite ?Htr in *; try done; try lia; try congruence.
    + split; [intros Hf; by apply Hfirst in Hf as [_ ?] | intros [? _]; lia].
    + rewrite Hobs.
      replace (calls s - 0)%nat with (S (calls s - 1)) by lia.
      rewrite seq_S, fmap_app. f_equal. cbn. f_equal.
      destruct (Hds (calls s - 1)%nat ltac:(lia)) as (tup & Htup & Himg).
      subst bufIdx. rewrite Z.rem_mod_nonneg by lia.
      unfold Device.copyDataBack, Device.copyLabelsBack.
      rewrite Htup. cbn. done.
Qed.

Lemma pipeline_inv_exec tr s :
  exec (Pipeline.init p nread ndecode) tr s ->
  barrier_inv p s /\ pinv s.
Proof.
  remember (Pipeline.init p nread ndecode) as s0 eqn:Hs0.
  induction 1 as [|s0 tr s' ev s'' Hexec IH Hstep].
  - subst. split; [apply barrier_inv_init | apply pipeline_inv_init].
  - destruct (IH Hs0) as [Hb Hp]. split.
    + by eapply barrier_inv_step.
    + by eapply pipeline_inv_step.
Qed.

End pipeline_inv.

(** ** Running the pipeline on concrete inputs *)

Section fire_facts.
Context {M : Media} {R : Reader}.
Variable p : DecodeThreadPool.Params.
Variable device_init : Z.
Import DecodeThreadPool Pipeline.

Local Abbreviation step := (Pipeline.step p device_init).
Local Abbreviation exec := (Pipeline.exec p device_init).
Local Abbreviation fire := (Pipeline.fire p device_init).
Local Abbreviation run := (Pipeline.run p device_init).

Lemma fire_sound ev s s' : fire ev s = Some s' -> step s ev s'.
Proof.
  intros Hfire. destruct ev; cbn in Hfire.
  - (* read *)
    destruct (negb _ && negb _ && _ && negb _) eqn:Hg; [|done].
    apply andb_true_iff in Hg as [Hg Hfull].
    apply andb_true_iff in Hg as [Hg Hfree].
    apply andb_true_iff in Hg as [Hdone Hthrown].
    apply negb_true_iff in Hfull, Hdone, Hthrown.
    destruct (ReadThread.produce _ _) as [[rt' out'] res'] eqn:Hp.
    destruct (Bool.eqb _ _) eqn:Hres; [|done].
    apply Bool.eqb_prop in Hres.
    assert (res = res') as -> by (by destruct res, res').
    injection Hfire as <-. by constructor.
  - destruct (manager s) eqn:Hm; try done. case_decide; simplify_eq.
    + by apply step_init_ok.
    + by apply step_init_fail.
  - destruct (manager s) eqn:Hm; try done.
    destruct (negb _ && negb _) eqn:Hg; [|done].
    apply andb_true_iff in Hg as [Hs He]. apply negb_true_iff in Hs, He.
    simplify_eq. by constructor.
  - destruct (manager s) eqn:Hm; try done.
    destruct (negb _) eqn:Hg; [|done]. apply negb_true_iff in Hg.
    simplify_eq. by constructor.
  - destruct (manager s) eqn:Hm; try done.
    destruct (barrier_open _ _) eqn:Hg; [|done].
    simplify_eq. by constructor.
  - destruct (manager s) eqn:Hm; try done.
    destruct (BufferPool.getForWrite _) as [tup|] eqn:Hw; [|done].
    case_decide; [|done]. simplify_eq. by apply step_copy.
  - destruct (manager s) eqn:Hm; try done. simplify_eq. by constructor.
  - destruct (manager s) eqn:Hm; try done. simplify_eq. by constructor.
  - destruct (workers s !! id) as [[| | |]|] eqn:Hw; try done.
    destruct (_startSignaled (pool s) !! id) as [v|] eqn:Hv; [|done].
    case_decide; [done|]. simplify_eq. by econstructor.
  - destruct (workers s !! id) as [[| | |]|] eqn:Hw; try done.
    destruct (_inputBuf (pool s)) as [src|] eqn:Hi; [|done].
    simplify_eq. by constructor.
  - destruct (workers s !! id) as [[| |loc|]|] eqn:Hw; try done.
    case_decide as Hc; [|done]. destruct Hc as [Hlt ->].
    destruct (BufferPool.bufs (readBufs s) !! _) as [src|] eqn:Hs; [|done].
    destruct (BufferPool.bufs (decodeBufs s) !! _) as [dst|] eqn:Hd; [|done].
    destruct (work_item _ _ _ _ _) as [[dst' loc']|] eqn:Hwk; [|done].
    simplify_eq. by econstructor.
  - destruct (workers s !! id) as [[| |loc|]|] eqn:Hw; try done.
    case_decide; [done|]. simplify_eq. by econstructor.
  - destruct (workers s !! id) as [[| | |]|] eqn:Hw; try done.
    simplify_eq. by constructor.
  - destruct (trainer s) eqn:Ht; try done.
    destruct (out_mutex_free _) eqn:Hf; [|done].
    destruct (next_enter _ _) as [[first' out'] signalled'] eqn:Hn.
    destruct (Bool.eqb signalled _ && Bool.eqb returned _) eqn:Hg; [|done].
    apply andb_true_iff in Hg as [Hs Hr].
    apply Bool.eqb_prop in Hs, Hr. subst. injection Hfire as <-.
    by apply step_next.
  - destruct (trainer s) eqn:Ht; try done.
    destruct (out_mutex_free _ && negb _) eqn:Hg; [|done].
    apply andb_true_iff in Hg as [Hf He]. apply negb_true_iff in He.
    simplify_eq. by constructor.
  - destruct (trainer s) eqn:Ht; try done.
    case_decide; [|done]. simplify_eq. by apply step_observe.
Qed.

Lemma exec_cons s ev s1 tr s' :
  step s ev s1 -> exec s1 tr s' -> exec s (ev :: tr) s'.
Proof.
  intros Hstep Hexec. change (ev :: tr) with ([ev] ++ tr).
  eapply exec_app; [|done]. by apply exec_one.
Qed.

Lemma run_sound tr s s' : run tr s = Some s' -> exec s tr s'.
Proof.
  revert s. induction tr as [|ev tr IH]; intros s Hrun; cbn in Hrun.
  - injection Hrun as <-. constructor.
  - destruct (Pipeline.fire p device_init ev s) as [s1|] eqn:Hfire; [|done].
    eapply exec_cons; [by apply fire_sound | by apply IH].
Qed.

End fire_facts.

(** ** Shutdown *)

Section shutdown_facts.
Context {M : Media} {R : Reader}.
Variable p : DecodeThreadPool.Params.
Variable device_init : Z.
Variables nread ndecode : Z.
Import DecodeThreadPool Pipeline.

Local Abbreviation sstep := (Shutdown.step p device_init).
Local Abbreviation sexec := (Shutdown.exec p device_init).
Local Abbreviation sinit := (Shutdown.init p nread ndecode).

Lemma shutdown_fire_sound ev s s' :
  Shutdown.fire p device_init ev s = Some s' -> sstep s ev s'.
Proof.
  unfold Shutdown.fire. intros H. cbv zeta in H.
  destruct ev as [e| | | | | | |id| | | |].
  { destruct (Shutdown.allowed e s) eqn:Ha; [|done].
    destruct (Pipeline.fire p device_init e (Shutdown.base s)) as [b'|] eqn:Hf;
      [|done].
    injection H as <-. constructor; [by apply fire_sound | done]. }
  all: repeat case_match; simplify_eq.
  all: repeat match goal with
         | H : _ && _ = true |- _ => apply andb_prop in H as [? ?]
         | H : negb _ = true |- _ => apply negb_true_iff in H
         | H : bool_decide _ = true |- _ => apply bool_decide_eq_true in H
         | H : _ || _ = true |- _ => apply orb_prop in H as [?|?]
         end.
  all: constructor; try done; try congruence.
  all: first [ by eapply bool_decide_eq_false_1
             | left; by split
             | right; split; [done|]; first [by left | by right] ].
Qed.

Lemma shutdown_exec_cons s ev s1 tr s' :
  sstep s ev s1 -> sexec s1 tr s' -> sexec s (ev :: tr) s'.
Proof.
  intros Hstep Hexec. induction Hexec as [s1|s1 tr s2 ev' s3 Hexec IH Hstep'].
  - change [ev] with ([] ++ [ev]). eapply Shutdown.exec_snoc; [constructor|done].
  - change (ev :: tr ++ [ev']) with ((ev :: tr) ++ [ev']).
    eapply Shutdown.exec_snoc; [by apply IH | done].
Qed.

Lemma shutdown_run_sound tr s s' :
  Shutdown.run p device_init tr s = Some s' -> sexec s tr s'.
Proof.
  revert s. induction tr as [|ev tr IH]; intros s; cbn.
  - intros [= <-]. constructor.
  - destruct (Shutdown.fire p device_init ev s) as [s1|] eqn:Hf; [|done].
    intros Hrun. eapply shutdown_exec_cons; [by apply shutdown_fire_sound|].
    by apply IH.
Qed.

Lemma shutdown_exec_app s tr1 sm tr2 s' :
  sexec s tr1 sm -> sexec sm tr2 s' -> sexec s (tr1 ++ tr2) s'.
Proof.
  intros H1 H2. induction H2 as [|sm tr2 s2 ev s3 H2 IH Hstep].
  - by rewrite app_nil_r.
  - rewrite app_assoc. eapply Shutdown.exec_snoc; [by apply IH | done].
Qed.

(** In the pipeline [_stopManager] is set by [manage] alone, when the
    device cannot be initialised, and the manager has then stopped. *)
Lemma stopManager_before_stop tr b :
  Pipeline.exec p device_init (Pipeline.init p nread ndecode) tr b ->
  _stopManager (pool b) = true -> manager b = MStopped.
Proof.
  remember (Pipeline.init p nread ndecode) as b0 eqn:Hb0.
  induction 1 as [|b0 tr b ev b' Hexec IH Hstep]; [by subst|].
  specialize (IH Hb0).
  inversion Hstep; subst; cbn in *; try done;
    try match goal with
        | |- context [BufferPool.empty ?q] => destruct (BufferPool.empty q)
        end;
    cbn in *; intros Hsm; try done; specialize (IH Hsm); congruence.
Qed.

(** The runs of the pipeline are the runs with shutdown in which [stop]
    has not been called. *)
Lemma pipeline_run_before_stop tr b :
  Pipeline.exec p device_init (Pipeline.init p nread ndecode) tr b ->
  sexec sinit (Shutdown.Run <$> tr) (Shutdown.set_base b sinit).
Proof.
  remember (Pipeline.init p nread ndecode) as b0 eqn:Hb0.
  induction 1 as [|b0 tr b ev b' Hexec IH Hstep].
  - subst. constructor.
  - rewrite fmap_app. eapply Shutdown.exec_snoc; [by apply IH|].
    change (Shutdown.set_base b' sinit)
      with (Shutdown.set_base b' (Shutdown.set_base b sinit)).
    constructor; [done|]. by destruct ev.
Qed.

Lemma before_stop tr s :
  sexec sinit tr s -> Shutdown.stopper s = Shutdown.SNotCalled ->
  exists tr0,
    tr = Shutdown.Run <$> tr0 /\
    Pipeline.exec p device_init (Pipeline.init p nread ndecode) tr0
      (Shutdown.base s) /\
    s = Shutdown.set_base (Shutdown.base s) sinit.
Proof.
  remember sinit as s0 eqn:Hs0.
  induction 1 as [|s0 tr s ev s' Hexec IH Hstep]; intros Hnc.
  - subst. exists []. split; [done|]. split; [constructor | done].
  - specialize (IH Hs0).
    inversion Hstep; subst; cbn in Hnc; try congruence;
      destruct (IH Hnc) as (tr0 & -> & Hexec0 & Hs).
    + exists (tr0 ++ [ev0]). split; [by rewrite fmap_app|].
      split; [by eapply Pipeline.exec_snoc|].
      rewrite Hs at 1. reflexivity.
    + match goal with
      | H : _ \/ _ |- _ => destruct H as [[? _]|[? _]]; congruence
      end.
    + assert (Shutdown._done s = false) by (by rewrite Hs). congruence.
    + match goal with
      | Hsm : _stopManager _ = true, Hm : manager _ = MIdle |- _ =>
          pose proof (stopManager_before_stop _ _ Hexec0 Hsm); congruence
      end.
Qed.

(** A step of the pipeline taken in a run with shutdown. *)
Lemma run_step_inv s ev s' :
  sstep s (Shutdown.Run ev) s' ->
  Pipeline.step p device_init (Shutdown.base s) ev (Shutdown.base s') /\
  s' = Shutdown.set_base (Shutdown.base s') s.
Proof. intros Hstep. by inversion Hstep; subst. Qed.

(** Two events of the pipeline in a run made of steps of the pipeline. *)
Lemma fmap_run_split (tr0 : list Pipeline.event) pre a mid b post :
  Shutdown.Run <$> tr0
  = pre ++ [Shutdown.Run a] ++ mid ++ [Shutdown.Run b] ++ post ->
  exists pre0 mid0 post0,
    tr0 = pre0 ++ [a] ++ mid0 ++ [b] ++ post0 /\ mid = Shutdown.Run <$> mid0.
Proof.
  intros H.
  apply fmap_app_inv in H as (pre0 & r1 & -> & H & ->). symmetry in H.
  apply fmap_cons_inv in H as (a' & r2 & [= <-] & H & ->). symmetry in H.
  apply fmap_app_inv in H as (mid0 & r3 & -> & H & ->). symmetry in H.
  apply fmap_cons_inv in H as (b' & post0 & [= <-] & _ & ->).
  by exists pre0, mid0, post0.
Qed.

End shutdown_facts.

(** ** The two device slots and [Loader::next] *)

Section facade_facts.
Context {M : Media} {R : Reader}.
Variable p : DecodeThreadPool.Params.
Variables device_init nread ndecode : Z.
Hypothesis Hcfg : config_ok p nread ndecode.
Hypothesis Hmedia : media_ok p.
Import DecodeThreadPool Pipeline Invariant.

Local Abbreviation step := (Pipeline.step p device_init).
Local Abbreviation exec := (Pipeline.exec p device_init).
Local Abbreviation pinv := (pipeline_inv p nread ndecode).

Lemma mod2_cases n : n `mod` 2 = 0 \/ n `mod` 2 = 1.
Proof. pose proof (Z.mod_pos_bound n 2 ltac:(lia)). lia. Qed.

(** The slot the manager is about to write is not the one the trainer
    holds. *)
Lemma write_slot_free s :
  pinv s -> out_mutex_free (manager s) = false ->
  trainer s <> TWaiting -> (1 <= calls s)%nat ->
  published s = calls s /\
  _bufferIndex (pool s) <> Z.of_nat (calls s - 1) `mod` 2.
Proof.
  intros Hinv Hbusy Htr Hc.
  pose proof (pi_out_room _ _ _ s Hinv Hbusy) as Hroom.
  pose proof (pi_out_used _ _ _ s Hinv) as Hused.
  pose proof (pi_held _ _ _ s Hinv Htr Hc) as Hheld.
  pose proof (pi_index _ _ _ s Hinv) as Hidx.
  destruct Hcfg as [_ _ _ _ _ _ _ _ HS].
  assert (released s = (calls s - 1)%nat) as Hrel
    by (unfold released; by destruct (trainer s)).
  rewrite Hrel in *.
  assert (published s = calls s) as Hp by lia.
  split; [done|]. rewrite Hidx, Hp. intros Heq. symmetry in Heq. revert Heq.
  apply mod_apart; lia.
Qed.

Lemma copy_step_facts s slot s' :
  barrier_inv p s -> pinv s -> step s (EvCopy slot) s' ->
  manager s = MDecoded /\
  slot = _bufferIndex (pool s) /\
  slot = Z.of_nat (published s) `mod` 2 /\
  slot_holds p (device s') slot (batch_of (published s)) /\
  forall k, k <> Z.to_nat slot -> device s' !! k = device s !! k.
Proof.
  intros Hbar Hinv Hstep.
  pose proof (pipeline_inv_step p device_init nread ndecode Hcfg Hmedia
                _ _ _ Hstep Hbar Hinv) as Hinv'.
  pose proof (pi_index _ _ _ s Hinv) as Hidx.
  inversion Hstep as [| | | | | |s0 tup Hm Hw| | | | | | | | | |]; subst.
  split; [done|]. split; [done|]. split; [done|]. split.
  - apply (pi_dev_copied _ _ _ _ Hinv' eq_refl).
  - intros k Hk. cbn. by apply device_copy_other.
Qed.

Lemma publish_step_facts s s' :
  pinv s -> step s EvPublish s' ->
  published s' = S (published s) /\
  _bufferIndex (pool s') = 1 - _bufferIndex (pool s).
Proof.
  intros Hinv Hstep.
  pose proof (pi_index _ _ _ s Hinv) as Hidx.
  inversion Hstep; subst. split; [done|]. cbn.
  destruct (mod2_cases (Z.of_nat (published s))); case_decide; lia.
Qed.

(** The minibatch a call of [next] returns is in the pool and on the
    device. *)
Lemma returned_minibatch s :
  pinv s -> trainer s = TReturned ->
  (1 <= calls s)%nat /\
  BufferPool.empty (decodeBufs s) = false /\
  slot_holds p (device s) (Z.of_nat (calls s - 1) `mod` 2)
             (batch_of (calls s - 1)).
Proof.
  intros Hinv Htr.
  pose proof (pi_returned _ _ _ s Hinv Htr) as Hc.
  assert (trainer s <> TWaiting) as Hnw by congruence.
  pose proof (pi_held _ _ _ s Hinv Hnw Hc) as Hheld.
  pose proof (pi_out_used _ _ _ s Hinv) as Hused.
  assert (released s = (calls s - 1)%nat) as Hrel
    by (unfold released; by rewrite Htr).
  rewrite Hrel in *. split; [done|]. split.
  - apply bool_decide_eq_false. lia.
  - apply (pi_dev_slots _ _ _ s Hinv). lia.
Qed.

End facade_facts.

(** The concrete configuration satisfies the assumptions. *)
Lemma demo_config_ok : config_ok Pipeline.demo_params 2 2.
Proof.
  split; cbn; try lia.
  split; vm_compute; congruence.
Qed.

Lemma demo_config_fits : config_fits Pipeline.demo_params.
Proof. split; unfold in_int; cbn; lia. Qed.

Lemma pad_length cap x : length (Pipeline.pad cap x) = Z.to_nat cap.
Proof.
  unfold Pipeline.pad. rewrite length_app, length_take, length_replicate. lia.
Qed.

Lemma demo_media_ok : @media_ok Pipeline.echo_media Pipeline.demo_params.
Proof.
  split; cbn; intros; try done.
  - apply pad_length.
  - split; apply pad_length.
Qed.

Lemma demo_run_exec :
  exists s,
    @Pipeline.exec Pipeline.echo_media Pipeline.demo_reader
      Pipeline.demo_params 0 (Pipeline.init Pipeline.demo_params 2 2)
      Pipeline.demo_run s /\
    Pipeline.calls s = 2%nat /\ Pipeline.trainer s = Pipeline.TReady /\
    Pipeline.observed s = [([x00; x01], [x00; x01]); ([x02; x03], [x02; x03])].
Proof.
  destruct (@Pipeline.run Pipeline.echo_media Pipeline.demo_reader
              Pipeline.demo_params 0 Pipeline.demo_run
              (Pipeline.init Pipeline.demo_params 2 2)) as [s|] eqn:Hrun.
  - exists s. split; [by apply run_sound|].
    vm_compute in Hrun. injection Hrun as <-. by vm_compute.
  - vm_compute in Hrun. discriminate.
Defined.

(** C6 (amended): the barrier of a decode round, before [Loader::stop] is
    called.  In every run of the pipeline started by [Loader::start], as
    long as [stop] has not been called:
    - when the manager signals the start of a round, every start signal
      was 0 and the completion counter was 0, and it sets every start
      signal to exactly 1;
    - a worker that consumes its start signal finds it at 1 and leaves it
      at 0 (the assertion of line 165), and it decodes an item only with
      its signal consumed;
    - the manager gets past the barrier only with the completion counter
      equal to [count], and resets it to 0;
    - between two consumptions of the start signal by the same worker the
      manager has got past the barrier and reset the counter;
    - between two start signals of the manager every worker has signalled
      completion and the manager has reset the counter;
    - between a start signal of the manager and the decoding of an item by
      a worker, that worker has consumed a start signal. *)
Theorem barrier_round_trip {M : Media} {R : Reader}
    (p : DecodeThreadPool.Params) (device_init nread ndecode : Z)
    (tr : list Shutdown.event) (s : Shutdown.state) :
  0 <= DecodeThreadPool.count p ->
  Shutdown.exec p device_init (Shutdown.init p nread ndecode) tr s ->
  Shutdown.stopper s = Shutdown.SNotCalled ->
  let N := Z.to_nat (DecodeThreadPool.count p) in
  let signals st :=
    DecodeThreadPool._startSignaled (Pipeline.pool (Shutdown.base st)) in
  let ended st :=
    DecodeThreadPool._endSignaled (Pipeline.pool (Shutdown.base st)) in
  let step st ev st' := Shutdown.step p device_init st (Shutdown.Run ev) st' in
  (forall s',
     step s Pipeline.EvSignal s' ->
     signals s = replicate N 0 /\ ended s = 0 /\ signals s' = replicate N 1)
  /\
  (forall id s',
     step s (Pipeline.EvStart id) s' ->
     signals s !! id = Some 1 /\ signals s' !! id = Some 0) /\
  (forall id i s',
     step s (Pipeline.EvItem id i) s' -> signals s !! id = Some 0) /\
  (forall s',
     step s Pipeline.EvReset s' ->
     ended s = DecodeThreadPool.count p /\ ended s' = 0) /\
  (forall pre mid post id,
     tr = pre ++ [Shutdown.Run (Pipeline.EvStart id)] ++ mid
              ++ [Shutdown.Run (Pipeline.EvStart id)] ++ post ->
     Shutdown.Run Pipeline.EvReset ∈ mid) /\
  (forall pre mid post,
     tr = pre ++ [Shutdown.Run Pipeline.EvSignal] ++ mid
              ++ [Shutdown.Run Pipeline.EvSignal] ++ post ->
     Shutdown.Run Pipeline.EvReset ∈ mid /\
     forall id, (id < N)%nat -> Shutdown.Run (Pipeline.EvEnd id) ∈ mid) /\
  (forall pre mid post id i,
     tr = pre ++ [Shutdown.Run Pipeline.EvSignal] ++ mid
              ++ [Shutdown.Run (Pipeline.EvItem id i)] ++ post ->
     Shutdown.Run (Pipeline.EvStart id) ∈ mid).
Proof.
  intros HN Hexec Hnc N signals ended step.
  destruct (before_stop p device_init nread ndecode tr s Hexec Hnc)
    as (tr0 & -> & Hexec0 & Hs).
  destruct (barrier_rounds p device_init nread ndecode tr0 (Shutdown.base s)
              HN Hexec0) as (Hsig & Hstart & Hitem & Hreset & H2 & H3 & H4).
  split; [|split; [|split; [|split; [|split; [|split]]]]].
  - intros s' Hstep. apply run_step_inv in Hstep as [Hstep _].
    by apply Hsig.
  - intros id s' Hstep. apply run_step_inv in Hstep as [Hstep _].
    by apply Hstart.
  - intros id i s' Hstep. apply run_step_inv in Hstep as [Hstep _].
    by eapply Hitem.
  - intros s' Hstep. apply run_step_inv in Hstep as [Hstep _].
    by apply Hreset.
  - intros pre mid post id Htr.
    apply fmap_run_split in Htr as (pre0 & mid0 & post0 & -> & ->).
    apply list_elem_of_fmap_2. by eapply H2.
  - intros pre mid post Htr.
    apply fmap_run_split in Htr as (pre0 & mid0 & post0 & -> & ->).
    destruct (H3 pre0 mid0 post0 eq_refl) as [Hr He].
    split; [by apply list_elem_of_fmap_2|].
    intros id Hid. apply list_elem_of_fmap_2. by apply He.
  - intros pre mid post id i Htr.
    apply fmap_run_split in Htr as (pre0 & mid0 & post0 & -> & ->).
    apply list_elem_of_fmap_2. by eapply H4.
Qed.

(** C6 (as stated) fails in the round that [DecodeThreadPool::stop] forces
    at shutdown.  In the run below [Loader::stop] is called right after
    [Loader::start], with the manager waiting for input and the two
    workers waiting for a start signal.  The read thread leaves without
    having read and both pools are empty, so [DecodeThreadPool::stop] is
    reached.  Its first loop (lines 89-93) advances the write cursor of
    the read pool; the manager takes a minibatch that was never read and
    sets both start signals to 1 (lines 214-219).  The workers, woken
    with [_done] set, return at line 161: they neither consume their
    start signal nor decode nor signal completion.  The second loop
    (lines 96-102) then raises [_endSignaled] itself, twice, and the
    manager gets past the barrier (line 222) and resets the counter: no
    worker has signalled completion and both start signals are still 1.
    The shutdown runs to its end, with that minibatch published and no
    minibatch ever read. *)
Lemma shutdown_round_skips_workers :
  exists s s' s_end,
    @Shutdown.exec Pipeline.echo_media Pipeline.demo_reader
      Pipeline.demo_params 0 (Shutdown.init Pipeline.demo_params 2 2)
      Shutdown.demo_shutdown s /\
    Shutdown.Run Pipeline.EvSignal ∈ Shutdown.demo_shutdown /\
    (forall id,
       (Shutdown.Run (Pipeline.EvStart id) ∉ Shutdown.demo_shutdown) /\
       (Shutdown.Run (Pipeline.EvEnd id) ∉ Shutdown.demo_shutdown)) /\
    Pipeline.manager (Shutdown.base s) = Pipeline.MBarrier /\
    DecodeThreadPool._startSignaled (Pipeline.pool (Shutdown.base s))
    = [1; 1] /\
    DecodeThreadPool._endSignaled (Pipeline.pool (Shutdown.base s)) = 2 /\
    Shutdown._stopped s = [true; true] /\
    @Shutdown.step Pipeline.echo_media Pipeline.demo_reader
      Pipeline.demo_params 0 s (Shutdown.Run Pipeline.EvReset) s' /\
    Pipeline.manager (Shutdown.base s') = Pipeline.MDecoded /\
    DecodeThreadPool._startSignaled (Pipeline.pool (Shutdown.base s'))
    = [1; 1] /\
    @Shutdown.exec Pipeline.echo_media Pipeline.demo_reader
      Pipeline.demo_params 0 s Shutdown.demo_shutdown_end s_end /\
    Shutdown.stopper s_end = Shutdown.SReturned /\
    Pipeline.published (Shutdown.base s_end) = 1%nat /\
    ReadThread.reader_pos (Pipeline.readThread (Shutdown.base s_end))
    = 0%nat.
Proof.
  destruct (@Shutdown.run Pipeline.echo_media Pipeline.demo_reader
              Pipeline.demo_params 0 Shutdown.demo_shutdown
              (Shutdown.init Pipeline.demo_params 2 2)) as [s|] eqn:Hrun;
    [|vm_compute in Hrun; discriminate].
  destruct (@Shutdown.fire Pipeline.echo_media Pipeline.demo_reader
              Pipeline.demo_params 0 (Shutdown.Run Pipeline.EvReset) s)
    as [s'|] eqn:Hfire.
  2:{ vm_compute in Hrun. injection Hrun as <-.
      vm_compute in Hfire. discriminate. }
  destruct (@Shutdown.run Pipeline.echo_media Pipeline.demo_reader
              Pipeline.demo_params 0 Shutdown.demo_shutdown_end s)
    as [s_end|] eqn:Hend.
  2:{ vm_compute in Hrun. injection Hrun as <-.
      vm_compute in Hend. discriminate. }
  exists s, s', s_end.
  split; [by apply shutdown_run_sound|].
  split; [rewrite list_elem_of_In; cbn; tauto|].
  split.
  { intros id. unfold Shutdown.demo_shutdown.
    split; intros Hin;
      repeat (apply elem_of_cons in Hin as [Hin|Hin]; [discriminate|]);
      by apply elem_of_nil in Hin. }
  split; [|split; [|split; [|split; [|split; [by apply shutdown_fire_sound|]]]]].
  1-4: vm_compute in Hrun; injection Hrun as <-; reflexivity.
  split; [|split; [|split; [by apply shutdown_run_sound|]]].
  1-2: vm_compute in Hrun; injection Hrun as <-;
       vm_compute in Hfire; injection Hfire as <-; reflexivity.
  vm_compute in Hrun. injection Hrun as <-.
  vm_compute in Hend. injection Hend as <-. by repeat split.
Qed.

Lemma barrier_round_trip_witness :
  exists s,
    @Shutdown.exec Pipeline.echo_media Pipeline.demo_reader
      Pipeline.demo_params 0 (Shutdown.init Pipeline.demo_params 2 2)
      (Shutdown.Run <$> Pipeline.demo_run) s /\
    Shutdown.stopper s = Shutdown.SNotCalled /\
    forall pre mid post,
      Shutdown.Run <$> Pipeline.demo_run
      = pre ++ [Shutdown.Run Pipeline.EvSignal] ++ mid
            ++ [Shutdown.Run Pipeline.EvSignal] ++ post ->
      Shutdown.Run Pipeline.EvReset ∈ mid /\
      forall id, (id < 2)%nat -> Shutdown.Run (Pipeline.EvEnd id) ∈ mid.
Proof.
  destruct demo_run_exec as (s & Hexec & _).
  apply pipeline_run_before_stop in Hexec.
  eexists. split; [exact Hexec|]. split; [reflexivity|].
  assert (0 <= DecodeThreadPool.count Pipeline.demo_params) as Hcount
    by (cbn; lia).
  exact (proj1 (proj2 (proj2 (proj2 (proj2 (proj2
           (@barrier_round_trip Pipeline.echo_media Pipeline.demo_reader
              Pipeline.demo_params 0 2 2 _ _ Hcount Hexec eq_refl))))))).
Defined.

(** C7: the two device slots.  In every run, [_bufferIndex] is 0 or 1 and
    is the parity of the number of minibatches published; publishing a
    minibatch flips it; the [k]-th minibatch (counting from 0) is copied
    to device slot [k mod 2]; and whenever the manager copies a minibatch
    to the device while the trainer holds one (a call of [next] has
    returned it and no later call has released it), the slot written is
    not the slot the trainer reads, whose contents stay the minibatch the
    trainer was given.  The decode pool has at most two slots. *)
Theorem double_buffer_isolation {M : Media} {R : Reader}
    (p : DecodeThreadPool.Params) (device_init nread ndecode : Z)
    (tr : list Pipeline.event) (s : Pipeline.state) :
  config_ok p nread ndecode -> media_ok p ->
  Pipeline.exec p device_init (Pipeline.init p nread ndecode) tr s ->
  let idx st := DecodeThreadPool._bufferIndex (Pipeline.pool st) in
  (idx s = 0 \/ idx s = 1) /\
  idx s = Z.of_nat (Pipeline.published s) `mod` 2 /\
  (forall s', Pipeline.step p device_init s Pipeline.EvPublish s' ->
     Pipeline.published s' = S (Pipeline.published s) /\
     idx s' = 1 - idx s) /\
  (forall slot s', Pipeline.step p device_init s (Pipeline.EvCopy slot) s' ->
     slot = idx s /\ slot = Z.of_nat (Pipeline.published s) `mod` 2 /\
     Invariant.slot_holds p (Pipeline.device s') slot
       (Invariant.batch_of (Pipeline.published s))) /\
  (forall slot s', Pipeline.step p device_init s (Pipeline.EvCopy slot) s' ->
     Pipeline.trainer s <> Pipeline.TWaiting ->
     (1 <= Pipeline.calls s)%nat ->
     let held := Z.of_nat (Pipeline.calls s - 1) `mod` 2 in
     slot <> held /\
     Pipeline.device s' !! Z.to_nat held = Pipeline.device s !! Z.to_nat held
     /\
     Invariant.slot_holds p (Pipeline.device s') held
       (Invariant.batch_of (Pipeline.calls s - 1))) /\
  (forall slot s', Pipeline.step p device_init s (Pipeline.EvObserve slot) s' ->
     slot = Z.of_nat (Pipeline.calls s - 1) `mod` 2 /\
     (Pipeline.out_mutex_free (Pipeline.manager s) = false -> slot <> idx s)).
Proof.
  intros Hcfg Hmedia Hexec idx.
  destruct (pipeline_inv_exec p device_init nread ndecode Hcfg Hmedia tr s Hexec)
    as [Hbar Hinv].
  pose proof (Invariant.pi_index _ _ _ s Hinv) as Hidx. fold (idx s) in Hidx.
  split; [rewrite Hidx; apply mod2_cases|]. split; [done|].
  split; [|split; [|split]].
  - intros s' Hstep. by eapply publish_step_facts.
  - intros slot s' Hstep.
    by destruct (copy_step_facts p device_init nread ndecode Hcfg Hmedia
                   s slot s' Hbar Hinv Hstep) as (_ & ? & ? & ? & _).
  - intros slot s' Hstep Htr Hc held.
    destruct (copy_step_facts p device_init nread ndecode Hcfg Hmedia
                s slot s' Hbar Hinv Hstep) as (Hm & Hs1 & _ & _ & Hother).
    destruct (write_slot_free p nread ndecode Hcfg s Hinv) as [Hp Hne];
      [by rewrite Hm|done|done|].
    assert (0 <= held < 2) by (apply Z.mod_pos_bound; lia).
    assert (slot <> held) as Hsh by (subst slot held; done).
    assert (Z.to_nat held <> Z.to_nat slot) as Hnat.
    { destruct (mod2_cases (Z.of_nat (Pipeline.published s))).
      all: pose proof (Invariant.pi_index _ _ _ s Hinv); lia. }
    split; [done|]. split; [by apply Hother|].
    assert (Invariant.released s = (Pipeline.calls s - 1)%nat) as Hrel
      by (unfold Invariant.released; by destruct (Pipeline.trainer s)).
    destruct (Invariant.pi_dev_slots _ _ _ s Hinv (Pipeline.calls s - 1)%nat)
      as (tup & Htup & Himg); [lia|].
    exists tup. split; [|done]. by rewrite Hother.
  - intros slot s' Hstep.
    assert (Pipeline.trainer s = Pipeline.TReturned /\
            slot = Z.of_nat (Pipeline.calls s - 1) `mod` 2) as [Htr ->].
    { inversion Hstep; subst. split; [done|].
      match goal with |- ?b = _ => subst b end.
      by rewrite Z.rem_mod_nonneg by lia. }
    split; [done|]. intros Hbusy.
    destruct (returned_minibatch p nread ndecode s Hinv Htr) as (Hc & _).
    destruct (write_slot_free p nread ndecode Hcfg s Hinv Hbusy) as [_ Hne];
      [congruence|done|]. done.
Qed.

Lemma double_buffer_isolation_witness :
  exists s,
    @Pipeline.exec Pipeline.echo_media Pipeline.demo_reader
      Pipeline.demo_params 0 (Pipeline.init Pipeline.demo_params 2 2)
      Pipeline.demo_run s /\
    DecodeThreadPool._bufferIndex (Pipeline.pool s)
    = Z.of_nat (Pipeline.published s) `mod` 2.
Proof.
  destruct demo_run_exec as (s & Hexec & _).
  exists s. split; [exact Hexec|].
  exact (proj1 (proj2 (@double_buffer_isolation Pipeline.echo_media
                         Pipeline.demo_reader Pipeline.demo_params 0 2 2
                         Pipeline.demo_run s demo_config_ok demo_media_ok
                         Hexec))).
Defined.

(** C5 (as stated) fails in its last clause.  In the run below two workers
    decode the first minibatch, the manager copies it to device slot 0,
    flips [_bufferIndex] (line 238) and only then publishes it (lines
    239-241), and the first call of [next] returns.  At that return
    [_bufferIndex] is 1; the minibatch is in slot 0, and slot 1, the slot
    [_bufferIndex] names, is still empty. *)
Lemma next_returns_with_bufferIndex_flipped :
  exists s,
    @Pipeline.exec Pipeline.echo_media Pipeline.demo_reader
      Pipeline.demo_params 0 (Pipeline.init Pipeline.demo_params 2 2)
      Pipeline.demo_first_return s /\
    Pipeline.trainer s = Pipeline.TReturned /\ Pipeline.calls s = 1%nat /\
    DecodeThreadPool._bufferIndex (Pipeline.pool s) = 1 /\
    @Invariant.slot_holds Pipeline.echo_media Pipeline.demo_params
      (Pipeline.device s) 0 (@Invariant.batch_of Pipeline.demo_reader 0) /\
    Pipeline.device s !! 1%nat
    = Some {| data := []; targets := []; meta := [] |} /\
    ~ @Invariant.slot_holds Pipeline.echo_media Pipeline.demo_params
        (Pipeline.device s) (DecodeThreadPool._bufferIndex (Pipeline.pool s))
        (@Invariant.batch_of Pipeline.demo_reader 0).
Proof.
  destruct (@Pipeline.run Pipeline.echo_media Pipeline.demo_reader
              Pipeline.demo_params 0 Pipeline.demo_first_return
              (Pipeline.init Pipeline.demo_params 2 2)) as [s|] eqn:Hrun;
    [|vm_compute in Hrun; discriminate].
  exists s. split; [by apply run_sound|].
  vm_compute in Hrun. injection Hrun as <-.
  split; [reflexivity|]. split; [reflexivity|]. split; [reflexivity|].
  split; [|split; [reflexivity|]].
  - eexists. split; [reflexivity|]. by vm_compute.
  - intros (tup & Htup & Himg). vm_compute in Htup. injection Htup as <-.
    vm_compute in Himg. discriminate.
Qed.

(** C5 (amended): the production path of [Loader::next] releases, then
    waits.  In every run: [_first] is set exactly when no call has been
    made since [start]; the first call releases nothing; every later call
    first advances the read cursor of the decode pool and signals
    [nonFull], giving back the minibatch of the previous call; the call
    returns at once when the pool is then non-empty and waits otherwise,
    and a waiting call returns only once the pool is non-empty; when the
    call number [k] returns (counting from 0), the pool is non-empty and
    minibatch [k] is in device slot [k mod 2].  That slot is the value
    [_bufferIndex] had when the manager copied minibatch [k]; the manager
    has flipped the field since, once for each minibatch published from
    the [k]-th on. *)
Theorem next_release_then_wait {M : Media} {R : Reader}
    (p : DecodeThreadPool.Params) (device_init nread ndecode : Z)
    (tr : list Pipeline.event) (s : Pipeline.state) :
  config_ok p nread ndecode -> media_ok p ->
  Pipeline.exec p device_init (Pipeline.init p nread ndecode) tr s ->
  (Pipeline.first s = true <->
   Pipeline.calls s = 0%nat /\ Pipeline.trainer s = Pipeline.TReady) /\
  (forall signalled returned s',
     Pipeline.step p device_init s (Pipeline.EvNext signalled returned) s' ->
     (Pipeline.first s = true ->
      signalled = false /\ Pipeline.decodeBufs s' = Pipeline.decodeBufs s) /\
     (Pipeline.first s = false ->
      signalled = true /\
      1 <= BufferPool.used (Pipeline.decodeBufs s) /\
      Pipeline.decodeBufs s'
      = BufferPool.advanceReadPos (Pipeline.decodeBufs s)) /\
     Pipeline.first s' = false /\
     returned = negb (BufferPool.empty (Pipeline.decodeBufs s')) /\
     (returned = false ->
      Pipeline.trainer s' = Pipeline.TWaiting /\
      Pipeline.calls s' = Pipeline.calls s) /\
     (returned = true ->
      Pipeline.trainer s' = Pipeline.TReturned /\
      Pipeline.calls s' = S (Pipeline.calls s))) /\
  (forall s',
     Pipeline.step p device_init s Pipeline.EvNextWake s' ->
     Pipeline.trainer s = Pipeline.TWaiting /\
     BufferPool.empty (Pipeline.decodeBufs s) = false /\
     Pipeline.decodeBufs s' = Pipeline.decodeBufs s /\
     Pipeline.trainer s' = Pipeline.TReturned /\
     Pipeline.calls s' = S (Pipeline.calls s)) /\
  (forall ev s',
     Pipeline.step p device_init s ev s' ->
     Pipeline.trainer s <> Pipeline.TReturned ->
     Pipeline.trainer s' = Pipeline.TReturned ->
     (ev = Pipeline.EvNextWake \/ exists sg, ev = Pipeline.EvNext sg true) /\
     Pipeline.calls s' = S (Pipeline.calls s) /\
     BufferPool.empty (Pipeline.decodeBufs s') = false /\
     Invariant.slot_holds p (Pipeline.device s')
       (Z.of_nat (Pipeline.calls s) `mod` 2)
       (Invariant.batch_of (Pipeline.calls s))) /\
  (forall slot s',
     Pipeline.step p device_init s (Pipeline.EvCopy slot) s' ->
     slot = DecodeThreadPool._bufferIndex (Pipeline.pool s) /\
     slot = Z.of_nat (Pipeline.published s) `mod` 2 /\
     Invariant.slot_holds p (Pipeline.device s') slot
       (Invariant.batch_of (Pipeline.published s))).
Proof.
  intros Hcfg Hmedia Hexec.
  destruct (pipeline_inv_exec p device_init nread ndecode Hcfg Hmedia tr s Hexec)
    as [Hbar Hinv].
  split; [apply (Invariant.pi_first _ _ _ s Hinv)|].
  split; [|split; [|split]]; cycle 3.
  - intros slot s' Hstep.
    by destruct (copy_step_facts p device_init nread ndecode Hcfg Hmedia
                   s slot s' Hbar Hinv Hstep) as (_ & ? & ? & ? & _).
  - intros signalled returned s' Hstep.
    inversion Hstep
      as [| | | | | | | | | | | | | |s0 first' out' sg Htr Hfree Hn| |]; subst.
    unfold Pipeline.next_enter in Hn.
    destruct (Pipeline.first s) eqn:Hf; injection Hn as <- <- <-.
    + destruct (BufferPool.empty (Pipeline.decodeBufs s)) eqn:He; cbn;
        rewrite ?He; repeat split; try done.
    + assert (1 <= Pipeline.calls s)%nat as Hc.
      { destruct (decide (Pipeline.calls s = 0%nat)) as [Hc0|]; [|lia].
        assert (Pipeline.first s = true); [|congruence].
        by apply (Invariant.pi_first _ _ _ s Hinv). }
      assert (Pipeline.trainer s <> Pipeline.TWaiting) as Hnw by congruence.
      pose proof (Invariant.pi_held _ _ _ s Hinv Hnw Hc) as Hheld.
      pose proof (Invariant.pi_out_used _ _ _ s Hinv) as Hused.
      assert (1 <= BufferPool.used (Pipeline.decodeBufs s)) as Hu.
      { unfold Invariant.released in *. rewrite Htr in *. lia. }
      destruct (BufferPool.empty
                  (BufferPool.advanceReadPos (Pipeline.decodeBufs s)))
        eqn:He; cbn; rewrite ?He; repeat split; try done.
  - intros s' Hstep. inversion Hstep; subst. by repeat split.
  - intros ev s' Hstep Hnr Hr.
    pose proof (pipeline_inv_step p device_init nread ndecode Hcfg Hmedia
                  _ _ _ Hstep Hbar Hinv) as Hinv'.
    destruct (returned_minibatch p nread ndecode s' Hinv' Hr)
      as (Hc & Hne & Hslot).
    assert ((ev = Pipeline.EvNextWake \/
             exists sg, ev = Pipeline.EvNext sg true) /\
            Pipeline.calls s' = S (Pipeline.calls s)) as [Hev Hcalls].
    { inversion Hstep; subst; cbn in *; try congruence.
      - destruct (BufferPool.empty out') eqn:He; cbn in *; [congruence|].
        split; [right; by eexists | done].
      - split; [by left | done]. }
    rewrite Hcalls in Hslot. replace (S (Pipeline.calls s) - 1)%nat
      with (Pipeline.calls s) in Hslot by lia.
    done.
Qed.

Lemma next_release_then_wait_witness :
  exists s,
    @Pipeline.exec Pipeline.echo_media Pipeline.demo_reader
      Pipeline.demo_params 0 (Pipeline.init Pipeline.demo_params 2 2)
      Pipeline.demo_run s /\
    Pipeline.first s = false /\ Pipeline.calls s = 2%nat.
Proof.
  destruct demo_run_exec as (s & Hexec & Hcalls & Htr & _).
  exists s. split; [exact Hexec|]. split; [|exact Hcalls].
  pose proof (proj1 (@next_release_then_wait Pipeline.echo_media
                       Pipeline.demo_reader Pipeline.demo_params 0 2 2
                       Pipeline.demo_run s demo_config_ok demo_media_ok
                       Hexec)) as Hfirst.
  destruct (Pipeline.first s); [|reflexivity].
  destruct (proj1 Hfirst eq_refl) as [Hc0 _]. rewrite Hcalls in Hc0.
  discriminate.
Defined.

(** ** Progress: the pipeline delivers every minibatch *)

Section progress.
Context {M : Media} {R : Reader}.
Variable p : DecodeThreadPool.Params.
Variables nread ndecode : Z.
Hypothesis Hcfg : config_ok p nread ndecode.
Hypothesis Hmedia : media_ok p.
Hypothesis Hreader : Invariant.reader_ok p.
Import DecodeThreadPool Pipeline Invariant.

Local Abbreviation step := (Pipeline.step p 0).
Local Abbreviation exec := (Pipeline.exec p 0).
Local Abbreviation pinv := (pipeline_inv p nread ndecode).
Local Abbreviation init := (Pipeline.init p nread ndecode).

Local Abbreviation reachable s := (exists tr, exec init tr s).

Lemma reachable_step s ev s' : reachable s -> step s ev s' -> reachable s'.
Proof. intros [tr Htr] Hstep. exists (tr ++ [ev]). by econstructor. Qed.

Lemma reachable_exec s tr s' : reachable s -> exec s tr s' -> reachable s'.
Proof. intros [tr0 Htr] Hexec. exists (tr0 ++ tr). by eapply exec_app. Qed.

Lemma reachable_inv s : reachable s -> barrier_inv p s /\ pinv s.
Proof. intros [tr Htr]. by eapply pipeline_inv_exec. Qed.

Lemma same_stage_refl s : same_stage s s.
Proof. by repeat split. Qed.

Lemma same_stage_trans s1 s2 s3 :
  same_stage s1 s2 -> same_stage s2 s3 -> same_stage s1 s3.
Proof.
  intros (?&?&?&?&?&?&?) (?&?&?&?&?&?&?). repeat split; congruence.
Qed.

Lemma others_same_refl id s : others_same id s s.
Proof. by intros k Hk. Qed.

Lemma others_same_trans id s1 s2 s3 :
  others_same id s1 s2 -> others_same id s2 s3 -> others_same id s1 s3.
Proof.
  intros H12 H23 k Hk. destruct (H12 k Hk), (H23 k Hk). split; congruence.
Qed.

(** The minibatch the manager has taken is the one in the slot the
    workers read. *)
Lemma input_slot s :
  pinv s -> manager s = MBarrier ->
  BufferPool.bufs (readBufs s) !! Z.to_nat (BufferPool.readPos (readBufs s))
  = Some (batch_of (published s)).
Proof.
  intros Hinv Hm.
  destruct (pi_in_taken _ _ _ s Hinv) as [Hlt _]; [by rewrite Hm|].
  pose proof (pi_in_read _ _ _ s Hinv) as Hr.
  unfold consumed in *. rewrite Hm in *. rewrite Nat.sub_0_r in *.
  rewrite Hr. apply (pi_in_fifo _ _ _ s Hinv). unfold consumed.
  rewrite Hm. lia.
Qed.

Lemma getItem_Some (buf : CharItems) i :
  0 <= i < Z.of_nat (length buf) -> exists x, getItem buf i = Some x.
Proof.
  intros Hi. unfold getItem. rewrite decide_True by lia.
  apply lookup_lt_is_Some_2. lia.
Qed.

(** A worker in its loop runs it to the end. *)
Lemma worker_loop_completes (m : nat) : forall s id loc,
  reachable s -> workers s !! id = Some (WLoop loc) ->
  Z.to_nat (w_end loc - w_i loc) = m ->
  exists tr s' loc',
    exec s tr s' /\ same_stage s s' /\ others_same id s s' /\
    workers s' !! id = Some (WLoop loc') /\ ~ w_i loc' < w_end loc' /\
    _startSignaled (pool s') !! id = _startSignaled (pool s) !! id.
Proof.
  induction m as [|m IH]; intros s id loc Hreach Hw Hm.
  { exists [], s, loc. split; [constructor|].
    split; [apply same_stage_refl|]. split; [apply others_same_refl|].
    split; [done|]. split; [lia | done]. }
  destruct (reachable_inv s Hreach) as [Hbar Hinv].
  destruct Hcfg as [HB HN Hasserts HD Hd HT Ht HR HS].
  destruct (lookup_lt_is_Some_2 (_startSignaled (pool s)) id) as [v Hv].
  { rewrite (bi_signals p s Hbar), <-(bi_workers p s Hbar).
    by eapply lookup_lt_Some. }
  destruct (barrier_inv_in_round p s id _ v Hbar Hw Hv) as [Hmb _];
    [by left|].
  destruct (pi_round _ _ _ s Hinv Hmb id _ v Hw Hv)
    as [(Hld & Hls & Hle & Hli & _) _].
  assert (w_i loc < w_end loc) as Hlt by lia.
  destruct (partition_covers_guarded _ _ HB HN Hasserts) as (Hcov & _ & _).
  assert (0 <= w_i loc < batchSize p) as Hrange.
  { apply Hcov. exists (Z.of_nat id). split.
    - apply lookup_lt_Some in Hw. rewrite (bi_workers p s Hbar) in Hw. lia.
    - apply elem_of_work_items. lia. }
  pose proof (input_slot s Hinv Hmb) as Hsrc. rewrite <-Hls in Hsrc.
  destruct (lookup_lt_is_Some_2 (BufferPool.bufs (decodeBufs s))
              (Z.to_nat (w_dst loc))) as [dst Hdst].
  { rewrite Hld, (pi_out_len _ _ _ s Hinv).
    pose proof (pi_out_write _ _ _ s Hinv). lia. }
  destruct (Hreader (published s)) as (b & Hb & Hitems).
  assert (batch_of (published s) = b) as Hbatch
    by (unfold batch_of; by rewrite Hb).
  destruct (work_item p (Z.of_nat id) loc (batch_of (published s)) dst)
    as [[dst' loc']|] eqn:Hwork.
  2:{ exfalso. unfold work_item in Hwork. cbv zeta in Hwork.
      destruct (getItem_Some (enc_data (batch_of (published s))) (w_i loc))
        as [x Hx]; [rewrite Hbatch; lia|]. by rewrite Hx in Hwork. }
  assert (w_i loc' = w_i loc + 1 /\ w_end loc' = w_end loc) as [Hi' He'].
  { unfold work_item in Hwork.
    destruct (getItem (enc_data (batch_of (published s))) (w_i loc));
      [|done]. by injection Hwork as <- <-. }
  pose proof (step_item p 0 s id loc _ dst dst' loc' Hw Hlt Hsrc Hdst Hwork)
    as Hstep.
  set (s1 := set_workers (<[id:=WLoop loc']> (workers s))
               (set_decodeBufs
                  (BufferPool.store (w_dst loc) dst' (decodeBufs s)) s))
    in *.
  destruct (IH s1 id loc') as (tr & s' & loc'' & Hexec & Hss & Hos & Hw' & Hdone
                               & Hv');
    [by eapply reachable_step| |lia|].
  { cbn. apply list_lookup_insert_eq. by eapply lookup_lt_Some. }
  exists (EvItem id (w_i loc) :: tr), s', loc''.
  split; [by eapply exec_cons|].
  split; [eapply same_stage_trans; [|exact Hss]; by repeat split|].
  split; [|done].
  eapply others_same_trans; [|exact Hos].
  intros k Hk. cbn. by rewrite list_lookup_insert_ne.
Qed.

(** With a reader that never fails and the device initialised, no stage
    ever fails or is told to stop. *)
Lemma reachable_healthy s :
  reachable s ->
  readThrown s = false /\ ReadThread._done (readThread s) = false /\
  _stopManager (pool s) = false /\ manager s <> MStopped.
Proof.
  intros [tr Hexec]. remember init as s0 eqn:Hs0.
  induction Hexec as [|s0 tr s' ev s'' Hexec IH Hstep]; [by subst|].
  destruct (IH Hs0) as (Hth & Hdn & Hsm & Hms). clear IH Hexec.
  inversion Hstep; subst; cbn; try done.
  - match goal with H : ReadThread.produce _ _ = _ |- _ =>
      unfold ReadThread.produce in H;
      destruct (Hreader (ReadThread.reader_pos (readThread s')))
        as (b & Hb & _); rewrite Hb in H; injection H as <- <- <-
    end.
    done.
  - by destruct (BufferPool.empty _).
Qed.

(** A worker past its loop signals the end of its round. *)
Lemma worker_from_decoded s id :
  workers s !! id = Some WDecoded ->
  exists tr s',
    exec s tr s' /\ same_stage s s' /\ others_same id s s' /\
    workers s' !! id = Some WWait /\
    _startSignaled (pool s') !! id = _startSignaled (pool s) !! id.
Proof.
  intros Hw. pose proof (step_end p 0 s id Hw) as Hst.
  eexists [EvEnd id], _. split; [by apply exec_one|].
  split; [by repeat split|]. split; [|split].
  - intros k Hk. cbn. by rewrite list_lookup_insert_ne.
  - cbn. apply list_lookup_insert_eq. by eapply lookup_lt_Some.
  - done.
Qed.

(** A worker in its loop decodes its items, leaves the loop and signals
    the end of its round. *)
Lemma worker_from_loop s id loc :
  reachable s -> workers s !! id = Some (WLoop loc) ->
  exists tr s',
    exec s tr s' /\ same_stage s s' /\ others_same id s s' /\
    workers s' !! id = Some WWait /\
    _startSignaled (pool s') !! id = _startSignaled (pool s) !! id.
Proof.
  intros Hreach Hw.
  destruct (worker_loop_completes _ s id loc Hreach Hw eq_refl)
    as (tr1 & s1 & loc1 & Hex1 & Hss1 & Hos1 & Hw1 & Hdone1 & Hv1).
  pose proof (step_loop_exit p 0 s1 id loc1 Hw1 Hdone1) as Hst2.
  set (s2 := set_workers _ s1) in Hst2.
  assert (workers s2 !! id = Some WDecoded) as Hw2.
  { cbn. apply list_lookup_insert_eq. by eapply lookup_lt_Some. }
  assert (same_stage s1 s2) as Hss2 by (by repeat split).
  assert (others_same id s1 s2) as Hos2.
  { intros k Hk. cbn. by rewrite list_lookup_insert_ne. }
  destruct (worker_from_decoded s2 id Hw2)
    as (tr3 & s3 & Hex3 & Hss3 & Hos3 & Hw3 & Hv3).
  exists (tr1 ++ EvLoopExit id :: tr3), s3.
  split; [eapply exec_app; [exact Hex1|]; by eapply exec_cons|].
  split; [by repeat (eapply same_stage_trans; [eassumption|])|].
  split; [by repeat (eapply others_same_trans; [eassumption|])|].
  split; [done|]. by rewrite Hv3, <-Hv1.
Qed.

(** A worker that has consumed its start signal sets up its locals and
    runs its round. *)
Lemma worker_from_started s id :
  reachable s -> manager s = MBarrier ->
  workers s !! id = Some WStarted ->
  exists tr s',
    exec s tr s' /\ same_stage s s' /\ others_same id s s' /\
    workers s' !! id = Some WWait /\
    _startSignaled (pool s') !! id = _startSignaled (pool s) !! id.
Proof.
  intros Hreach Hm Hw.
  destruct (reachable_inv s Hreach) as [Hbar Hinv].
  destruct (pi_in_taken _ _ _ s Hinv) as [_ Hin]; [by rewrite Hm|].
  specialize (Hin ltac:(by rewrite Hm)).
  pose proof (step_setup p 0 s id _ Hw Hin) as Hst1.
  set (s1 := set_workers _ s) in Hst1.
  assert (workers s1 !! id
          = Some (WLoop (work_setup p (Z.of_nat id)
                           (BufferPool.writePos (decodeBufs s))
                           (BufferPool.readPos (readBufs s))))) as Hw1.
  { cbn. apply list_lookup_insert_eq. by eapply lookup_lt_Some. }
  assert (same_stage s s1) as Hss1 by (by repeat split).
  assert (others_same id s s1) as Hos1.
  { intros k Hk. cbn. by rewrite list_lookup_insert_ne. }
  destruct (worker_from_loop s1 id _ ltac:(by eapply reachable_step) Hw1)
    as (tr2 & s2 & Hex2 & Hss2 & Hos2 & Hw2 & Hv2).
  exists (EvSetup id :: tr2), s2.
  split; [by eapply exec_cons|].
  split; [by eapply same_stage_trans|].
  split; [by eapply others_same_trans|]. done.
Qed.

(** A worker with its start signal up consumes it and runs its round. *)
Lemma worker_from_wait s id :
  reachable s -> manager s = MBarrier ->
  workers s !! id = Some WWait -> _startSignaled (pool s) !! id = Some 1 ->
  exists tr s',
    exec s tr s' /\ same_stage s s' /\ others_same id s s' /\
    workers s' !! id = Some WWait /\
    _startSignaled (pool s') !! id = Some 0.
Proof.
  intros Hreach Hm Hw Hv.
  assert (step s (EvStart id)
            (set_workers (<[id:=WStarted]> (workers s))
               (set_pool (consume_start id (pool s)) s))) as Hst1
    by (by eapply step_start).
  set (s1 := set_workers _ _) in Hst1.
  assert (workers s1 !! id = Some WStarted) as Hw1.
  { cbn. apply list_lookup_insert_eq. by eapply lookup_lt_Some. }
  assert (_startSignaled (pool s1) !! id = Some 0) as Hv1.
  { cbn. by rewrite list_lookup_alter_eq, Hv. }
  assert (same_stage s s1) as Hss1 by (by repeat split).
  assert (others_same id s s1) as Hos1.
  { intros k Hk. cbn. rewrite list_lookup_insert_ne by done.
    by rewrite list_lookup_alter_ne by done. }
  destruct (worker_from_started s1 id ltac:(by eapply reachable_step)
              ltac:(done) Hw1)
    as (tr2 & s2 & Hex2 & Hss2 & Hos2 & Hw2 & Hv2).
  exists (EvStart id :: tr2), s2.
  split; [by eapply exec_cons|].
  split; [by eapply same_stage_trans|].
  split; [by eapply others_same_trans|].
  split; [done|]. by rewrite Hv2.
Qed.

(** Wherever a worker stands in a round, it finishes the round. *)
Lemma worker_finishes s id :
  reachable s -> manager s = MBarrier -> (id < Z.to_nat (count p))%nat ->
  exists tr s',
    exec s tr s' /\ same_stage s s' /\ others_same id s s' /\
    workers s' !! id = Some WWait /\
    _startSignaled (pool s') !! id = Some 0.
Proof.
  intros Hreach Hm Hid.
  destruct (reachable_inv s Hreach) as [Hbar Hinv].
  destruct (lookup_lt_is_Some_2 (workers s) id) as [w Hw];
    [by rewrite (bi_workers p s Hbar)|].
  destruct (lookup_lt_is_Some_2 (_startSignaled (pool s)) id) as [v Hv];
    [by rewrite (bi_signals p s Hbar)|].
  pose proof (bi_round p s Hbar id w v Hw Hv) as Hr.
  rewrite decide_True in Hr by done.
  destruct Hr as [[-> [->| ->]]|[Hne ->]].
  - exists [], s. split; [constructor|].
    split; [apply same_stage_refl|]. split; [apply others_same_refl|]. done.
  - by apply worker_from_wait.
  - destruct w as [| |loc|]; [done|..].
    + destruct (worker_from_started s id Hreach Hm Hw)
        as (tr & s' & ? & ? & ? & ? & Hv').
      exists tr, s'. by rewrite Hv'.
    + destruct (worker_from_loop s id loc Hreach Hw)
        as (tr & s' & ? & ? & ? & ? & Hv').
      exists tr, s'. by rewrite Hv'.
    + destruct (worker_from_decoded s id Hw)
        as (tr & s' & ? & ? & ? & ? & Hv').
      exists tr, s'. by rewrite Hv'.
Qed.

Lemma finished_all ws ss :
  length ws = length ss ->
  (forall id w v, ws !! id = Some w -> ss !! id = Some v ->
     w = WWait /\ v = 0) ->
  finished ws ss = Z.of_nat (length ws).
Proof.
  revert ss. induction ws as [|w ws IH]; intros [|v ss] Hlen Hall;
    try done; cbn in *.
  destruct (Hall 0%nat w v eq_refl eq_refl) as [-> ->].
  rewrite IH; [unfold fin; rewrite decide_True by done; lia|lia|].
  intros id w' v' Hw Hv. by apply (Hall (S id)).
Qed.

(** Wherever the workers stand in a round, they all finish it. *)
Lemma all_workers_finish (n : nat) : forall s,
  reachable s -> manager s = MBarrier ->
  (n <= Z.to_nat (count p))%nat ->
  (forall id, (id < Z.to_nat (count p) - n)%nat ->
     workers s !! id = Some WWait /\
     _startSignaled (pool s) !! id = Some 0) ->
  exists tr s',
    exec s tr s' /\ same_stage s s' /\
    forall id, (id < Z.to_nat (count p))%nat ->
      workers s' !! id = Some WWait /\
      _startSignaled (pool s') !! id = Some 0.
Proof.
  induction n as [|n IH]; intros s Hreach Hm Hn Hall.
  { exists [], s. split; [constructor|]. split; [apply same_stage_refl|].
    intros id Hid. apply Hall. lia. }
  set (id := (Z.to_nat (count p) - S n)%nat).
  destruct (worker_finishes s id Hreach Hm ltac:(lia))
    as (tr1 & s1 & Hex1 & Hss1 & Hos1 & Hw1 & Hv1).
  destruct (IH s1) as (tr2 & s2 & Hex2 & Hss2 & Hfin);
    [by eapply reachable_exec|destruct Hss1 as [? _]; congruence|lia| |].
  { intros k Hk. destruct (decide (k = id)) as [->|Hne]; [done|].
    destruct (Hos1 k Hne) as [-> ->]. apply Hall. lia. }
  exists (tr1 ++ tr2), s2. split; [by eapply exec_app|].
  split; [by eapply same_stage_trans | done].
Qed.

(** *** The manager publishes *)

Lemma publishes_frame s s1 s' :
  trainer s1 = trainer s -> calls s1 = calls s ->
  published s1 = published s -> publishes s1 s' -> publishes s s'.
Proof. intros Ht Hc Hp (? & ? & ? & ?). repeat split; congruence. Qed.

Lemma mgr_from_copied s :
  manager s = MCopied -> exists tr s', exec s tr s' /\ publishes s s'.
Proof.
  intros Hm. eexists [EvPublish], _.
  split; [apply exec_one; by apply step_publish|]. by repeat split.
Qed.

Lemma mgr_from_decoded s :
  reachable s -> manager s = MDecoded ->
  exists tr s', exec s tr s' /\ publishes s s'.
Proof.
  intros Hreach Hm.
  destruct (reachable_inv s Hreach) as [Hbar Hinv].
  destruct (lookup_lt_is_Some_2 (BufferPool.bufs (decodeBufs s))
              (Z.to_nat (BufferPool.writePos (decodeBufs s))))
    as [tup Htup].
  { rewrite (pi_out_len _ _ _ s Hinv).
    pose proof (pi_out_write _ _ _ s Hinv). lia. }
  pose proof (step_copy p 0 s tup Hm Htup) as Hst. cbv zeta in Hst.
  set (s1 := set_manager MCopied _) in Hst.
  destruct (mgr_from_copied s1 eq_refl) as (tr & s' & Hex & Hpub).
  exists (EvCopy (_bufferIndex (pool s)) :: tr), s'.
  split; [by eapply exec_cons|]. by eapply (publishes_frame s s1).
Qed.

Lemma mgr_from_barrier s :
  reachable s -> manager s = MBarrier ->
  exists tr s', exec s tr s' /\ publishes s s'.
Proof.
  intros Hreach Hm.
  destruct Hcfg as [HB HN Hasserts HD Hd HT Ht' HR HS].
  destruct (all_workers_finish (Z.to_nat (count p)) s Hreach Hm ltac:(lia))
    as (tr1 & s1 & Hex1 & Hss1 & Hall); [intros id Hid; lia|].
  assert (reachable s1) as Hr1 by (by eapply reachable_exec).
  destruct (reachable_inv s1 Hr1) as [Hbar Hinv].
  destruct Hss1 as (Hm1 & Ht1 & Hc1 & Hp1 & _). rewrite Hm in Hm1.
  assert (step s1 EvReset
            (set_manager MDecoded (set_pool (reset_end (pool s1)) s1)))
    as Hst.
  { apply step_reset; [done|]. unfold barrier_open.
    apply negb_true_iff, bool_decide_eq_false.
    rewrite (bi_end p s1 Hbar), Hm1, decide_True by done.
    rewrite finished_all.
    - rewrite (bi_workers p s1 Hbar). lia.
    - by rewrite (bi_workers p s1 Hbar), (bi_signals p s1 Hbar).
    - intros id w v Hw Hv.
      destruct (Hall id) as [Hw' Hv'];
        [apply lookup_lt_Some in Hw;
         by rewrite (bi_workers p s1 Hbar) in Hw|].
      split; congruence. }
  set (s2 := set_manager MDecoded _) in Hst.
  destruct (mgr_from_decoded s2 ltac:(by eapply reachable_step) eq_refl)
    as (tr3 & s3 & Hex3 & Hpub).
  exists (tr1 ++ EvReset :: tr3), s3.
  split; [eapply exec_app; [exact Hex1|]; by eapply exec_cons|].
  by eapply (publishes_frame s s2).
Qed.

Lemma mgr_from_hasinput s :
  reachable s -> manager s = MHasInput ->
  BufferPool.full (decodeBufs s) = false ->
  exists tr s', exec s tr s' /\ publishes s s'.
Proof.
  intros Hreach Hm Hfull.
  pose proof (step_signal p 0 s Hm Hfull) as Hst.
  set (s1 := set_manager MBarrier _) in Hst.
  destruct (mgr_from_barrier s1 ltac:(by eapply reachable_step) eq_refl)
    as (tr & s' & Hex & Hpub).
  exists (EvSignal :: tr), s'.
  split; [by eapply exec_cons|]. by eapply (publishes_frame s s1).
Qed.

Lemma mgr_from_idle s :
  reachable s -> manager s = MIdle ->
  BufferPool.full (decodeBufs s) = false ->
  exists tr s', exec s tr s' /\ publishes s s'.
Proof.
  intros Hreach Hm Hfull.
  destruct (reachable_healthy s Hreach) as (Hth & Hdn & Hsm & _).
  destruct (reachable_inv s Hreach) as [Hbar Hinv].
  destruct Hcfg as [HB HN Hasserts HD Hd HT Ht' HR HS].
  destruct (BufferPool.empty (readBufs s)) eqn:Hempty.
  - (* the read thread fills a slot first *)
    apply bool_decide_eq_true in Hempty.
    pose proof (pi_in_count _ _ _ s Hinv) as Hcount.
    destruct (Hreader (ReadThread.reader_pos (readThread s)))
      as (b & Hb & _).
    assert (ReadThread.produce (readThread s) (readBufs s)
            = ({| ReadThread._done := ReadThread._done (readThread s);
                  ReadThread.reader_pos :=
                    S (ReadThread.reader_pos (readThread s)) |},
               BufferPool.advanceWritePos
                 (BufferPool.store (BufferPool.writePos (readBufs s)) b
                    (readBufs s)),
               ReadThread.Returned)) as Hprod.
    { unfold ReadThread.produce. by rewrite Hb. }
    assert (BufferPool.full (readBufs s) = false) as Hnf
      by (apply bool_decide_eq_false; lia).
    pose proof (step_read p 0 s _ _ _ Hdn Hth ltac:(by rewrite Hm) Hnf Hprod)
      as Hst1.
    set (s1 := set_readThrown _ _) in Hst1.
    assert (step s1 EvTake
              (set_manager MHasInput
                 (set_pool (set_inputBuf (BufferPool.readPos (readBufs s1))
                              (pool s1)) s1))) as Hst2.
    { apply step_take; [done|done|].
      apply bool_decide_eq_false. cbn. lia. }
    set (s2 := set_manager MHasInput _) in Hst2.
    destruct (mgr_from_hasinput s2) as (tr & s' & Hex & Hpub);
      [eapply reachable_step; [|exact Hst2]; by eapply reachable_step
      |done|done|].
    exists (EvRead ReadThread.Returned :: EvTake :: tr), s'.
    split; [eapply exec_cons; [exact Hst1|]; by eapply exec_cons|].
    by eapply (publishes_frame s s2).
  - pose proof (step_take p 0 s Hm Hsm Hempty) as Hst.
    set (s1 := set_manager MHasInput _) in Hst.
    destruct (mgr_from_hasinput s1 ltac:(by eapply reachable_step)
                eq_refl Hfull) as (tr & s' & Hex & Hpub).
    exists (EvTake :: tr), s'.
    split; [by eapply exec_cons|]. by eapply (publishes_frame s s1).
Qed.

(** Unless the decode pool is full while the manager is to claim a slot of
    it, the manager publishes one more minibatch, whatever the other
    threads have done so far. *)
Lemma mgr_publishes s :
  reachable s ->
  (out_mutex_free (manager s) = true ->
   BufferPool.full (decodeBufs s) = false) ->
  exists tr s', exec s tr s' /\ publishes s s'.
Proof.
  intros Hreach Hfull.
  destruct (reachable_healthy s Hreach) as (_ & _ & _ & Hms).
  destruct (manager s) eqn:Hm; [| | | | | | |done].
  - pose proof (step_init_ok p 0 s Hm eq_refl) as Hst.
    destruct (mgr_from_idle (set_manager MIdle s)
                ltac:(by eapply reachable_step) eq_refl (Hfull eq_refl))
      as (tr & s' & Hex & Hpub).
    exists (EvInit :: tr), s'. split; [by eapply exec_cons|].
    by eapply (publishes_frame s (set_manager MIdle s)).
  - by apply mgr_from_idle; [| |apply Hfull].
  - by apply mgr_from_hasinput; [| |apply Hfull].
  - by apply mgr_from_barrier.
  - by apply mgr_from_decoded.
  - by apply mgr_from_copied.
  - pose proof (step_release p 0 s Hm) as Hst.
    set (s1 := set_manager MIdle _) in Hst.
    destruct (mgr_from_idle s1 ltac:(by eapply reachable_step) eq_refl
                (Hfull eq_refl)) as (tr & s' & Hex & Hpub).
    exists (EvRelease :: tr), s'. split; [by eapply exec_cons|].
    by eapply (publishes_frame s s1).
Qed.

(** *** The trainer is served *)

Lemma observed_length s :
  reachable s ->
  length (observed s)
  = (calls s - match trainer s with TReturned => 1 | _ => 0 end)%nat.
Proof.
  intros Hreach. destruct (reachable_inv s Hreach) as [_ Hinv].
  by rewrite (pi_observed _ _ _ s Hinv), length_fmap, length_seq.
Qed.

Lemma trainer_from_returned s :
  trainer s = TReturned ->
  exists tr s', exec s tr s' /\ trainer s' = TReady /\ calls s' = calls s.
Proof.
  intros Ht. pose proof (step_observe p 0 s Ht) as Hst. cbv zeta in Hst.
  eexists [_], _. split; [apply exec_one; exact Hst|]. done.
Qed.

(** A call of [next] that waits is woken: the manager publishes the
    minibatch it waits for. *)
Lemma trainer_from_waiting s :
  reachable s -> trainer s = TWaiting ->
  exists tr s',
    exec s tr s' /\ trainer s' = TReady /\ calls s' = S (calls s).
Proof.
  intros Hreach Ht.
  destruct Hcfg as [HB HN Hasserts HD Hd HT Ht' HR HS].
  assert (exists tr1 s1,
            exec s tr1 s1 /\ trainer s1 = TWaiting /\ calls s1 = calls s /\
            out_mutex_free (manager s1) = true /\
            BufferPool.empty (decodeBufs s1) = false)
    as (tr1 & s1 & Hex1 & Ht1 & Hc1 & Hfree1 & Hne1).
  { destruct (reachable_inv s Hreach) as [Hbar Hinv].
    pose proof (pi_out_used _ _ _ s Hinv) as Hused.
    pose proof (pi_out_bound _ _ _ s Hinv) as Hbound.
    pose proof (pi_out_count _ _ _ s Hinv) as Hcount.
    unfold released in Hused. rewrite Ht in Hused.
    destruct (out_mutex_free (manager s)
              && negb (BufferPool.empty (decodeBufs s))) eqn:Hnow.
    - apply andb_true_iff in Hnow as [Hfree Hne].
      apply negb_true_iff in Hne.
      exists [], s. split; [constructor|]. done.
    - destruct (mgr_publishes s Hreach) as (tr1 & s1 & Hex1 & Hpub).
      { intros Hfree. rewrite Hfree in Hnow. cbn in Hnow.
        apply negb_false_iff, bool_decide_eq_true in Hnow.
        apply bool_decide_eq_false. lia. }
      destruct Hpub as (Hm1 & Hp1 & Ht1 & Hc1).
      exists tr1, s1. split; [done|]. rewrite Ht1, Hm1.
      split; [done|]. split; [done|]. split; [done|].
      destruct (reachable_inv s1 ltac:(by eapply reachable_exec))
        as [_ Hinv1].
      pose proof (pi_out_used _ _ _ s1 Hinv1) as Hused1.
      unfold released in Hused1. rewrite Ht1, Ht, Hc1, Hp1 in Hused1.
      apply bool_decide_eq_false. lia. }
  pose proof (step_next_wake p 0 s1 Ht1 Hfree1 Hne1) as Hst2.
  set (s2 := set_trainer TReturned _) in Hst2.
  destruct (trainer_from_returned s2 eq_refl)
    as (tr3 & s3 & Hex3 & Ht3 & Hc3).
  exists (tr1 ++ EvNextWake :: tr3), s3.
  split; [eapply exec_app; [exact Hex1|]; by eapply exec_cons|].
  split; [done|]. rewrite Hc3. cbn. by rewrite Hc1.
Qed.

(** The trainer about to call [next] gets its minibatch. *)
Lemma trainer_from_ready s :
  reachable s -> trainer s = TReady ->
  exists tr s',
    exec s tr s' /\ trainer s' = TReady /\ calls s' = S (calls s).
Proof.
  intros Hreach Ht.
  assert (exists tr1 s1,
            exec s tr1 s1 /\ trainer s1 = TReady /\ calls s1 = calls s /\
            out_mutex_free (manager s1) = true)
    as (tr1 & s1 & Hex1 & Ht1 & Hc1 & Hfree1).
  { destruct (out_mutex_free (manager s)) eqn:Hfree.
    - exists [], s. split; [constructor|]. done.
    - destruct (mgr_publishes s Hreach ltac:(congruence))
        as (tr1 & s1 & Hex1 & Hm1 & Hp1 & Ht1 & Hc1).
      exists tr1, s1. split; [done|]. rewrite Ht1, Hm1. done. }
  assert (reachable s1) as Hr1 by (by eapply reachable_exec).
  destruct (next_enter (first s1) (decodeBufs s1))
    as [[first' out'] sg] eqn:Hn.
  pose proof (step_next p 0 s1 first' out' sg Ht1 Hfree1 Hn) as Hst2.
  destruct (BufferPool.empty out') eqn:He.
  - set (s2 := set_trainer TWaiting _) in Hst2.
    destruct (trainer_from_waiting s2 ltac:(by eapply reachable_step)
                eq_refl) as (tr3 & s3 & Hex3 & Ht3 & Hc3).
    exists (tr1 ++ EvNext sg (negb true) :: tr3), s3.
    split; [eapply exec_app; [exact Hex1|]; by eapply exec_cons|].
    split; [done|]. rewrite Hc3. cbn. by rewrite Hc1.
  - set (s2 := set_trainer TReturned _) in Hst2.
    destruct (trainer_from_returned s2 eq_refl)
      as (tr3 & s3 & Hex3 & Ht3 & Hc3).
    exists (tr1 ++ EvNext sg (negb false) :: tr3), s3.
    split; [eapply exec_app; [exact Hex1|]; by eapply exec_cons|].
    split; [done|]. rewrite Hc3. cbn. by rewrite Hc1.
Qed.

(** Whatever the threads have done so far, the run goes on to the point
    where the trainer has read one more minibatch back. *)
Lemma observes_one_more s :
  reachable s ->
  exists tr s',
    exec s tr s' /\ length (observed s') = S (length (observed s)).
Proof.
  intros Hreach.
  destruct (reachable_inv s Hreach) as [_ Hinv].
  pose proof (pi_returned _ _ _ s Hinv) as Hret.
  assert (exists tr s', exec s tr s' /\ trainer s' = TReady /\
            calls s'
            = (calls s + match trainer s with TReturned => 0 | _ => 1 end)%nat)
    as (tr & s' & Hex & Ht' & Hc').
  { destruct (trainer s) eqn:Ht.
    - destruct (trainer_from_ready s Hreach Ht) as (tr & s' & ? & ? & ?).
      exists tr, s'. split; [done|]. split; [done|]. lia.
    - destruct (trainer_from_waiting s Hreach Ht) as (tr & s' & ? & ? & ?).
      exists tr, s'. split; [done|]. split; [done|]. lia.
    - destruct (trainer_from_returned s Ht) as (tr & s' & ? & ? & ?).
      exists tr, s'. split; [done|]. split; [done|]. lia. }
  exists tr, s'. split; [done|].
  rewrite (observed_length s Hreach).
  rewrite (observed_length s') by (by eapply reachable_exec).
  rewrite Ht', Hc'. destruct (trainer s); try lia.
  specialize (Hret eq_refl). lia.
Qed.

(** The pipeline never gets stuck: from every state a run reaches, the
    run goes on to deliver any number of further minibatches. *)
Lemma delivers (n : nat) : forall s,
  reachable s ->
  exists tr s',
    exec s tr s' /\ length (observed s') = (length (observed s) + n)%nat.
Proof.
  induction n as [|n IH]; intros s Hreach.
  { exists [], s. split; [constructor | lia]. }
  destruct (observes_one_more s Hreach) as (tr1 & s1 & Hex1 & Hlen1).
  destruct (IH s1 ltac:(by eapply reachable_exec))
    as (tr2 & s2 & Hex2 & Hlen2).
  exists (tr1 ++ tr2), s2. split; [by eapply exec_app | lia].
Qed.


End progress.

(** ** The minibatches the trainer receives *)

Lemma single_decode_length {M : Media} (p : DecodeThreadPool.Params)
    (nread ndecode : Z) (b : EncTuple) :
  config_ok p nread ndecode -> media_ok p ->
  Z.of_nat (length (DecodeThreadPool.single_decode p b).1)
  = DecodeThreadPool.batchSize p
    * (DecodeThreadPool.datumSize p * DecodeThreadPool.datumTypeSize p) /\
  Z.of_nat (length (DecodeThreadPool.single_decode p b).2)
  = DecodeThreadPool.batchSize p
    * (DecodeThreadPool.targetSize p * DecodeThreadPool.targetTypeSize p).
Proof.
  intros Hcfg Hmedia.
  pose proof (datumLen_nonneg p nread ndecode Hcfg) as HdL.
  pose proof (targetLen_nonneg p nread ndecode Hcfg) as HtL.
  destruct Hcfg as [HB HN Hasserts HD Hd HT Ht HR HS].
  unfold DecodeThreadPool.single_decode,
    DecodeThreadPool.datumLen, DecodeThreadPool.targetLen in *.
  cbn [fst snd]. split.
  - rewrite (length_concat_const _ _
               (Z.to_nat (DecodeThreadPool.datumSize p
                          * DecodeThreadPool.datumTypeSize p))).
    + rewrite length_seqZ. nia.
    + intros j _. unfold DecodeThreadPool.decode_item. case_decide.
      * apply (media_joint_fills p Hmedia).
      * apply (media_fills p Hmedia).
  - rewrite (length_concat_const _ _
               (Z.to_nat (DecodeThreadPool.targetSize p
                          * DecodeThreadPool.targetTypeSize p))).
    + rewrite length_seqZ. nia.
    + intros j _. unfold DecodeThreadPool.decode_item. case_decide.
      * apply (media_joint_fills p Hmedia).
      * apply fixed_target_length.
Qed.

(** What the device holds for a minibatch is its single-threaded decode,
    moved around by the transposition only. *)
Lemma device_image_item_major {M : Media} (p : DecodeThreadPool.Params)
    (nread ndecode : Z) (b : EncTuple) :
  config_ok p nread ndecode -> media_ok p ->
  DecodeThreadPool.item_major p (DecodeThreadPool.device_image p b)
  = DecodeThreadPool.single_decode p b.
Proof.
  intros Hcfg Hmedia.
  destruct (single_decode_length p nread ndecode b Hcfg Hmedia) as [Hd Ht].
  destruct Hcfg as [HB HN Hasserts HD Hd' HT Ht' HR HS].
  unfold DecodeThreadPool.item_major, DecodeThreadPool.device_image.
  cbn [fst snd]. rewrite !transpose_transpose by (done || lia).
  by destruct (DecodeThreadPool.single_decode p b).
Qed.

Lemma demo_reader_ok :
  @Invariant.reader_ok Pipeline.demo_reader Pipeline.demo_params.
Proof. intros k. eexists. split; [reflexivity|]. cbn. lia. Qed.

(** C1: the minibatches reach the trainer in the order the reader
    delivers them, decoded as a single thread decodes them.  With a reader
    that never fails and the device initialised:
    - the pipeline delivers: from every state a run reaches, whatever the
      order in which the threads have moved, the run goes on until the
      trainer has called [next] and read the device slot back [K] times,
      for every [K] not yet exceeded;
    - in every run, the minibatch read back after the call number [k]
      (counting from 0) is the one the call number [k] of [read] delivered,
      and, put back item after item, it is the single-threaded decode of
      that minibatch; so the minibatches read back, concatenated, are the
      single-threaded decode of the items in the order they were read. *)
Theorem fifo_fidelity {M : Media} {R : Reader}
    (p : DecodeThreadPool.Params) (nread ndecode : Z) :
  config_ok p nread ndecode -> media_ok p -> Invariant.reader_ok p ->
  let runs tr s := Pipeline.exec p 0 (Pipeline.init p nread ndecode) tr s in
  let host s := DecodeThreadPool.item_major p <$> Pipeline.observed s in
  (forall tr s, runs tr s ->
     forall K : nat, (length (Pipeline.observed s) <= K)%nat ->
     exists tr' s',
       runs (tr ++ tr') s' /\ length (Pipeline.observed s') = K) /\
  (forall tr s, runs tr s ->
     (Pipeline.trainer s = Pipeline.TReady ->
      length (Pipeline.observed s) = Pipeline.calls s) /\
     (forall k img, Pipeline.observed s !! k = Some img ->
        exists b, reader_read k = Some b /\
                  DecodeThreadPool.item_major p img
                  = DecodeThreadPool.single_decode p b) /\
     concat (fst <$> host s)
     = concat ((fun k => (DecodeThreadPool.single_decode p
                            (Invariant.batch_of k)).1)
               <$> seq 0 (length (Pipeline.observed s))) /\
     concat (snd <$> host s)
     = concat ((fun k => (DecodeThreadPool.single_decode p
                            (Invariant.batch_of k)).2)
               <$> seq 0 (length (Pipeline.observed s)))).
Proof.
  intros Hcfg Hmedia Hreader runs host.
  assert (forall tr s, runs tr s ->
            Pipeline.observed s
            = (fun j => DecodeThreadPool.device_image p (Invariant.batch_of j))
                <$> seq 0 (Pipeline.calls s
                           - match Pipeline.trainer s with
                             | Pipeline.TReturned => 1
                             | _ => 0
                             end)) as Hobs.
  { intros tr s Hexec.
    destruct (pipeline_inv_exec p 0 nread ndecode Hcfg Hmedia tr s Hexec)
      as [_ Hinv].
    apply (Invariant.pi_observed _ _ _ s Hinv). }
  assert (forall tr s, runs tr s ->
            host s
            = (fun j => DecodeThreadPool.single_decode p (Invariant.batch_of j))
                <$> seq 0 (length (Pipeline.observed s))) as Hhost.
  { intros tr s Hexec. unfold host. rewrite (Hobs tr s Hexec) at 1.
    rewrite (Hobs tr s Hexec) at 1.
    rewrite length_fmap, length_seq, <-list_fmap_compose.
    apply list_fmap_ext. intros i j _. cbn.
    by apply (device_image_item_major p nread ndecode). }
  split.
  - intros tr s Hexec K HK.
    destruct (delivers p nread ndecode Hcfg Hmedia Hreader
                (K - length (Pipeline.observed s)) s
                (ex_intro _ tr Hexec)) as (tr' & s' & Hexec' & Hlen).
    exists tr', s'. split; [by eapply exec_app | lia].
  - intros tr s Hexec. split; [|split; [|split]].
    + intros Ht. rewrite (Hobs tr s Hexec), length_fmap, length_seq, Ht. lia.
    + intros k img Hk. rewrite (Hobs tr s Hexec) in Hk.
      apply list_lookup_fmap_Some in Hk as (j & -> & Hj).
      apply lookup_seq in Hj as [-> _]. cbn.
      destruct (Hreader k) as (b & Hb & _). exists b. split; [done|].
      rewrite (device_image_item_major p nread ndecode) by done.
      unfold Invariant.batch_of. by rewrite Hb.
    + rewrite (Hhost tr s Hexec), <-list_fmap_compose. done.
    + rewrite (Hhost tr s Hexec), <-list_fmap_compose. done.
Qed.

Lemma fifo_fidelity_witness :
  exists tr s,
    @Pipeline.exec Pipeline.echo_media Pipeline.demo_reader
      Pipeline.demo_params 0 (Pipeline.init Pipeline.demo_params 2 2)
      ([] ++ tr) s /\
    length (Pipeline.observed s) = 3%nat.
Proof.
  apply (proj1 (@fifo_fidelity Pipeline.echo_media Pipeline.demo_reader
                  Pipeline.demo_params 2 2 demo_config_ok demo_media_ok
                  demo_reader_ok) [] _ (Pipeline.exec_nil _ _ _)).
  cbn. lia.
Defined.


(** * Further properties of the code *)

(** ** The worker count of [Loader::start] and the constructor of the pool *)





(** ** The manager when the device cannot be initialised *)

Section device_failure.
Context {M : Media} {R : Reader}.
Variable p : DecodeThreadPool.Params.
Variables device_init nread ndecode : Z.
Hypothesis Hdev : device_init <> 0.
Import DecodeThreadPool Pipeline.

Local Abbreviation step := (Pipeline.step p device_init).
Local Abbreviation exec := (Pipeline.exec p device_init).

(** What holds of every state of such a run. *)
Lemma device_failure_inv tr s :
  exec (Pipeline.init p nread ndecode) tr s ->
  (published s = 0%nat /\ calls s = 0%nat /\ observed s = [] /\
   device s = Device.create /\ trainer s <> TReturned /\
   (trainer s = TReady -> first s = true) /\
   BufferPool.used (decodeBufs s) = 0 /\
   workers s = replicate (Z.to_nat (count p)) WWait /\
   _startSignaled (pool s) = replicate (Z.to_nat (count p)) 0) /\
  (manager s = MInit \/
   manager s = MStopped /\ _stopManager (pool s) = true /\
   _managerStopped (pool s) = true) /\
  (forall ev, ev ∈ tr ->
     ev = EvInit \/ (exists res, ev = EvRead res) \/ ev = EvNext false false).
Proof.
  remember (Pipeline.init p nread ndecode) as s0 eqn:Hs0.
  induction 1 as [|s0 tr s' ev s'' Hexec IH Hstep].
  { subst. split; [by repeat split|]. split; [by left|].
    intros ev Hev. by apply elem_of_nil in Hev. }
  destruct (IH Hs0)
    as ((Hp & Hc & Ho & Hd & Htr & Hf & Hu & Hw & Hss) & Hm & Hevs).
  clear IH Hexec.
  assert (forall id w, workers s' !! id = Some w -> w = WWait) as Hidle.
  { intros id w Hl. rewrite Hw in Hl.
    by apply lookup_replicate in Hl as [-> _]. }
  assert (forall id v, _startSignaled (pool s') !! id = Some v -> v = 0)
    as Hzero.
  { intros id v Hl. rewrite Hss in Hl.
    by apply lookup_replicate in Hl as [-> _]. }
  assert (forall ev0, ev0 ∈ tr ++ [ev] ->
            ev = EvInit \/ (exists res, ev = EvRead res) \/
            ev = EvNext false false ->
            ev0 = EvInit \/ (exists res, ev0 = EvRead res) \/
            ev0 = EvNext false false) as Hsnoc.
  { intros ev0 Hin Hev. apply elem_of_app in Hin as [Hin|Hin]; [by apply Hevs|].
    apply list_elem_of_singleton in Hin. by subst. }
  inversion Hstep; subst; cbn in *;
    try (destruct Hm as [Hm|(Hm & _)]; congruence);
    try (match goal with H : workers _ !! _ = Some _ |- _ =>
           apply Hidle in H; discriminate end).
  - (* read *)
    split; [done|]. split; [done|]. intros ev0 Hin.
    apply (Hsnoc ev0 Hin). right. left. by eexists.
  - (* init *)
    split; [done|]. split; [by right|]. intros ev0 Hin.
    apply (Hsnoc ev0 Hin). by left.
  - (* start *)
    match goal with H : _startSignaled _ !! _ = Some _ |- _ =>
      apply Hzero in H end.
    done.
  - (* next *)
    match goal with H : trainer _ = TReady |- _ => specialize (Hf H) end.
    match goal with H : next_enter _ _ = _ |- _ =>
      unfold next_enter in H; rewrite Hf in H; injection H as <- <- <- end.
    assert (BufferPool.empty (decodeBufs s') = true) as He
      by (by apply bool_decide_eq_true).
    rewrite He in *. cbn in *. split; [by repeat split|]. split; [done|].
    intros ev0 Hin. apply (Hsnoc ev0 Hin). by right; right.
  - (* wake *)
    match goal with H : BufferPool.empty _ = false |- _ =>
      apply bool_decide_eq_false in H end.
    done.
Qed.

End device_failure.

(** X3: when [_device->init()] fails, [manage] stops at once with
    [_stopManager] and [_managerStopped] set, without an error reaching
    the caller: in every run the only steps are reads of the read thread
    and one call of [next] that releases nothing and waits; no minibatch is
    taken, decoded, copied to the device or published, and no call of
    [next] ever returns. *)
Theorem device_init_failure_starves {M : Media} {R : Reader}
    (p : DecodeThreadPool.Params) (device_init nread ndecode : Z)
    (tr : list Pipeline.event) (s : Pipeline.state) :
  device_init <> 0 ->
  Pipeline.exec p device_init (Pipeline.init p nread ndecode) tr s ->
  Pipeline.calls s = 0%nat /\ Pipeline.trainer s <> Pipeline.TReturned /\
  Pipeline.observed s = [] /\ Pipeline.published s = 0%nat /\
  Pipeline.device s = Device.create /\
  BufferPool.empty (Pipeline.decodeBufs s) = true /\
  (Pipeline.manager s = Pipeline.MInit \/
   Pipeline.manager s = Pipeline.MStopped /\
   DecodeThreadPool._stopManager (Pipeline.pool s) = true /\
   DecodeThreadPool._managerStopped (Pipeline.pool s) = true) /\
  (forall ev, ev ∈ tr ->
     ev = Pipeline.EvInit \/ (exists res, ev = Pipeline.EvRead res) \/
     ev = Pipeline.EvNext false false).
Proof.
  intros Hdev Hexec.
  destruct (device_failure_inv p device_init nread ndecode Hdev tr s Hexec)
    as ((Hp & Hc & Ho & Hd & Htr & Hf & Hu & Hw & Hss) & Hm & Hevs).
  repeat (split; [done|]). split; [by apply bool_decide_eq_true|]. done.
Qed.

Lemma device_init_failure_starves_witness :
  exists s,
    @Pipeline.exec DecodeThreadPool.zero_media Pipeline.constant_reader
      DecodeThreadPool.tiny_params 1
      (Pipeline.init DecodeThreadPool.tiny_params 2 2)
      [Pipeline.EvInit; Pipeline.EvNext false false;
       Pipeline.EvRead ReadThread.Returned] s /\
    Pipeline.calls s = 0%nat /\ Pipeline.observed s = [].
Proof.
  destruct (@Pipeline.run DecodeThreadPool.zero_media Pipeline.constant_reader
              DecodeThreadPool.tiny_params 1
              [Pipeline.EvInit; Pipeline.EvNext false false;
               Pipeline.EvRead ReadThread.Returned]
              (Pipeline.init DecodeThreadPool.tiny_params 2 2))
    as [s|] eqn:Hrun.
  - exists s. apply run_sound in Hrun. split; [exact Hrun|].
    destruct (@device_init_failure_starves DecodeThreadPool.zero_media
                Pipeline.constant_reader DecodeThreadPool.tiny_params 1 2 2
                _ s ltac:(discriminate) Hrun) as (Hc & _ & Ho & _).
    split; [exact Hc | exact Ho].
  - vm_compute in Hrun. discriminate.
Defined.

(** ** Invariants of the running pipeline *)

(** The completion counter in the runs of the pipeline: it stays between
    0 and [count], it is 0 whenever the manager is not waiting at the
    barrier, and a worker that signals completion raises it by one to at
    most [count]. *)
Lemma end_signal_bounds {M : Media} {R : Reader}
    (p : DecodeThreadPool.Params) (device_init nread ndecode : Z)
    (tr : list Pipeline.event) (s : Pipeline.state) :
  Pipeline.exec p device_init (Pipeline.init p nread ndecode) tr s ->
  let ended st := DecodeThreadPool._endSignaled (Pipeline.pool st) in
  0 <= ended s <= Z.of_nat (Z.to_nat (DecodeThreadPool.count p)) /\
  (Pipeline.manager s <> Pipeline.MBarrier -> ended s = 0) /\
  (forall id s',
     Pipeline.step p device_init s (Pipeline.EvEnd id) s' ->
     Pipeline.manager s = Pipeline.MBarrier /\
     ended s' = ended s + 1 /\
     ended s' <= Z.of_nat (Z.to_nat (DecodeThreadPool.count p))).
Proof.
  intros Hexec ended.
  pose proof (barrier_inv_exec p device_init nread ndecode tr s Hexec) as Hinv.
  assert (forall st, Invariant.barrier_inv p st ->
            0 <= ended st <= Z.of_nat (Z.to_nat (DecodeThreadPool.count p)) /\
            (Pipeline.manager st <> Pipeline.MBarrier -> ended st = 0))
    as Hbound.
  { intros st Hst. unfold ended. rewrite (Invariant.bi_end p st Hst).
    pose proof (finished_bounds (Pipeline.workers st)
                  (DecodeThreadPool._startSignaled (Pipeline.pool st)))
      as Hfin.
    rewrite (Invariant.bi_workers p st Hst) in Hfin.
    case_decide; [|lia]. split; [lia | done]. }
  destruct (Hbound s Hinv) as [Hb Hz]. split; [done|]. split; [done|].
  intros id s' Hstep.
  pose proof (barrier_inv_step p device_init s _ s' Hstep Hinv) as Hinv'.
  destruct (Hbound s' Hinv') as [Hb' _].
  inversion Hstep as [| | | | | | | | | | | | |s0 id0 Hw| | |]; subst.
  destruct (lookup_lt_is_Some_2
              (DecodeThreadPool._startSignaled (Pipeline.pool s)) id)
    as [v Hv].
  { rewrite (Invariant.bi_signals p s Hinv), <-(Invariant.bi_workers p s Hinv).
    by eapply lookup_lt_Some. }
  destruct (barrier_inv_in_round p s id Pipeline.WDecoded v Hinv Hw Hv)
    as [Hm _]; [by left|].
  split; [done|]. split; [done|]. apply Hb'.
Qed.

(** The workers in the runs of the pipeline: a worker takes a step only
    while the manager waits at the barrier; whenever the manager is
    elsewhere every worker waits for the next start signal. *)
Lemma workers_inside_round {M : Media} {R : Reader}
    (p : DecodeThreadPool.Params) (device_init nread ndecode : Z)
    (tr : list Pipeline.event) (s : Pipeline.state) :
  Pipeline.exec p device_init (Pipeline.init p nread ndecode) tr s ->
  (Pipeline.manager s <> Pipeline.MBarrier ->
   forall id w, Pipeline.workers s !! id = Some w -> w = Pipeline.WWait) /\
  (forall ev s',
     Pipeline.step p device_init s ev s' ->
     match ev with
     | Pipeline.EvStart _ | Pipeline.EvSetup _ | Pipeline.EvItem _ _
     | Pipeline.EvLoopExit _ | Pipeline.EvEnd _ =>
         Pipeline.manager s = Pipeline.MBarrier
     | Pipeline.EvCopy _ | Pipeline.EvPublish | Pipeline.EvTake
     | Pipeline.EvSignal | Pipeline.EvRelease =>
         forall id w, Pipeline.workers s !! id = Some w -> w = Pipeline.WWait
     | _ => True
     end).
Proof.
  intros Hexec.
  pose proof (barrier_inv_exec p device_init nread ndecode tr s Hexec) as Hinv.
  assert (forall id w, Pipeline.workers s !! id = Some w ->
            exists v, DecodeThreadPool._startSignaled (Pipeline.pool s) !! id
                      = Some v) as Hsig.
  { intros id w Hw. apply lookup_lt_is_Some_2.
    rewrite (Invariant.bi_signals p s Hinv), <-(Invariant.bi_workers p s Hinv).
    by eapply lookup_lt_Some. }
  assert (Pipeline.manager s <> Pipeline.MBarrier ->
          forall id w, Pipeline.workers s !! id = Some w -> w = Pipeline.WWait)
    as Hidle.
  { intros Hm id w Hw. destruct (Hsig id w Hw) as [v Hv].
    pose proof (Invariant.bi_round p s Hinv id w v Hw Hv) as Hr.
    rewrite decide_False in Hr by done. by destruct Hr. }
  assert (forall id w, Pipeline.workers s !! id = Some w ->
            w <> Pipeline.WWait -> Pipeline.manager s = Pipeline.MBarrier)
    as Hbusy.
  { intros id w Hw Hne. destruct (Hsig id w Hw) as [v Hv].
    by destruct (barrier_inv_in_round p s id w v Hinv Hw Hv) as [? _];
      [left|]. }
  split; [done|].
  intros ev s' Hstep.
  inversion Hstep; subst; try done;
    try (apply Hidle; congruence);
    try (by eapply Hbusy).
  match goal with
  | Hw : Pipeline.workers s !! ?i = Some Pipeline.WWait,
    Hv : DecodeThreadPool._startSignaled _ !! ?i = Some ?v |- _ =>
      by destruct (barrier_inv_in_round p s i _ v Hinv Hw Hv) as [? _];
        [right|]
  end.
Qed.

(** The pools in the runs of the pipeline: both hold between 0 and their
    capacity of filled slots, and the counts of minibatches read,
    published and handed to the trainer are ordered and within a capacity
    of each other. *)
Lemma pools_within_capacity {M : Media} {R : Reader}
    (p : DecodeThreadPool.Params) (device_init nread ndecode : Z)
    (tr : list Pipeline.event) (s : Pipeline.state) :
  config_ok p nread ndecode -> media_ok p ->
  Pipeline.exec p device_init (Pipeline.init p nread ndecode) tr s ->
  0 <= BufferPool.used (Pipeline.readBufs s) <= nread /\
  0 <= BufferPool.used (Pipeline.decodeBufs s) <= ndecode /\
  (Pipeline.calls s <= Pipeline.published s)%nat /\
  (Pipeline.published s <= Invariant.reads_ok s)%nat /\
  Z.of_nat (Invariant.reads_ok s) <= Z.of_nat (Pipeline.published s) + nread /\
  Z.of_nat (Pipeline.published s) <= Z.of_nat (Pipeline.calls s) + ndecode.
Proof.
  intros Hcfg Hmedia Hexec.
  destruct (pipeline_inv_exec p device_init nread ndecode Hcfg Hmedia tr s Hexec)
    as [Hbar Hinv].
  pose proof (Invariant.pi_in_used _ _ _ s Hinv) as Hiu.
  pose proof (Invariant.pi_in_bound _ _ _ s Hinv) as Hib.
  pose proof (Invariant.pi_out_used _ _ _ s Hinv) as Hou.
  pose proof (Invariant.pi_out_bound _ _ _ s Hinv) as Hob.
  pose proof (Invariant.pi_in_taken _ _ _ s Hinv) as Htaken.
  pose proof (Invariant.pi_published _ _ _ s Hinv) as Hpub.
  pose proof (Invariant.pi_held _ _ _ s Hinv) as Hheld.
  split; [done|]. split; [done|].
  assert (Pipeline.calls s <= Pipeline.published s)%nat as Hcp.
  { unfold Invariant.released in *.
    destruct (Pipeline.trainer s) eqn:Ht; try lia.
    - destruct (decide (Pipeline.calls s = 0%nat)); [lia|].
      specialize (Hheld ltac:(done) ltac:(lia)). lia.
    - destruct (decide (Pipeline.calls s = 0%nat)); [lia|].
      specialize (Hheld ltac:(done) ltac:(lia)). lia. }
  assert (Pipeline.published s <= Invariant.reads_ok s)%nat as Hpr.
  { unfold Invariant.consumed in *.
    destruct (Pipeline.manager s) eqn:Hm; try lia.
    destruct (Htaken eq_refl) as [Hlt _]. specialize (Hpub eq_refl). lia. }
  split; [done|]. split; [done|].
  unfold Invariant.consumed, Invariant.released in *.
  split.
  - destruct (Pipeline.manager s); lia.
  - destruct (Pipeline.trainer s); lia.
Qed.

(** X7: the offsets of [run] and the pointer arithmetic of [work] stay in
    range and inside the buffers, for a configuration whose sizes fit in
    an [int].  In every run before [Loader::stop] is called, when a worker
    decodes item [i], the item is one of its own range and of the
    minibatch, the slot it captured is the write slot of the decode pool,
    its running pointers stand at [i * _datumLen], [i * _targetLen] and
    [i], the regions it passes to [transform] lie inside the data and
    target buffers of that slot, and the products
    [_startInds[id] * _datumLen] and [_startInds[id] * _targetLen] of
    lines 115-116, like the ends of the two regions, are values of
    [int]. *)
Theorem worker_writes_in_bounds {M : Media} {R : Reader}
    (p : DecodeThreadPool.Params) (device_init nread ndecode : Z)
    (tr : list Pipeline.event) (s s' : Pipeline.state) (id : nat) (i : Z) :
  config_ok p nread ndecode -> config_fits p -> media_ok p ->
  Pipeline.exec p device_init (Pipeline.init p nread ndecode) tr s ->
  Pipeline.step p device_init s (Pipeline.EvItem id i) s' ->
  let B := DecodeThreadPool.batchSize p in
  let N := DecodeThreadPool.count p in
  exists loc dst,
    Pipeline.workers s !! id = Some (Pipeline.WLoop loc) /\
    DecodeThreadPool.w_i loc = i /\
    DecodeThreadPool.w_dst loc = BufferPool.writePos (Pipeline.decodeBufs s) /\
    BufferPool.getForWrite (Pipeline.decodeBufs s) = Some dst /\
    DecodeThreadPool.startInd B N (Z.of_nat id) <= i
      < DecodeThreadPool.endInd B N (Z.of_nat id) /\
    0 <= i < B /\
    DecodeThreadPool.w_datumBuf loc = i * DecodeThreadPool.datumLen p /\
    DecodeThreadPool.w_targetBuf loc = i * DecodeThreadPool.targetLen p /\
    DecodeThreadPool.w_metaBuf loc = i /\
    (0 <= DecodeThreadPool.w_datumBuf loc /\
     DecodeThreadPool.w_datumBuf loc + DecodeThreadPool.datumLen p
       <= Z.of_nat (length (data dst)) /\
     0 <= DecodeThreadPool.w_targetBuf loc /\
     DecodeThreadPool.w_targetBuf loc + DecodeThreadPool.targetLen p
       <= Z.of_nat (length (targets dst))) /\
    in_int (DecodeThreadPool.dataOffset B N (DecodeThreadPool.datumLen p)
              (Z.of_nat id)) /\
    in_int (DecodeThreadPool.targetOffset B N (DecodeThreadPool.targetLen p)
              (Z.of_nat id)) /\
    in_int (DecodeThreadPool.w_datumBuf loc + DecodeThreadPool.datumLen p) /\
    in_int (DecodeThreadPool.w_targetBuf loc + DecodeThreadPool.targetLen p).
Proof.
  intros Hcfg Hfit Hmedia Hexec Hstep B N.
  destruct (pipeline_inv_exec p device_init nread ndecode Hcfg Hmedia tr s Hexec)
    as [Hbar Hinv].
  pose proof (datumLen_nonneg p nread ndecode Hcfg) as HdL.
  pose proof (targetLen_nonneg p nread ndecode Hcfg) as HtL.
  destruct (item_step_facts p device_init s id i s' Hbar Hstep) as [Hm Hv].
  destruct Hcfg as [HB HN Hasserts HD Hd HT Ht HR HS].
  inversion Hstep
    as [| | | | | | | | | | |s0 id0 loc src dst dst' loc' Hw Hlt Hsrc Hdst Hwork
        | | | | |]; subst.
  destruct (Invariant.pi_round _ _ _ s Hinv Hm id _ 0 Hw Hv)
    as [(Hld & Hls & Hle & Hli & Hdb & Htb & Hmb) _].
  destruct (partition_covers_guarded _ _ HB HN Hasserts) as (Hcov & _ & _).
  assert (0 <= DecodeThreadPool.w_i loc < DecodeThreadPool.batchSize p)
    as Hrange.
  { apply Hcov. exists (Z.of_nat id). split.
    - apply lookup_lt_Some in Hw.
      rewrite (Invariant.bi_workers p s Hbar) in Hw. lia.
    - apply elem_of_work_items. lia. }
  assert (Invariant.sized p dst) as [Hsd Hst].
  { apply (Invariant.pi_out_sized _ _ _ s Hinv).
    by eapply list_elem_of_lookup_2. }
  assert (0 <= DecodeThreadPool.startInd B N (Z.of_nat id)) as Hstart.
  { unfold DecodeThreadPool.startInd.
    pose proof (itemsPerThread_pos B N HB HN). nia. }
  destruct Hfit as [_ _ Hdata _ Htarget _ _ _].
  unfold in_int, DecodeThreadPool.dataOffset, DecodeThreadPool.targetOffset,
    DecodeThreadPool.datumLen, DecodeThreadPool.targetLen in *.
  exists loc, dst. fold B N in Hle, Hli, Hrange |- *.
  split; [done|]. split; [done|]. split; [done|].
  split; [unfold BufferPool.getForWrite; by rewrite <-Hld|].
  split; [lia|]. split; [done|]. split; [done|]. split; [done|].
  split; [done|]. rewrite Hdb, Htb. subst B.
  split; [nia|]. split; [nia|]. split; [nia|]. split; nia.
Qed.

(** X4: the assertion [_endSignaled <= _count] of [work] (line 201) does
    not fail before [Loader::stop] is called.  In every run, as long as
    [stop] has not been called, the completion counter stays between 0 and
    [count], it is 0 whenever the manager is not waiting at the barrier,
    and a worker that signals completion raises it by one to at most
    [count].  (The second loop of [DecodeThreadPool::stop] raises the
    counter as well, without the lock and without a bound.) *)
Theorem end_signal_within_count {M : Media} {R : Reader}
    (p : DecodeThreadPool.Params) (device_init nread ndecode : Z)
    (tr : list Shutdown.event) (s : Shutdown.state) :
  Shutdown.exec p device_init (Shutdown.init p nread ndecode) tr s ->
  Shutdown.stopper s = Shutdown.SNotCalled ->
  let ended st :=
    DecodeThreadPool._endSignaled (Pipeline.pool (Shutdown.base st)) in
  0 <= ended s <= Z.of_nat (Z.to_nat (DecodeThreadPool.count p)) /\
  (Pipeline.manager (Shutdown.base s) <> Pipeline.MBarrier -> ended s = 0) /\
  (forall id s',
     Shutdown.step p device_init s (Shutdown.Run (Pipeline.EvEnd id)) s' ->
     Pipeline.manager (Shutdown.base s) = Pipeline.MBarrier /\
     ended s' = ended s + 1 /\
     ended s' <= Z.of_nat (Z.to_nat (DecodeThreadPool.count p))).
Proof.
  intros Hexec Hnc ended.
  destruct (before_stop p device_init nread ndecode tr s Hexec Hnc)
    as (tr0 & -> & Hexec0 & Hs).
  destruct (end_signal_bounds p device_init nread ndecode tr0
              (Shutdown.base s) Hexec0) as (Hb & Hz & Hend).
  split; [done|]. split; [done|].
  intros id s' Hstep. apply run_step_inv in Hstep as [Hstep _].
  by apply (Hend id).
Qed.

(** X5: before [Loader::stop] is called the workers touch the write slot
    only inside a round.  In every run, as long as [stop] has not been
    called, a worker takes a step (consuming its start signal, setting up,
    decoding an item, leaving its loop, signalling completion) only while
    the manager waits at the barrier; whenever the manager is elsewhere,
    in particular when it transposes the slot and copies it to the
    device, every worker waits for the next start signal. *)
Theorem workers_run_inside_round {M : Media} {R : Reader}
    (p : DecodeThreadPool.Params) (device_init nread ndecode : Z)
    (tr : list Shutdown.event) (s : Shutdown.state) :
  Shutdown.exec p device_init (Shutdown.init p nread ndecode) tr s ->
  Shutdown.stopper s = Shutdown.SNotCalled ->
  let b := Shutdown.base s in
  (Pipeline.manager b <> Pipeline.MBarrier ->
   forall id w, Pipeline.workers b !! id = Some w -> w = Pipeline.WWait) /\
  (forall ev s',
     Shutdown.step p device_init s (Shutdown.Run ev) s' ->
     match ev with
     | Pipeline.EvStart _ | Pipeline.EvSetup _ | Pipeline.EvItem _ _
     | Pipeline.EvLoopExit _ | Pipeline.EvEnd _ =>
         Pipeline.manager b = Pipeline.MBarrier
     | Pipeline.EvCopy _ | Pipeline.EvPublish | Pipeline.EvTake
     | Pipeline.EvSignal | Pipeline.EvRelease =>
         forall id w, Pipeline.workers b !! id = Some w -> w = Pipeline.WWait
     | _ => True
     end).
Proof.
  intros Hexec Hnc b.
  destruct (before_stop p device_init nread ndecode tr s Hexec Hnc)
    as (tr0 & -> & Hexec0 & Hs).
  destruct (workers_inside_round p device_init nread ndecode tr0
              (Shutdown.base s) Hexec0) as (Hidle & Hsteps).
  split; [done|].
  intros ev s' Hstep. apply run_step_inv in Hstep as [Hstep _].
  by apply (Hsteps ev (Shutdown.base s')).
Qed.

(** X6: back-pressure before [Loader::stop] is called.  In every run, as
    long as [stop] has not been called, both pools hold between 0 and
    their capacity of filled slots; no minibatch reaches the trainer
    before it is published nor is published before it is read; the read
    thread is never more than the capacity of the read pool ahead of the
    manager, and the manager never more than the capacity of the decode
    pool ahead of the trainer.  ([DecodeThreadPool::stop] advances the
    write cursor of the read pool without testing whether it is full.) *)
Theorem pipeline_backpressure {M : Media} {R : Reader}
    (p : DecodeThreadPool.Params) (device_init nread ndecode : Z)
    (tr : list Shutdown.event) (s : Shutdown.state) :
  config_ok p nread ndecode -> media_ok p ->
  Shutdown.exec p device_init (Shutdown.init p nread ndecode) tr s ->
  Shutdown.stopper s = Shutdown.SNotCalled ->
  let b := Shutdown.base s in
  0 <= BufferPool.used (Pipeline.readBufs b) <= nread /\
  0 <= BufferPool.used (Pipeline.decodeBufs b) <= ndecode /\
  (Pipeline.calls b <= Pipeline.published b)%nat /\
  (Pipeline.published b <= Invariant.reads_ok b)%nat /\
  Z.of_nat (Invariant.reads_ok b) <= Z.of_nat (Pipeline.published b) + nread /\
  Z.of_nat (Pipeline.published b) <= Z.of_nat (Pipeline.calls b) + ndecode.
Proof.
  intros Hcfg Hmedia Hexec Hnc b.
  destruct (before_stop p device_init nread ndecode tr s Hexec Hnc)
    as (tr0 & -> & Hexec0 & Hs).
  by apply (pools_within_capacity p device_init nread ndecode tr0).
Qed.

Lemma end_signal_within_count_witness :
  exists s,
    @Shutdown.exec Pipeline.echo_media Pipeline.demo_reader
      Pipeline.demo_params 0 (Shutdown.init Pipeline.demo_params 2 2)
      (Shutdown.Run <$> Pipeline.demo_run) s /\
    Shutdown.stopper s = Shutdown.SNotCalled /\
    0 <= DecodeThreadPool._endSignaled (Pipeline.pool (Shutdown.base s)) <= 2.
Proof.
  destruct demo_run_exec as (s & Hexec & _).
  apply pipeline_run_before_stop in Hexec.
  eexists. split; [exact Hexec|]. split; [reflexivity|].
  exact (proj1 (@end_signal_within_count Pipeline.echo_media
                  Pipeline.demo_reader Pipeline.demo_params 0 2 2
                  _ _ Hexec eq_refl)).
Defined.

Lemma workers_run_inside_round_witness :
  exists s,
    @Shutdown.exec Pipeline.echo_media Pipeline.demo_reader
      Pipeline.demo_params 0 (Shutdown.init Pipeline.demo_params 2 2)
      (Shutdown.Run <$> Pipeline.demo_run) s /\
    Shutdown.stopper s = Shutdown.SNotCalled /\
    (Pipeline.manager (Shutdown.base s) <> Pipeline.MBarrier ->
     forall id w,
       Pipeline.workers (Shutdown.base s) !! id = Some w ->
       w = Pipeline.WWait).
Proof.
  destruct demo_run_exec as (s & Hexec & _).
  apply pipeline_run_before_stop in Hexec.
  eexists. split; [exact Hexec|]. split; [reflexivity|].
  exact (proj1 (@workers_run_inside_round Pipeline.echo_media
                  Pipeline.demo_reader Pipeline.demo_params 0 2 2
                  _ _ Hexec eq_refl)).
Defined.

Lemma pipeline_backpressure_witness :
  exists s,
    @Shutdown.exec Pipeline.echo_media Pipeline.demo_reader
      Pipeline.demo_params 0 (Shutdown.init Pipeline.demo_params 2 2)
      (Shutdown.Run <$> Pipeline.demo_run) s /\
    Shutdown.stopper s = Shutdown.SNotCalled /\
    0 <= BufferPool.used (Pipeline.decodeBufs (Shutdown.base s)) <= 2 /\
    (Pipeline.calls (Shutdown.base s)
     <= Pipeline.published (Shutdown.base s))%nat.
Proof.
  destruct demo_run_exec as (s & Hexec & _).
  apply pipeline_run_before_stop in Hexec.
  eexists. split; [exact Hexec|]. split; [reflexivity|].
  destruct (@pipeline_backpressure Pipeline.echo_media Pipeline.demo_reader
              Pipeline.demo_params 0 2 2 _ _
              demo_config_ok demo_media_ok Hexec eq_refl)
    as (_ & Hout & Hcalls & _).
  split; [exact Hout | exact Hcalls].
Defined.

Lemma worker_writes_in_bounds_witness :
  exists s s' loc,
    @Pipeline.step Pipeline.echo_media Pipeline.demo_reader
      Pipeline.demo_params 0 s (Pipeline.EvItem 1 1) s' /\
    Pipeline.workers s !! 1%nat = Some (Pipeline.WLoop loc) /\
    DecodeThreadPool.w_datumBuf loc = 1.
Proof.
  pose (tr := [Pipeline.EvInit; Pipeline.EvNext false false;
               Pipeline.EvRead ReadThread.Returned; Pipeline.EvTake;
               Pipeline.EvSignal; Pipeline.EvStart 1; Pipeline.EvSetup 1]).
  destruct (@Pipeline.run Pipeline.echo_media Pipeline.demo_reader
              Pipeline.demo_params 0 tr (Pipeline.init Pipeline.demo_params 2 2))
    as [s|] eqn:Hrun; [|vm_compute in Hrun; discriminate].
  destruct (@Pipeline.fire Pipeline.echo_media Pipeline.demo_reader
              Pipeline.demo_params 0 (Pipeline.EvItem 1 1) s)
    as [s'|] eqn:Hfire.
  2:{ vm_compute in Hrun. injection Hrun as <-.
      vm_compute in Hfire. discriminate. }
  apply run_sound in Hrun. apply fire_sound in Hfire.
  destruct (@worker_writes_in_bounds Pipeline.echo_media Pipeline.demo_reader
              Pipeline.demo_params 0 2 2 tr s s' 1%nat 1
              demo_config_ok demo_config_fits demo_media_ok Hrun Hfire)
    as (loc & dst & Hw & Hi & _ & _ & _ & _ & Hd & _).
  exists s, s', loc. split; [exact Hfire|]. split; [exact Hw|].
  rewrite Hd. reflexivity.
Defined.

(** ** One iteration of [work]: what it leaves alone *)

Section work_frame.
Context {M : Media}.
Variable p : DecodeThreadPool.Params.
Import DecodeThreadPool.

Lemma transform_meta_frame id encDatum encDatumLen encTarget encTargetLen
      datumBuf targetBuf metaPtr dst :
  0 <= datumBuf -> 0 <= targetBuf -> 0 <= metaPtr -> 0 <= batchSize p ->
  0 <= datumLen p -> 0 <= targetLen p -> 0 <= encTargetLen ->
  let dst' := transform_meta p id encDatum encDatumLen encTarget encTargetLen
                datumBuf targetBuf metaPtr dst in
  (length (data dst') = length (data dst) /\
   length (targets dst') = length (targets dst) /\
   length (meta dst') = length (meta dst)) /\
  (forall k : nat,
     ~ datumBuf <= Z.of_nat k < datumBuf + datumLen p ->
     data dst' !! k = data dst !! k) /\
  (forall k : nat,
     ~ targetBuf <= Z.of_nat k < targetBuf + targetLen p ->
     targets dst' !! k = targets dst !! k) /\
  (forall k : nat,
     Z.of_nat k <> metaPtr -> Z.of_nat k <> metaPtr + batchSize p ->
     meta dst' !! k = meta dst !! k).
Proof.
  intros Hd Ht Hm HB HdL HtL He dst'. subst dst'. unfold transform_meta.
  destruct (media_transform id encDatum encDatumLen (datumLen p))
    as [dec scalar].
  set (e := if decide (encTargetLen > targetLen p) then targetLen p
            else encTargetLen).
  assert (0 <= e <= targetLen p) as Hebound
    by (subst e; case_decide; lia).
  cbn. split; [|split; [|split]].
  - split; [apply memcpy_length|]. split.
    + case_decide; by rewrite ?memset_length, memcpy_length.
    + by rewrite !length_insert.
  - intros k Hk. apply memcpy_lookup_outside; lia.
  - intros k Hk. case_decide.
    + rewrite memset_lookup_outside by lia.
      apply memcpy_lookup_outside; lia.
    + apply memcpy_lookup_outside; lia.
  - intros k Hk1 Hk2. rewrite !list_lookup_insert_ne by lia. done.
Qed.

End work_frame.

(** X8: an iteration of the loop of [work] writes only the regions of its
    item.  With the running pointers not negative, it leaves the lengths
    of the three buffers of the slot as they were, every byte of the data
    buffer outside [[datumBuf, datumBuf + _datumLen)] and every byte of the
    target buffer outside [[targetBuf, targetBuf + _targetLen)] unchanged;
    on the [READ_CONTENTS] path it leaves the meta buffer alone, otherwise
    it changes at most the entries [metaBuf] and [metaBuf + _batchSize];
    and it advances the three pointers by [_datumLen], [_targetLen] and 1. *)
Theorem work_item_writes_only_its_item {M : Media}
    (p : DecodeThreadPool.Params) (id : Z)
    (loc loc' : DecodeThreadPool.WorkerLocals) (src : EncTuple)
    (dst dst' : BufferTuple) :
  DecodeThreadPool.work_item p id loc src dst = Some (dst', loc') ->
  0 <= DecodeThreadPool.w_datumBuf loc ->
  0 <= DecodeThreadPool.w_targetBuf loc ->
  0 <= DecodeThreadPool.w_metaBuf loc ->
  0 <= DecodeThreadPool.batchSize p ->
  0 <= DecodeThreadPool.datumLen p -> 0 <= DecodeThreadPool.targetLen p ->
  (length (data dst') = length (data dst) /\
   length (targets dst') = length (targets dst) /\
   length (meta dst') = length (meta dst)) /\
  (forall k : nat,
     ~ DecodeThreadPool.w_datumBuf loc <= Z.of_nat k
       < DecodeThreadPool.w_datumBuf loc + DecodeThreadPool.datumLen p ->
     data dst' !! k = data dst !! k) /\
  (forall k : nat,
     ~ DecodeThreadPool.w_targetBuf loc <= Z.of_nat k
       < DecodeThreadPool.w_targetBuf loc + DecodeThreadPool.targetLen p ->
     targets dst' !! k = targets dst !! k) /\
  (DecodeThreadPool.targetConversion p = DecodeThreadPool.READ_CONTENTS p ->
   meta dst' = meta dst) /\
  (forall k : nat,
     Z.of_nat k <> DecodeThreadPool.w_metaBuf loc ->
     Z.of_nat k
       <> DecodeThreadPool.w_metaBuf loc + DecodeThreadPool.batchSize p ->
     meta dst' !! k = meta dst !! k) /\
  DecodeThreadPool.w_i loc' = DecodeThreadPool.w_i loc + 1 /\
  DecodeThreadPool.w_datumBuf loc'
    = DecodeThreadPool.w_datumBuf loc + DecodeThreadPool.datumLen p /\
  DecodeThreadPool.w_targetBuf loc'
    = DecodeThreadPool.w_targetBuf loc + DecodeThreadPool.targetLen p /\
  DecodeThreadPool.w_metaBuf loc' = DecodeThreadPool.w_metaBuf loc + 1.
Proof.
  intros Hwork Hd Ht Hm HB HdL HtL.
  unfold DecodeThreadPool.work_item in Hwork. cbv zeta in Hwork.
  destruct (getItem (enc_data src) (DecodeThreadPool.w_i loc))
    as [datum|] eqn:Hdatum; [|done].
  injection Hwork as <- <-. cbn [DecodeThreadPool.w_i
    DecodeThreadPool.w_datumBuf DecodeThreadPool.w_targetBuf
    DecodeThreadPool.w_metaBuf].
  case_decide as Hconv.
  - unfold DecodeThreadPool.transform_joint.
    destruct (media_transform_joint _ _ _ _ _ _ _) as [dec tgt]. cbn.
    split; [by rewrite !memcpy_length|].
    split; [intros k Hk; apply memcpy_lookup_outside; lia|].
    split; [intros k Hk; apply memcpy_lookup_outside; lia|].
    done.
  - assert (0 <= item_len
                   (getItem (enc_targets src) (DecodeThreadPool.w_i loc)))
      as Hlen
      by (unfold item_len; destruct (getItem (enc_targets src) _); lia).
    destruct (transform_meta_frame p id datum (item_len (Some datum))
                (default [] (getItem (enc_targets src)
                               (DecodeThreadPool.w_i loc)))
                _ _ _ _ dst Hd Ht Hm HB HdL HtL Hlen)
      as (Hlens & Hdata & Htargets & Hmeta).
    split; [done|]. split; [done|]. split; [done|].
    split; [done|]. split; [done|]. done.
Qed.

Lemma work_item_writes_only_its_item_witness :
  exists dst' loc',
    @DecodeThreadPool.work_item DecodeThreadPool.zero_media
      DecodeThreadPool.tiny_params 0
      (DecodeThreadPool.work_setup DecodeThreadPool.tiny_params 0 0 0)
      {| enc_data := [[x07]]; enc_targets := [[x05]] |}
      DecodeThreadPool.tiny_tuple = Some (dst', loc') /\
    length (meta dst') = 2%nat.
Proof.
  destruct (@DecodeThreadPool.work_item DecodeThreadPool.zero_media
              DecodeThreadPool.tiny_params 0
              (DecodeThreadPool.work_setup DecodeThreadPool.tiny_params 0 0 0)
              {| enc_data := [[x07]]; enc_targets := [[x05]] |}
              DecodeThreadPool.tiny_tuple)
    as [[dst' loc']|] eqn:Hwork; [|vm_compute in Hwork; discriminate].
  exists dst', loc'. split; [reflexivity|].
  refine (proj2 (proj2 (proj1
    (@work_item_writes_only_its_item DecodeThreadPool.zero_media
       DecodeThreadPool.tiny_params 0 _ loc' _ DecodeThreadPool.tiny_tuple
       dst' Hwork _ _ _ _ _ _)))); vm_compute; discriminate.
Defined.

(** X9: items that are missing.  An iteration of [work] fails its
    assertion exactly when the encoded data buffer has no item at the
    index, that is when the index is outside the buffer; a missing target
    is tolerated on the raw-copy path: the target region is filled with
    zeros and the recorded target length is 0. *)
Theorem work_item_missing_items {M : Media}
    (p : DecodeThreadPool.Params) (id : Z)
    (loc : DecodeThreadPool.WorkerLocals) (src : EncTuple)
    (dst : BufferTuple) :
  let i := DecodeThreadPool.w_i loc in
  let T := DecodeThreadPool.targetLen p in
  (DecodeThreadPool.work_item p id loc src dst = None <->
   ~ 0 <= i < Z.of_nat (length (enc_data src))) /\
  (0 <= i < Z.of_nat (length (enc_data src)) ->
   ~ 0 <= i < Z.of_nat (length (enc_targets src)) ->
   DecodeThreadPool.targetConversion p <> DecodeThreadPool.READ_CONTENTS p ->
   0 <= T -> 0 <= DecodeThreadPool.batchSize p ->
   DecodeThreadPool.w_targetBuf loc = i * T ->
   DecodeThreadPool.w_metaBuf loc = i ->
   (i + 1) * T <= Z.of_nat (length (targets dst)) ->
   DecodeThreadPool.batchSize p + i < Z.of_nat (length (meta dst)) ->
   exists dst' loc',
     DecodeThreadPool.work_item p id loc src dst = Some (dst', loc') /\
     slice (targets dst') (i * T) T = replicate (Z.to_nat T) x00 /\
     meta dst' !! Z.to_nat (DecodeThreadPool.batchSize p + i) = Some 0).
Proof.
  intros i T.
  assert (forall buf : CharItems,
            getItem buf i = None <-> ~ 0 <= i < Z.of_nat (length buf))
    as Hget.
  { intros buf. unfold getItem. case_decide.
    - rewrite lookup_ge_None. lia.
    - split; [lia | done]. }
  split.
  - rewrite <-Hget. unfold DecodeThreadPool.work_item. cbv zeta. fold i.
    destruct (getItem (enc_data src) i); [|done]. split; done.
  - intros Hdata Htarget Hconv HT HB Htb Hmb Hfit Hmeta.
    destruct (getItem (enc_data src) i) as [datum|] eqn:Hdatum;
      [|by apply Hget in Hdatum].
    apply Hget in Htarget.
    unfold DecodeThreadPool.work_item. cbv zeta. fold i.
    rewrite Hdatum, Htarget, decide_False by done. cbn [default item_len].
    eexists _, _. split; [reflexivity|]. rewrite Htb, Hmb. split.
    + change 0 with (Z.of_nat (length (@nil byte))).
      rewrite slice_targets_meta_same by (fold T; lia).
      unfold DecodeThreadPool.fixed_target. fold T. cbn.
      by rewrite take_nil, Nat.sub_0_r.
    + replace (DecodeThreadPool.batchSize p + i)
        with (i + DecodeThreadPool.batchSize p) by lia.
      rewrite transform_meta_length_slot by lia. f_equal. fold T. lia.
Qed.

Lemma work_item_missing_items_witness :
  exists dst' loc',
    @DecodeThreadPool.work_item DecodeThreadPool.zero_media
      DecodeThreadPool.tiny_params 0
      (DecodeThreadPool.work_setup DecodeThreadPool.tiny_params 0 0 0)
      {| enc_data := [[x07]]; enc_targets := [] |}
      {| data := [x01]; targets := [x02; x03]; meta := [4; 5] |}
    = Some (dst', loc') /\
    slice (targets dst') 0 2 = [x00; x00].
Proof.
  destruct (proj2 (@work_item_missing_items DecodeThreadPool.zero_media
                     DecodeThreadPool.tiny_params 0
                     (DecodeThreadPool.work_setup
                        DecodeThreadPool.tiny_params 0 0 0)
                     {| enc_data := [[x07]]; enc_targets := [] |}
                     {| data := [x01]; targets := [x02; x03];
                        meta := [4; 5] |}))
    as (dst' & loc' & Hwork & Hz & _);
    [vm_compute; intuition discriminate ..|].
  exists dst', loc'. split; [exact Hwork | exact Hz].
Defined.

(** ** [Loader::drain] *)

(** X10: draining.  Each call of [drain] gives up one filled slot of the
    decode pool and a call on an empty pool does nothing: after [n] calls
    a pool with [used] filled slots has [max 0 (used - n)] left, so [used]
    calls empty it and the count of filled slots never turns negative;
    the write cursor, the capacity and the buffers are left alone. *)
Theorem drain_empties (n : nat) (q : BufferPool.t BufferTuple) :
  0 <= BufferPool.used q ->
  let q' := Nat.iter n LoaderOps.drain q in
  BufferPool.used q' = Z.max 0 (BufferPool.used q - Z.of_nat n) /\
  (BufferPool.used q <= Z.of_nat n -> BufferPool.empty q' = true) /\
  BufferPool.writePos q' = BufferPool.writePos q /\
  BufferPool.count q' = BufferPool.count q /\
  BufferPool.bufs q' = BufferPool.bufs q.
Proof.
  intros Hused q'.
  assert (BufferPool.used q' = Z.max 0 (BufferPool.used q - Z.of_nat n) /\
          BufferPool.writePos q' = BufferPool.writePos q /\
          BufferPool.count q' = BufferPool.count q /\
          BufferPool.bufs q' = BufferPool.bufs q) as (Hu & Hw & Hc & Hb).
  { subst q'. induction n as [|n (IHu & IHw & IHc & IHb)].
    - cbn. split; [lia | done].
    - rewrite Nat.iter_succ. unfold LoaderOps.drain at 1 3 5 7.
      unfold BufferPool.empty. case_bool_decide as He.
      + rewrite IHu in He |- *. split; [lia | done].
      + cbn. rewrite IHu in He |- *. split; [lia | done]. }
  split; [done|]. split; [|done].
  intros Hle. apply bool_decide_eq_true. lia.
Qed.

Lemma drain_empties_witness :
  BufferPool.empty
    (Nat.iter 3 LoaderOps.drain
       (BufferPool.advanceWritePos
          (BufferPool.advanceWritePos
             (BufferPool.create 2 DecodeThreadPool.tiny_tuple))))
  = true.
Proof.
  apply (drain_empties 3); cbn; lia.
Defined.

(** ** The life cycle of the facade *)

(** X11: what [Loader::start] does, for a batch of at least one item,
    sizes that fit in an [int] and [hardware_concurrency()] at least 1.
    It sets [_first].  When one of the four allocations of its [try] block
    fails it returns -1 and spawns no thread.  When a later allocation
    fails, one of the [N + 2] calls of [new thread] made outside the [try]
    block, it returns nothing: [std::bad_alloc] leaves it, with the four
    objects installed, the threads spawned so far running and the read
    thread not spawned.  Otherwise it returns 0: the read pool is sized
    from a data length divided by 8, the decode pool is pinned exactly
    when the device is not the CPU, the decode stage has the computed
    worker count [N], and [N + 2] threads run: the workers, the manager
    and the reader. *)
Theorem start_outcome (numCores : Z) (l : Loader.t) :
  Loader.sizes_fit l -> 1 <= numCores ->
  let N := LoaderThreads.threadCount (Loader._batchSize l) numCores in
  exists r l',
    Loader.start numCores l = (r, l') /\ Loader._first l' = true /\
    let installed :=
      Loader._readBufs l' = Some (Loader.read_pool l) /\
      Loader._decodeBufs l' = Some (Loader.decode_pool l) /\
      Loader._decodeThreads l' = Some N in
    let started :=
      r = Loader.Ret 0 /\ Loader.threads l' = Loader.threads l + N + 2 /\
      Loader._readThread l' = Some true /\ installed in
    match Loader.first_failure (Loader.heap l) with
    | Some k =>
        if decide (k < 4)%nat
        then r = Loader.Ret (-1) /\ Loader.threads l' = Loader.threads l
        else if decide (k < 4 + (Z.to_nat N + 2))%nat
        then r = Loader.Throw Loader.bad_alloc /\
             Loader.threads l' = Loader.threads l + (Z.of_nat k - 4) /\
             Loader._readThread l' = Some false /\ installed
        else started
    | None => started
    end.
Proof.
  intros Hs Hc N.
  destruct (heap_cases (Z.to_nat N + 2) (Loader.heap l))
    as [(k & h & Hk & Hh)|[(k & Hf & Hk)|Hok]].
  - eexists _, _. split; [by apply (start_fails_at k h)|]. split; [done|].
    cbv zeta. rewrite (proj2 (first_failure_Some _ k)) by (by exists h).
    by rewrite decide_True by done.
  - eexists _, _. split; [by apply (start_thread_fails numCores l k)|].
    split; [done|]. cbv zeta. rewrite Hf.
    rewrite decide_False by lia. rewrite decide_True by (fold N; lia).
    done.
  - eexists _, _. split; [by apply start_ok|]. split; [done|].
    cbv zeta. unfold Loader.allocs_ok in Hok. fold N in Hok.
    destruct (Loader.first_failure (Loader.heap l)) as [k|]; [|done].
    rewrite !decide_False by lia. done.
Qed.

Lemma start_outcome_witness :
  exists l',
    Loader.start 8
      (Loader.fresh 128 3072 1 1 4 1 true
         [true; true; true; true; true; true; false])
    = (Loader.Throw Loader.bad_alloc, l') /\
    Loader.threads l' = 2 /\ Loader._readThread l' = Some false.
Proof.
  destruct (start_outcome 8
              (Loader.fresh 128 3072 1 1 4 1 true
                 [true; true; true; true; true; true; false]))
    as (r & l' & Hstart & _ & Hcase).
  - split; unfold in_int; vm_compute; intuition discriminate.
  - lia.
  - cbv zeta in Hcase.
    change (Loader.first_failure _) with (Some 6%nat) in Hcase.
    cbv iota in Hcase.
    rewrite decide_False in Hcase by lia.
    rewrite decide_True in Hcase by (vm_compute; lia).
    destruct Hcase as (-> & Ht & Hrt & _).
    exists l'. split; [exact Hstart|]. split; [exact Ht | exact Hrt].
Defined.

(** X12: restarting a started pipeline.  After a [start] that returned 0,
    a [stop] that returns leaves the four handles null and the [N + 2]
    threads of the pipeline gone.  [reset] (stop, reset of the reader,
    start) then returns 0 and, when none of the allocations of the restart
    fails, leaves a started pipeline again: the reader back at its first
    minibatch, [_first] set so that the next call of [next] releases
    nothing, the four handles installed with pools of the same shapes and
    [N + 2] new threads running.  The batch has at least one item, the
    sizes fit in an [int] and [hardware_concurrency()] is at least 1. *)
Theorem reset_restarts (numCores : Z) (joins : bool) (l l1 ls : Loader.t) :
  Loader.sizes_fit l -> 1 <= numCores ->
  Loader.start numCores l = (Loader.Ret 0, l1) ->
  Loader.stop joins l1 = (Loader.Ret tt, ls) ->
  let N := LoaderThreads.threadCount (Loader._batchSize l) numCores in
  Loader.allocs_ok (4 + (Z.to_nat N + 2)) (Loader.heap l1) ->
  Loader.threads l1 = Loader.threads l + (N + 2) /\
  Loader.threads ls = Loader.threads l /\
  Loader.no_partial_state ls /\
  exists l2,
    Loader.reset numCores joins l1 = (Loader.Ret 0, l2) /\
    Loader.threads l2 = Loader.threads l + (N + 2) /\
    Loader.reader_pos l2 = 0%nat /\ Loader._first l2 = true /\
    Loader._readBufs l2 = Some (Loader.read_pool l) /\
    Loader._readThread l2 = Some true /\
    Loader._decodeBufs l2 = Some (Loader.decode_pool l) /\
    Loader._decodeThreads l2 = Some N.
Proof.
  intros Hs Hc Hstart Hstop N Hok.
  assert (l1 = Loader.with_handles (Some (Loader.read_pool l))
                 (Some (Loader.decode_pool l)) (Some true) (Some N)
                 (Loader.with_threads (Loader.threads l + N + 2)
                    (Loader.with_heap
                       (drop (4 + (Z.to_nat N + 2)) (Loader.heap l))
                       (Loader.with_first true l)))) as Hl1.
  { destruct (heap_cases (Z.to_nat N + 2) (Loader.heap l))
      as [(k & h & Hk & Hh)|[(k & Hf & Hk)|Hok0]].
    - rewrite (start_fails_at k h) in Hstart by done. discriminate.
    - rewrite (start_thread_fails numCores l k) in Hstart by done.
      discriminate.
    - rewrite start_ok in Hstart by done. by injection Hstart as <-. }
  destruct (stop_returns joins l1 ls Hstop) as (count & -> & _ & Hcount & Hls).
  assert (count = N) as -> by (subst l1; cbn in Hcount; congruence).
  assert (Loader.sizes_fit (Loader.with_reader_pos 0 ls)) as Hs2
    by (by subst ls l1).
  assert (LoaderThreads.threadCount
            (Loader._batchSize (Loader.with_reader_pos 0 ls)) numCores = N)
    as HN by (by subst ls l1).
  pose proof (start_ok numCores (Loader.with_reader_pos 0 ls) Hs2 Hc) as Hs3.
  cbv zeta in Hs3. rewrite HN in Hs3.
  specialize (Hs3 ltac:(by subst ls l1)).
  split; [subst l1; cbn; lia|]. split; [subst ls l1; cbn; lia|].
  split; [by subst ls|].
  eexists. split; [by rewrite (reset_unfold numCores true l1 ls _ _ Hstop Hs3)|].
  cbn. split; [subst ls l1; cbn; lia|]. by subst ls l1.
Qed.

Lemma reset_restarts_witness :
  exists l1 l2,
    Loader.start 8 (Loader.fresh 128 3072 1 1 4 1 true []) = (Loader.Ret 0, l1)
    /\ Loader.reset 8 true l1 = (Loader.Ret 0, l2) /\
    Loader.threads l2 = 10.
Proof.
  destruct (Loader.start 8 (Loader.fresh 128 3072 1 1 4 1 true []))
    as [r l1] eqn:Hstart.
  assert (r = Loader.Ret 0) as ->
    by (vm_compute in Hstart; by injection Hstart as <- _).
  destruct (Loader.stop true l1) as [rs ls] eqn:Hstop.
  assert (rs = Loader.Ret tt) as ->.
  { vm_compute in Hstart. injection Hstart as <-.
    vm_compute in Hstop. by injection Hstop as <- _. }
  destruct (reset_restarts 8 true (Loader.fresh 128 3072 1 1 4 1 true [])
              l1 ls) as (_ & _ & _ & l2 & Hreset & Ht & _).
  - split; unfold in_int; vm_compute; intuition discriminate.
  - lia.
  - exact Hstart.
  - exact Hstop.
  - vm_compute in Hstart. injection Hstart as <-. vm_compute. exact I.
  - exists l1, l2. split; [reflexivity|]. split; [exact Hreset | exact Ht].
Defined.

(** X13: a facade whose first [start] failed on one of its four
    allocations cannot be stopped.  The read stage was not started, so
    [stop] never returns: it dereferences the null [_readThread] (line
    410) when the first or the second allocation failed, its call of
    [drain] dereferences the null [_decodeBufs] (line 481) when the third
    failed, and it spins in the loop of lines 411-414, waiting for a
    thread that was never spawned, when the fourth failed.  [reset], which
    starts with [stop], ends the same way. *)
Theorem stop_after_failed_start (k : nat) (h : list bool) (numCores : Z)
    (joins : bool) (l : Loader.t) :
  Loader.sizes_fit l -> 1 <= numCores ->
  (k < 4)%nat -> Loader.heap l = replicate k true ++ false :: h ->
  Loader.no_partial_state l ->
  exists l',
    Loader.start numCores l = (Loader.Ret (-1), l') /\
    Loader.stop joins l'
    = (if decide (k = 3)%nat then Loader.Spins else Loader.Fault, l') /\
    Loader.reset numCores joins l'
    = (if decide (k = 3)%nat then Loader.Spins else Loader.Fault, l').
Proof.
  intros Hs Hc Hk Hheap (Hrb & Hrt & Hdb & Hdt).
  eexists. split; [by apply (start_fails_at k h)|].
  rewrite Hrb, Hrt, Hdb, Hdt.
  destruct k as [|[|[|[|k]]]]; [| | | |lia]; by cbn.
Qed.

Lemma stop_after_failed_start_witness :
  exists l',
    Loader.start 8 (Loader.fresh 128 3072 1 1 4 1 true [true; true; true; false])
    = (Loader.Ret (-1), l') /\
    Loader.stop true l' = (Loader.Spins, l').
Proof.
  destruct (stop_after_failed_start 3 [] 8 true
              (Loader.fresh 128 3072 1 1 4 1 true [true; true; true; false]))
    as (l' & Hs & Hstop & _).
  - split; unfold in_int; vm_compute; intuition discriminate.
  - lia.
  - lia.
  - reflexivity.
  - by repeat split.
  - exists l'. split; [exact Hs | exact Hstop].
Defined.

(** ** The check of the unit test *)

Section test_sums.
Import ThreadTest.
Variable cs : bool.

Local Abbreviation total l := (foldr Z.add 0 (map (char_value cs) l)).
Local Abbreviation total_of f l := (foldr Z.add 0 (map f l)).

Lemma uint_add_l a b : uint (uint a + b) = uint (a + b).
Proof. unfold uint. by rewrite Z.add_mod_idemp_l. Qed.

Lemma uint_add_r a b : uint (a + uint b) = uint (a + b).
Proof. unfold uint. by rewrite Z.add_mod_idemp_r. Qed.

Lemma uint_add3 a b c : uint (uint (uint a + uint b) + uint c) = uint (a + (b + c)).
Proof.
  rewrite uint_add_r, uint_add_l, <-Z.add_assoc, uint_add_l.
  rewrite Z.add_assoc, (Z.add_comm a), <-Z.add_assoc, uint_add_l.
  f_equal. lia.
Qed.

Lemma uint_add3_l a b c : uint (uint (a + uint b) + uint c) = uint (a + (b + c)).
Proof. by rewrite <-(uint_add_l a), uint_add3. Qed.

(** [sum] adds up the values of the characters, modulo [2^32]. *)
Lemma sum_total data len :
  sum cs data len = uint (total (take (Z.to_nat len) data)).
Proof.
  unfold sum. generalize (take (Z.to_nat len) data). intros l.
  assert (forall a, fold_left (fun result c => uint (result + char_value cs c))
                      l (uint a) = uint (a + total l)) as Hgen.
  { induction l as [|c l IH]; intros a; cbn.
    - by rewrite Z.add_0_r.
    - by rewrite IH, <-Z.add_assoc, uint_add_l. }
  pose proof (Hgen 0) as H0. rewrite Z.add_0_l in H0. exact H0.
Qed.

Lemma sum_whole data len :
  Z.of_nat (length data) = len -> sum cs data len = uint (total data).
Proof. intros Hlen. rewrite sum_total, take_ge by lia. done. Qed.

Lemma total_app (a b : list byte) : total (a ++ b) = total a + total b.
Proof. induction a as [|c a IH]; cbn; [done|]. rewrite IH. lia. Qed.

Lemma total_concat {I} (f : I -> list byte) (l : list I) :
  total (concat (map f l)) = total_of (fun i => total (f i)) l.
Proof.
  induction l as [|i l IH]; cbn; [done|]. by rewrite total_app, IH.
Qed.

Lemma total_of_add {I} (g h : I -> Z) (l : list I) :
  total_of (fun i => g i + h i) l = total_of g l + total_of h l.
Proof. induction l as [|i l IH]; cbn; [done|]. rewrite IH. lia. Qed.

Lemma total_of_ext {I} (g h : I -> Z) (l : list I) :
  (forall i, i ∈ l -> g i = h i) -> total_of g l = total_of h l.
Proof.
  intros Heq. f_equal. apply map_ext_in. intros i Hi. apply Heq.
  by apply list_elem_of_In.
Qed.

Lemma total_of_swap {I J} (f : I -> J -> Z) (li : list I) (lj : list J) :
  total_of (fun j => total_of (fun i => f i j) li) lj
  = total_of (fun i => total_of (fun j => f i j) lj) li.
Proof.
  induction lj as [|j lj IH]; cbn.
  - induction li as [|i li IHi]; cbn; [done|]. by rewrite <-IHi.
  - by rewrite IH, total_of_add.
Qed.

(** A buffer of [B] records of [D] elements is the concatenation of its
    elements, record after record. *)
Lemma records_concat (x : list byte) B D e :
  0 <= B -> 0 <= D -> 0 <= e -> Z.of_nat (length x) = B * (D * e) ->
  x = concat (map (fun i =>
                concat (map (fun j => slice x ((i * D + j) * e) e)
                            (seqZ 0 D)))
              (seqZ 0 B)).
Proof.
  intros HB HD He Hlen.
  apply (regions_concat x _ B (D * e)); [done|nia|done|].
  intros i Hi.
  assert (length (slice x (i * (D * e)) (D * e)) = Z.to_nat (D * e)) as Hrow.
  { apply slice_length; nia. }
  apply (regions_concat _ _ D e); [done|done|rewrite Hrow; nia|].
  intros j Hj. rewrite slice_slice by nia. f_equal. lia.
Qed.

(** The sum of a buffer does not depend on its layout. *)
Lemma total_transpose (x : list byte) B D e :
  0 <= B -> 0 <= D -> 0 <= e -> Z.of_nat (length x) = B * (D * e) ->
  total (transpose x B D e) = total x.
Proof.
  intros HB HD He Hlen.
  rewrite (records_concat x B D e) at 2 by done.
  unfold transpose. rewrite !total_concat.
  rewrite (total_of_ext _ (fun j => total_of
             (fun i => total (slice x ((i * D + j) * e) e)) (seqZ 0 B))
             (seqZ 0 D)) by (intros; apply total_concat).
  rewrite (total_of_ext (fun i => total (concat _))
             (fun i => total_of
                (fun j => total (slice x ((i * D + j) * e) e)) (seqZ 0 D))
             (seqZ 0 B)) by (intros; apply total_concat).
  apply (total_of_swap (fun i j => total (slice x ((i * D + j) * e) e))).
Qed.

End test_sums.

Section test_agree.
Context {M : Media} {R : Reader}.
Variable p : DecodeThreadPool.Params.
Variables nread ndecode : Z.
Variable cs : bool.
Hypothesis Hcfg : config_ok p nread ndecode.
Hypothesis Hmedia : media_ok p.
Hypothesis Hconv :
  DecodeThreadPool.targetConversion p <> DecodeThreadPool.READ_CONTENTS p.
Import DecodeThreadPool ThreadTest.

Local Abbreviation total l := (foldr Z.add 0 (map (char_value cs) l)).
Local Abbreviation total_of f l := (foldr Z.add 0 (map f l)).
Local Abbreviation B := (batchSize p).

(** The minibatches [single] can sum: [batchSize] data items, and for each
    a target of at least [_targetLen] bytes, so that [sum] stays inside
    it. *)
Local Abbreviation summable b :=
  (B <= Z.of_nat (length (enc_data b)) /\
   forall j, 0 <= j < B ->
     exists t, getItem (enc_targets b) j = Some t /\
               targetLen p <= Z.of_nat (length t)).

Lemma memcpy_whole (dst src : list byte) L :
  Z.of_nat (length dst) = L -> Z.of_nat (length src) = L ->
  memcpy dst 0 src L = src.
Proof.
  intros Hd Hs. apply list_eq. intros k.
  destruct (decide (k < length dst)%nat) as [Hk|Hk].
  - rewrite memcpy_lookup_inside by lia. f_equal. lia.
  - rewrite !lookup_ge_None_2; [done|lia|rewrite memcpy_length; lia].
Qed.

Lemma total_of_snoc {I} (f : I -> Z) (l : list I) (x : I) :
  total_of f (l ++ [x]) = total_of f l + f x.
Proof. induction l as [|i l IH]; cbn; [lia|]. rewrite IH. lia. Qed.

(** The loop of [single] over the items of one minibatch. *)
Lemma single_items_sum (b : EncTuple) (n : nat) :
  summable b -> Z.of_nat n <= B ->
  forall sm buf, uint sm = sm -> Z.of_nat (length buf) = datumLen p ->
  exists buf',
    Z.of_nat (length buf') = datumLen p /\
    fold_left (single_item cs (datumLen p) (targetLen p) b)
              (seqZ 0 (Z.of_nat n)) (Some (sm, buf))
    = Some (uint (sm + total_of (fun j => total (decode_item p b j).1
                                          + total (decode_item p b j).2)
                                (seqZ 0 (Z.of_nat n))),
            buf').
Proof.
  intros [Hitems Htargets]. pose proof (datumLen_nonneg p _ _ Hcfg) as HdL.
  induction n as [|n IH]; intros Hn sm buf Hsm Hbuf.
  { exists buf. split; [done|]. cbn. by rewrite Z.add_0_r, Hsm. }
  destruct (IH ltac:(lia) sm buf Hsm Hbuf) as (buf1 & Hbuf1 & Hfold).
  rewrite seqZ_S, Z.add_0_l, fold_left_app, Hfold, total_of_snoc.
  cbn [fold_left single_item].
  destruct (getItem_Some (enc_data b) (Z.of_nat n) ltac:(lia)) as [enc Henc].
  destruct (Htargets (Z.of_nat n) ltac:(lia)) as (t & Ht & Hlen).
  set (dec := (media_transform 0 enc (item_len (Some enc)) (datumLen p)).1).
  assert (length dec = Z.to_nat (datumLen p)) as Hdec
    by apply (media_fills p Hmedia).
  assert ((decode_item p b (Z.of_nat n)).1 = dec /\
          total (decode_item p b (Z.of_nat n)).2
          = total (take (Z.to_nat (targetLen p)) t)) as [Hd1 Hd2].
  { unfold decode_item. rewrite Henc, Ht, decide_False by done.
    split; [done|]. change (default [] (Some t)) with t.
    unfold fixed_target. cbn [snd].
    replace (Z.to_nat (targetLen p) - length t)%nat with 0%nat by lia.
    cbn. by rewrite app_nil_r. }
  cbv beta. rewrite Hd1, Hd2, Henc, Ht.
  change (default [] (Some t)) with t. fold dec.
  rewrite memcpy_whole by lia. exists dec. split; [lia|].
  do 2 f_equal.
  rewrite (sum_whole cs dec) by lia. rewrite (sum_total cs t).
  rewrite uint_add3. f_equal. lia.
Qed.

(** What one iteration of [multi] adds for a minibatch on the device. *)
Lemma multi_minibatch_sum (b : EncTuple) sm :
  multi_minibatch cs B (datumLen p) (targetLen p) sm (device_image p b)
  = uint (sm + total_of (fun j => total (decode_item p b j).1
                                  + total (decode_item p b j).2)
                        (seqZ 0 B)).
Proof.
  destruct (single_decode_length p nread ndecode b Hcfg Hmedia) as [Hd Ht].
  destruct Hcfg as [HB HN Hasserts HD Hd' HT Ht' HR HS].
  unfold multi_minibatch, device_image, datumLen, targetLen. cbn [fst snd].
  rewrite !sum_whole by (rewrite transpose_length; lia).
  rewrite !total_transpose by (done || lia).
  rewrite uint_add3_l, total_of_add.
  unfold single_decode. cbn [fst snd]. rewrite !total_concat.
  f_equal; lia.
Qed.

(** The loops of [single] and [multi] over the minibatches of an epoch. *)
Lemma epoch_sums_agree (K : nat) sm buf :
  (forall k, summable (Invariant.batch_of k)) ->
  uint sm = sm -> Z.of_nat (length buf) = datumLen p ->
  let read_back :=
    (fun j => device_image p (Invariant.batch_of j)) <$> seq 0 K in
  exists buf',
    Z.of_nat (length buf') = datumLen p /\
    uint (multi_epoch cs B (datumLen p) (targetLen p) sm read_back)
    = multi_epoch cs B (datumLen p) (targetLen p) sm read_back /\
    single_epoch cs B (datumLen p) (targetLen p) K sm buf
    = Some (multi_epoch cs B (datumLen p) (targetLen p) sm read_back, buf').
Proof.
  intros Hsummable Hsm Hbuf. cbv zeta.
  destruct Hcfg as [HB HN Hasserts HD Hd' HT Ht' HR HS].
  induction K as [|K (buf1 & Hbuf1 & Hnorm & Hsingle)].
  { exists buf. by repeat split. }
  unfold single_epoch, multi_epoch in *.
  rewrite seq_S, fmap_app, !fold_left_app, Hsingle. cbn.
  unfold single_minibatch. fold (Invariant.batch_of K).
  destruct (single_items_sum (Invariant.batch_of K) (Z.to_nat B)
              (Hsummable K) ltac:(lia) _ buf1 Hnorm Hbuf1)
    as (buf2 & Hbuf2 & Hitems).
  rewrite Z2Nat.id in Hitems by lia.
  rewrite Hitems. exists buf2. split; [done|].
  rewrite multi_minibatch_sum. split; [|done].
  unfold uint. by rewrite Z.mod_mod by lia.
Qed.

End test_agree.

(** X14: the check of thread_test.cpp holds for the minibatches of an
    epoch.  On the raw-copy target path, with a reader whose minibatches
    have [batchSize] data items and targets of at least [_targetLen]
    bytes, in every run of the pipeline the sum [multi] accumulates over
    the minibatches it has read back from the device equals the sum
    [single] accumulates by reading and decoding the same number of
    minibatches itself, whether [char] is signed or not; [single] fails
    none of its assertions. *)
Theorem test_sums_agree {M : Media} {R : Reader}
    (p : DecodeThreadPool.Params) (device_init nread ndecode : Z)
    (char_signed : bool) (tr : list Pipeline.event) (s : Pipeline.state)
    (sm : Z) (dataBuf : list byte) :
  let B := DecodeThreadPool.batchSize p in
  let datumLen := DecodeThreadPool.datumLen p in
  let targetLen := DecodeThreadPool.targetLen p in
  config_ok p nread ndecode -> media_ok p ->
  DecodeThreadPool.targetConversion p <> DecodeThreadPool.READ_CONTENTS p ->
  (forall k,
     B <= Z.of_nat (length (enc_data (Invariant.batch_of k))) /\
     forall j, 0 <= j < B ->
       exists t, getItem (enc_targets (Invariant.batch_of k)) j = Some t /\
                 targetLen <= Z.of_nat (length t)) ->
  0 <= sm < 2 ^ 32 -> Z.of_nat (length dataBuf) = datumLen ->
  Pipeline.exec p device_init (Pipeline.init p nread ndecode) tr s ->
  exists dataBuf',
    ThreadTest.single_epoch char_signed B datumLen targetLen
      (length (Pipeline.observed s)) sm dataBuf
    = Some (ThreadTest.multi_epoch char_signed B datumLen targetLen sm
              (Pipeline.observed s),
            dataBuf').
Proof.
  intros B datumLen targetLen Hcfg Hmedia Hconv Hsummable Hsm Hbuf Hexec.
  destruct (pipeline_inv_exec p device_init nread ndecode Hcfg Hmedia tr s Hexec)
    as [_ Hinv].
  pose proof (Invariant.pi_observed _ _ _ s Hinv) as Hobs.
  rewrite Hobs, length_fmap, length_seq.
  destruct (epoch_sums_agree p nread ndecode char_signed Hcfg Hmedia Hconv
              (Pipeline.calls s
               - match Pipeline.trainer s with
                 | Pipeline.TReturned => 1
                 | _ => 0
                 end)%nat sm dataBuf Hsummable)
    as (buf' & _ & _ & Hsingle); [|done|].
  { unfold ThreadTest.uint. apply Z.mod_small. lia. }
  by exists buf'.
Qed.

Lemma demo_reader_summable k :
  2 <= Z.of_nat (length (enc_data (@Invariant.batch_of Pipeline.demo_reader k)))
  /\
  forall j, 0 <= j < 2 ->
    exists t,
      getItem (enc_targets (@Invariant.batch_of Pipeline.demo_reader k)) j
      = Some t /\
      1 <= Z.of_nat (length t).
Proof.
  split; [cbn; lia|]. intros j Hj.
  assert (j = 0 \/ j = 1) as [-> | ->] by lia;
    (eexists; split; [reflexivity | cbn; lia]).
Qed.

Lemma test_sums_agree_witness :
  exists s dataBuf',
    @Pipeline.exec Pipeline.echo_media Pipeline.demo_reader
      Pipeline.demo_params 0 (Pipeline.init Pipeline.demo_params 2 2)
      Pipeline.demo_run s /\
    @ThreadTest.single_epoch Pipeline.echo_media Pipeline.demo_reader
      true 2 1 1 (length (Pipeline.observed s)) 0 [x00]
    = Some (ThreadTest.multi_epoch true 2 1 1 0 (Pipeline.observed s),
            dataBuf').
Proof.
  destruct demo_run_exec as (s & Hexec & _).
  destruct (@test_sums_agree Pipeline.echo_media Pipeline.demo_reader
              Pipeline.demo_params 0 2 2 true Pipeline.demo_run s 0 [x00]
              demo_config_ok demo_media_ok ltac:(discriminate)
              demo_reader_summable ltac:(split; [discriminate | reflexivity])
              eq_refl Hexec) as (buf' & Hsum).
  exists s, buf'. split; [exact Hexec | exact Hsum].
Defined.

(** X15: [sum] cannot tell two layouts of a buffer apart: it yields the
    sum of the characters modulo [2^32], so a buffer of [B] records of [D]
    elements of [e] bytes and its transposition have the same sum, and the
    sum of two buffers laid end to end is the sum of their sums. *)
Theorem sum_ignores_layout (char_signed : bool) (x y : list byte)
    (B D e : Z) :
  0 <= B -> 0 <= D -> 0 <= e -> Z.of_nat (length x) = B * (D * e) ->
  let n := B * (D * e) in
  ThreadTest.sum char_signed (transpose x B D e) n
  = ThreadTest.sum char_signed x n /\
  ThreadTest.sum char_signed (x ++ y) (n + Z.of_nat (length y))
  = ThreadTest.uint (ThreadTest.sum char_signed x n
                     + ThreadTest.sum char_signed y (Z.of_nat (length y))) /\
  0 <= ThreadTest.sum char_signed x n < 2 ^ 32.
Proof.
  intros HB HD He Hlen n. subst n.
  rewrite (sum_whole _ (transpose x B D e)) by (by apply transpose_length).
  rewrite (sum_whole _ (x ++ y)) by (rewrite length_app; lia).
  rewrite !(sum_whole _ x) by done. rewrite (sum_whole _ y) by done.
  split; [by rewrite total_transpose|]. split.
  - by rewrite total_app, uint_add_l, uint_add_r.
  - unfold ThreadTest.uint. apply Z.mod_pos_bound. lia.
Qed.

Lemma sum_ignores_layout_witness :
  ThreadTest.sum true (transpose [x01; x02; x03; x04; x05; x06] 2 3 1) 6
  = ThreadTest.sum true [x01; x02; x03; x04; x05; x06] 6.
Proof.
  apply (sum_ignores_layout true [x01; x02; x03; x04; x05; x06] [] 2 3 1);
    [lia | lia | lia | reflexivity].
Defined.

(** ** The read pool between the read thread and the manager *)



(** ** Progress of the stages *)


(** X18: a call of [next] that waits is served.  With a reader that never
    fails and the device initialised, from every state of a run in which
    the trainer is blocked in [next], whatever the other threads have done,
    the run goes on to the point where that call has returned and the
    trainer has read the device slot back. *)
Theorem waiting_next_returns {M : Media} {R : Reader}
    (p : DecodeThreadPool.Params) (nread ndecode : Z)
    (tr : list Pipeline.event) (s : Pipeline.state) :
  config_ok p nread ndecode -> media_ok p -> Invariant.reader_ok p ->
  Pipeline.exec p 0 (Pipeline.init p nread ndecode) tr s ->
  Pipeline.trainer s = Pipeline.TWaiting ->
  exists tr' s',
    Pipeline.exec p 0 s tr' s' /\
    Pipeline.EvNextWake ∈ tr' /\
    Pipeline.trainer s' = Pipeline.TReady /\
    Pipeline.calls s' = S (Pipeline.calls s) /\
    length (Pipeline.observed s') = S (length (Pipeline.observed s)).
Proof.
  intros Hcfg Hmedia Hreader Hexec Ht.
  destruct (trainer_from_waiting p nread ndecode Hcfg Hmedia Hreader s
              (ex_intro _ tr Hexec) Ht) as (tr' & s' & Hex' & Ht' & Hc').
  exists tr', s'. split; [done|].
  assert (length (Pipeline.observed s) = Pipeline.calls s) as Hlen.
  { rewrite (observed_length p nread ndecode Hcfg Hmedia s
               (ex_intro _ tr Hexec)), Ht. lia. }
  assert (length (Pipeline.observed s') = Pipeline.calls s') as Hlen'.
  { rewrite (observed_length p nread ndecode Hcfg Hmedia s'
               (ex_intro _ (tr ++ tr') (exec_app _ _ _ _ _ _ _ Hexec Hex'))),
      Ht'.
    lia. }
  split; [|split; [done|split; [done|lia]]].
  (* the call can only have returned through a wake-up *)
  clear Hlen Hlen' Hexec.
  assert (forall s0 tr0 s1, Pipeline.exec p 0 s0 tr0 s1 ->
            Pipeline.trainer s0 = Pipeline.TWaiting ->
            Pipeline.trainer s1 <> Pipeline.TWaiting ->
            Pipeline.EvNextWake ∈ tr0) as Hwake.
  { intros s0 tr0 s1 Hex. induction Hex as [|s0 tr0 s1 ev s2 Hex IH Hstep].
    - congruence.
    - intros Ht0 Ht2. apply elem_of_app.
      destruct (Pipeline.trainer s1) eqn:Ht1.
      + left. by apply IH.
      + right. apply list_elem_of_singleton.
        inversion Hstep; subst; cbn in *; try congruence.
      + left. by apply IH. }
  apply (Hwake s tr' s' Hex' Ht). congruence.
Qed.


Lemma waiting_next_returns_witness :
  exists s tr' s',
    @Pipeline.exec Pipeline.echo_media Pipeline.demo_reader
      Pipeline.demo_params 0 (Pipeline.init Pipeline.demo_params 2 2)
      [Pipeline.EvInit; Pipeline.EvNext false false] s /\
    @Pipeline.exec Pipeline.echo_media Pipeline.demo_reader
      Pipeline.demo_params 0 s tr' s' /\
    Pipeline.calls s' = S (Pipeline.calls s).
Proof.
  destruct (@Pipeline.run Pipeline.echo_media Pipeline.demo_reader
              Pipeline.demo_params 0
              [Pipeline.EvInit; Pipeline.EvNext false false]
              (Pipeline.init Pipeline.demo_params 2 2))
    as [s|] eqn:Hrun; [|vm_compute in Hrun; discriminate].
  assert (Pipeline.trainer s = Pipeline.TWaiting) as Ht.
  { pose proof Hrun as Hs. vm_compute in Hs. injection Hs as <-.
    reflexivity. }
  apply run_sound in Hrun.
  destruct (@waiting_next_returns Pipeline.echo_media Pipeline.demo_reader
              Pipeline.demo_params 2 2 _ s demo_config_ok demo_media_ok
              demo_reader_ok Hrun Ht) as (tr' & s' & Hex & _ & _ & Hc & _).
  exists s, tr', s'. split; [exact Hrun|]. split; [exact Hex | exact Hc].
Defined.

(** ** The meta buffer that reaches the device *)

Section meta_facts.
Context {M : Media} {R : Reader}.
Variable p : DecodeThreadPool.Params.
Variables device_init nread ndecode : Z.
Hypothesis Hcfg : config_ok p nread ndecode.
Hypothesis Hmedia : media_ok p.
Hypothesis Hconv :
  DecodeThreadPool.targetConversion p <> DecodeThreadPool.READ_CONTENTS p.
Import DecodeThreadPool Pipeline Invariant MetaInvariant.

Local Abbreviation step := (Pipeline.step p device_init).
Local Abbreviation exec := (Pipeline.exec p device_init).
Local Abbreviation pinv := (pipeline_inv p nread ndecode).







End meta_facts.


